(** * lsc_dr_planner: geometry kernel and agent manager

    A shallow embedding of [include/geometry.hpp] and of the agent manager
    ([AgentManager::doStep], [plan], [setPlannerState],
    [planningStateTransition]) together with the properties the
    specification states about them.

    Numbers.  The C++ code computes with [float] and [double].  The embedding
    reads every arithmetic operation as the exact operation on real numbers
    ([R] of the Standard Library): [+], [-], [*], [/] and [sqrt] are the real
    ones, comparisons are the real comparisons, and the narrowing casts to
    [float] are the identity.  The concrete inputs used below are small dyadic
    numbers whose intermediate values are exactly representable, so that the
    evaluations can be replayed on the C++ code as they stand.

    One test is not read on the exact values: the comparison [delta == b] of
    two computed [float] vectors in [computeCollisionTime], whose outcome
    rounding decides on ordinary inputs (see [float_vector_eqb]).  The run
    on [path_closing] is about that rounding, and its end point 1/10 is not
    a dyadic number. *)

From Stdlib Require Import Reals Lra Psatz List ZArith Bool.
Import ListNotations.
Local Open Scope R_scope.

(** * Definitions *)

Module Geometry.

(** ** Vectors *)

(** Modelled from the spec: [point3d] / [vector3d] (octomap's
    [octomath::Vector3], reached through [sp_const.hpp], which is not in the
    source tree).  The spec's data model: "Three-dimensional real vector". *)
Record point3d : Type := mkPoint3d { x : R; y : R; z : R }.

(** [point3d()]: the default constructor of [octomath::Vector3] sets the three
    components to zero. *)
Definition point3d_default : point3d := mkPoint3d 0 0 0.

Definition padd (a b : point3d) : point3d :=
  mkPoint3d (x a + x b) (y a + y b) (z a + z b).

Definition psub (a b : point3d) : point3d :=
  mkPoint3d (x a - x b) (y a - y b) (z a - z b).

Definition pneg (a : point3d) : point3d :=
  mkPoint3d (- x a) (- y a) (- z a).

(** [operator*(float)]: the vector is the left operand in the source. *)
Definition pscale (a : point3d) (k : R) : point3d :=
  mkPoint3d (x a * k) (y a * k) (z a * k).

Notation "a [+] b" := (padd a b) (at level 50, left associativity).
Notation "a [-] b" := (psub a b) (at level 50, left associativity).
Notation "a [*] k" := (pscale a k) (at level 40, left associativity).

Definition dot (a b : point3d) : R := x a * x b + y a * y b + z a * z b.

Definition cross (a b : point3d) : point3d :=
  mkPoint3d (y a * z b - z a * y b)
            (z a * x b - x a * z b)
            (x a * y b - y a * x b).

Definition norm_sq (a : point3d) : R := x a * x a + y a * y a + z a * z a.

Definition norm (a : point3d) : R := sqrt (norm_sq a).

(** [Vector3::distance]: the square root of the sum of the squared component
    differences. *)
Definition distance (a b : point3d) : R :=
  sqrt ((x a - x b) * (x a - x b) + (y a - y b) * (y a - y b)
        + (z a - z b) * (z a - z b)).

(** [Vector3::normalized]: a copy divided by its norm when the norm is
    positive, the copy itself otherwise. *)
Definition normalized (a : point3d) : point3d :=
  let len := norm a in
  if Rgt_dec len 0 then mkPoint3d (x a / len) (y a / len) (z a / len) else a.

(** [operator==]: component-wise comparison. *)
Definition point3d_eq_dec (a b : point3d) : {a = b} + {a <> b}.
Proof.
  destruct a as [ax ay az], b as [bx b_y bz].
  destruct (Req_dec_T ax bx) as [Hx | Hx];
    [ destruct (Req_dec_T ay b_y) as [Hy | Hy];
      [ destruct (Req_dec_T az bz) as [Hz | Hz];
        [ left; congruence | right; congruence ]
      | right; congruence ]
    | right; congruence ].
Defined.

(** Comparisons as booleans, for the conditions the source combines with
    [&&] and [or]. *)
Definition Rltb (a b : R) : bool := if Rlt_dec a b then true else false.
Definition Rgtb (a b : R) : bool := if Rgt_dec a b then true else false.

(** ** Lines and closest-point results *)

Record Line : Type := mkLine { start_point : point3d; end_point : point3d }.

(** [Line::length]. *)
Definition length (l : Line) : R := distance (start_point l) (end_point l).

(** [Line::operator-]. *)
Definition line_sub (l other : Line) : Line :=
  mkLine (start_point l [-] start_point other) (end_point l [-] end_point other).

(** Modelled from the spec: [ClosestPoints] (declared in [sp_const.hpp], not
    in the source tree): "All routines return {point1, point2, distance}". *)
Record ClosestPoints : Type := mkClosestPoints {
  dist : R;
  closest_point1 : point3d;
  closest_point2 : point3d
}.

(** [std::swap(closest_points.closest_point1, closest_points.closest_point2)]. *)
Definition swap_closest_points (c : ClosestPoints) : ClosestPoints :=
  mkClosestPoints (dist c) (closest_point2 c) (closest_point1 c).

(** ** 3x3 matrices, for [Eigen::Matrix3f] in [closestPointsBetweenLines] *)

Record Matrix3f : Type := mkMatrix3f { row0 : point3d; row1 : point3d; row2 : point3d }.

Definition determinant (A : Matrix3f) : R := dot (row0 A) (cross (row1 A) (row2 A)).

(** [A.inverse()]: the transposed cofactor matrix divided by the determinant.
    Its columns are the cross products of the rows of [A]. *)
Definition inverse (A : Matrix3f) : Matrix3f :=
  let d := determinant A in
  let c0 := cross (row1 A) (row2 A) in
  let c1 := cross (row2 A) (row0 A) in
  let c2 := cross (row0 A) (row1 A) in
  mkMatrix3f (mkPoint3d (x c0 / d) (x c1 / d) (x c2 / d))
             (mkPoint3d (y c0 / d) (y c1 / d) (y c2 / d))
             (mkPoint3d (z c0 / d) (z c1 / d) (z c2 / d)).

(** Matrix times column vector. *)
Definition mul_vec (A : Matrix3f) (b : point3d) : point3d :=
  mkPoint3d (dot (row0 A) b) (dot (row1 A) b) (dot (row2 A) b).

(** ** The geometry kernel *)

Section GeometryKernel.

(** The two constants of [sp_const.hpp] the kernel uses; the header is not in
    the source tree, so they are parameters of the kernel. *)
Variable SP_EPSILON_FLOAT : R.
Variable SP_INFINITY : R.

(** [Line::direction]. *)
Definition direction (l : Line) : point3d :=
  if Rlt_dec (norm (end_point l [-] start_point l)) SP_EPSILON_FLOAT
  then mkPoint3d 0 0 0
  else normalized (end_point l [-] start_point l).

Definition closestPointsBetweenPointAndLine
    (point line_point line_direction : point3d) : ClosestPoints :=
  let a := line_point [-] point in
  let c := a [-] line_direction [*] dot a line_direction in
  let line_closest_point := point [+] c in
  mkClosestPoints (norm c) point line_closest_point.

(** [ray_closest_point] is declared and never assigned: in the first branch
    the second point of the result is the default-constructed vector. *)
Definition closestPointsBetweenPointAndRay
    (point ray_start ray_direction : point3d) : ClosestPoints :=
  let ray_closest_point := point3d_default in
  let delta_to_start := point [-] ray_start in
  if Rlt_dec (dot delta_to_start ray_direction) 0
  then mkClosestPoints (norm delta_to_start) point ray_closest_point
  else closestPointsBetweenPointAndLine point ray_start ray_direction.

Definition closestPointsBetweenPointAndLineSegment
    (point : point3d) (line : Line) : ClosestPoints :=
  let a := start_point line [-] point in
  let b := end_point line [-] point in
  let '(dist_min, rel_closest_point) :=
    if point3d_eq_dec a b then (norm a, a)
    else
      let dist_min := norm a in
      let rel_closest_point := a in
      let dist := norm b in
      let '(dist_min, rel_closest_point) :=
        if Rgt_dec dist_min dist then (dist, b) else (dist_min, rel_closest_point) in
      let n_line := normalized (b [-] a) in
      let c := a [-] n_line [*] dot a n_line in
      let dist := norm c in
      if Rltb (dot (c [-] a) (c [-] b)) 0 && Rgtb dist_min dist
      then (dist, c)
      else (dist_min, rel_closest_point) in
  mkClosestPoints dist_min point (rel_closest_point [+] point).

Definition closestPointsBetweenLinePaths (line1 line2 : Line) : ClosestPoints :=
  let rel_path := line_sub line2 line1 in
  let origin := mkPoint3d 0 0 0 in
  let rel_closest_points := closestPointsBetweenPointAndLineSegment origin rel_path in
  let line_length := length rel_path in
  let alpha :=
    if Rgt_dec line_length 0
    then norm (closest_point2 rel_closest_points [-] start_point rel_path) / line_length
    else 0 in
  mkClosestPoints
    (dist rel_closest_points)
    (start_point line1 [+] (end_point line1 [-] start_point line1) [*] alpha)
    (start_point line2 [+] (end_point line2 [-] start_point line2) [*] alpha).

(** [closestPointsBetweenLines] throws [std::invalid_argument] on a line whose
    two points are equal: [None] stands for the exception. *)
Definition closestPointsBetweenLines (line1 line2 : Line) : option ClosestPoints :=
  if point3d_eq_dec (start_point line1) (end_point line1) then None
  else if point3d_eq_dec (start_point line2) (end_point line2) then None
  else
    let n1 := normalized (end_point line1 [-] start_point line1) in
    let n2 := normalized (end_point line2 [-] start_point line2) in
    if Rltb (distance n1 n2) SP_EPSILON_FLOAT
       || Rltb (distance n1 (pneg n2)) SP_EPSILON_FLOAT
    then
      let delta := start_point line2 [-] start_point line1 in
      let delta := delta [-] n1 [*] dot delta n1 in
      Some (mkClosestPoints (norm delta) (start_point line1) (start_point line1 [+] delta))
    else
      let delta := start_point line2 [-] start_point line1 in
      let n3 := normalized (cross n2 n1) in
      let A := mkMatrix3f (mkPoint3d (x n1) (- x n2) (x n3))
                          (mkPoint3d (y n1) (- y n2) (y n3))
                          (mkPoint3d (z n1) (- z n2) (z n3)) in
      let b := delta in
      let alphas := mul_vec (inverse A) b in
      Some (mkClosestPoints (Rabs (z alphas))
                            (start_point line1 [+] n1 [*] x alphas)
                            (start_point line2 [+] n2 [*] y alphas)).

(** The branch of [closestPointsBetweenLineSegments] for parallel segments
    (source lines 193-218); [n1] and [l1] are the unit direction and the
    length of [line1] computed by the caller. *)
Definition parallelLineSegments (line1 line2 : Line) (n1 : point3d) (l1 : R)
    : ClosestPoints :=
  let bound_min := dot (start_point line2 [-] start_point line1) n1 in
  let bound_max := dot (end_point line2 [-] start_point line1) n1 in
  let p2_min := start_point line2 in
  let p2_max := end_point line2 in
  let '(bound_min, bound_max, p2_min, p2_max) :=
    if Rlt_dec bound_max bound_min
    then (bound_max, bound_min, p2_max, p2_min)
    else (bound_min, bound_max, p2_min, p2_max) in
  let delta := start_point line2 [-] start_point line1 in
  let delta := delta [-] n1 [*] dot delta n1 in
  let '(cp1, cp2) :=
    if Rlt_dec l1 bound_min then (end_point line1, p2_min)
    else if Rlt_dec bound_max 0 then (start_point line1, p2_max)
    else if Rlt_dec bound_min 0 then (start_point line1, start_point line1 [+] delta)
    else (p2_min [-] delta, p2_min) in
  mkClosestPoints (distance cp1 cp2) cp1 cp2.

(** The "alpha check" of [closestPointsBetweenLineSegments] (source lines
    222-259), applied to the closest points of the two supporting lines. *)
Definition clampToLineSegments (line1 line2 : Line) (n1 n2 : point3d) (l1 l2 : R)
    (closest_points : ClosestPoints) : ClosestPoints :=
  let alpha1 := dot (closest_point1 closest_points [-] start_point line1) n1 / l1 in
  let alpha2 := dot (closest_point2 closest_points [-] start_point line2) n2 / l2 in
  let cp1 := closest_point1 closest_points in
  let cp2 := closest_point2 closest_points in
  let cp1 :=
    if Rlt_dec alpha1 0 then start_point line1
    else if Rgt_dec alpha1 1 then end_point line1 else cp1 in
  let cp2 :=
    if Rlt_dec alpha2 0 then start_point line2
    else if Rgt_dec alpha2 1 then end_point line2 else cp2 in
  let cp2 :=
    if Rltb alpha1 0 || Rgtb alpha1 1
    then
      let d := dot n2 (cp1 [-] start_point line2) in
      let d := if Rlt_dec d 0 then 0 else if Rgt_dec d l2 then l2 else d in
      start_point line2 [+] n2 [*] d
    else cp2 in
  let cp1 :=
    if Rltb alpha2 0 || Rgtb alpha2 1
    then
      let d := dot n1 (cp2 [-] start_point line1) in
      let d := if Rlt_dec d 0 then 0 else if Rgt_dec d l1 then l1 else d in
      start_point line1 [+] n1 [*] d
    else cp1 in
  mkClosestPoints (distance cp1 cp2) cp1 cp2.

Definition closestPointsBetweenLineSegments (line1 line2 : Line)
    : option ClosestPoints :=
  if Rlt_dec (distance (start_point line1) (end_point line1)) SP_EPSILON_FLOAT then
    Some (closestPointsBetweenPointAndLineSegment (start_point line1) line2)
  else if Rlt_dec (distance (start_point line2) (end_point line2)) SP_EPSILON_FLOAT then
    Some (swap_closest_points
            (closestPointsBetweenPointAndLineSegment (start_point line2) line1))
  else
    let v1 := end_point line1 [-] start_point line1 in
    let v2 := end_point line2 [-] start_point line2 in
    let l1 := norm v1 in
    let l2 := norm v2 in
    let n1 := v1 [*] (1 / l1) in
    let n2 := v2 [*] (1 / l2) in
    if Rlt_dec (norm (cross n1 n2)) SP_EPSILON_FLOAT
    then Some (parallelLineSegments line1 line2 n1 l1)
    else
      match closestPointsBetweenLines line1 line2 with
      | None => None
      | Some closest_points =>
          Some (clampToLineSegments line1 line2 n1 n2 l1 l2 closest_points)
      end.

(** [gjk] belongs to the openGJK library: it returns a number and writes the
    vector [v].  The library is a parameter of the routine below. *)
Variable gjk : list point3d -> list point3d -> R * point3d.

Definition closestPointsBetweenPointAndConvexHull
    (point : point3d) (convex_hull : list point3d) : ClosestPoints :=
  let '(dd, v) := gjk convex_hull [point] in
  mkClosestPoints dd point (point [+] mkPoint3d (x v) (y v) (z v)).

(** [operator==] of [point3d] compares the [float] components for equality.
    In [computeCollisionTime] its left operand [delta] is the difference of
    two points that [closestPointsBetweenLinePaths] has computed as
    [start + (end - start) * alpha] in [float], and its right operand [b] is
    the difference of the two ends.  Where the exact values of the operands
    agree, the computed ones need not: at [alpha = 1] the sum
    [start + (end - start)] is rounded and is in general not [end].  The
    comparison is therefore not read on the exact values alone:
    [delta_rounded] tells whether rounding has moved the computed [delta]
    off [b], and the test succeeds when the exact values agree and rounding
    has not separated them.  Where the exact values differ the test fails:
    computed operands could only agree there when the closest approach is
    within rounding of the end of the path, where the two formulas of
    [computeCollisionTime] agree within rounding as well. *)
Definition float_vector_eqb (delta_rounded : bool) (delta b : point3d) : bool :=
  if point3d_eq_dec delta b then negb delta_rounded else false.

Definition computeCollisionTime (delta_rounded : bool) (obs_path agent_path : Line)
    (collision_radius time_horizon : R) : R :=
  let closest_points := closestPointsBetweenLinePaths obs_path agent_path in
  if Rle_dec (dist closest_points) collision_radius then
    let a := start_point agent_path [-] start_point obs_path in
    let b := end_point agent_path [-] end_point obs_path in
    let delta := closest_point2 closest_points [-] closest_point1 closest_points in
    if Rle_dec (norm a) collision_radius then 0
    else if float_vector_eqb delta_rounded delta b then
      let dist_to_b := norm b in
      let n_line := normalized (b [-] a) in
      let c := a [-] n_line [*] dot a n_line in
      let dist_to_c := norm c in
      let dist_in_sphere1 :=
        sqrt (collision_radius * collision_radius - dist_to_c * dist_to_c) in
      let dist_in_sphere2 := sqrt (dist_to_b * dist_to_b - dist_to_c * dist_to_c) in
      (1 - (dist_in_sphere1 - dist_in_sphere2) / norm (b [-] a)) * time_horizon
    else
      let dist_to_b := norm b in
      let dist_in_sphere1 :=
        sqrt (collision_radius * collision_radius
              - dist closest_points * dist closest_points) in
      let dist_in_sphere2 :=
        sqrt (dist_to_b * dist_to_b - dist closest_points * dist closest_points) in
      (1 - (dist_in_sphere1 + dist_in_sphere2) / norm (b [-] a)) * time_horizon
  else SP_INFINITY.

(** [lineDirection] throws on a line whose two points are equal. *)
Definition lineDirection (line : Line) : option point3d :=
  if point3d_eq_dec (start_point line) (end_point line) then None
  else Some (normalized (end_point line [-] start_point line)).

(** [safeDistInDirection], on the position and radius of each obstacle
    message; the arguments [dimension] and [z_2d] are unused by the source. *)
Definition safeDistInDirection (position direction : point3d)
    (obstacles : list (point3d * R)) (radius : R) : R :=
  fold_left
    (fun safe_dist (obstacle : point3d * R) =>
       let obs_position := fst obstacle in
       let radius_sum := snd obstacle + radius in
       let closest_points :=
         closestPointsBetweenPointAndRay obs_position position direction in
       let ray_closest_point := closest_point2 closest_points in
       let safe_dist_cand :=
         if Rlt_dec (dist closest_points) radius_sum then
           let dist_to_closest_point := norm (ray_closest_point [-] position) in
           Rmax (dist_to_closest_point
                 - sqrt (radius_sum * radius_sum
                         - dist closest_points * dist closest_points)) 0
         else SP_INFINITY in
       if Rlt_dec safe_dist_cand safe_dist then safe_dist_cand else safe_dist)
    obstacles SP_INFINITY.

End GeometryKernel.

End Geometry.

(** ** Notions used to state the properties of the kernel *)

Import Geometry.

(** The position on the path [l] at the fraction [alpha] of the horizon,
    and the position of the agent relative to the obstacle there. *)
Definition path_point (l : Line) (alpha : R) : point3d :=
  start_point l [+] (end_point l [-] start_point l) [*] alpha.

Definition relative_position (obs_path agent_path : Line) (alpha : R) : point3d :=
  path_point agent_path alpha [-] path_point obs_path alpha.

(** [t] is where [s |-> |a + (b - a) s|] is least on [[0, 1]], by the
    first-order conditions: at 0 when the path leaves [a] moving away from
    the origin, at 1 when it reaches [b] still approaching, at the foot of
    the perpendicular in between. *)
Definition segment_minimiser (a b : point3d) (t : R) : Prop :=
  let d := b [-] a in
  let q := dot a d in
  let D := norm_sq d in
  (t = 0 /\ (a = b \/ 0 <= q))
  \/ (t = 1 /\ a <> b /\ q + D <= 0)
  \/ (a <> b /\ - D < q < 0 /\ t = - q / D).



(** The clamping of a parameter to a segment of length [l], as the alpha
    check writes it: [if (dot < 0) dot = 0; else if (dot > l) dot = l;]. *)
Definition clamp0 (l d : R) : R :=
  if Rlt_dec d 0 then 0 else if Rgt_dec d l then l else d.

(** The linear system of [closestPointsBetweenLines]:
    [n1 * alpha1 - n2 * alpha2 + n3 * alpha3 = delta]. *)
Definition skew_matrix (n1 n2 n3 : point3d) : Matrix3f :=
  mkMatrix3f (mkPoint3d (x n1) (- x n2) (x n3))
             (mkPoint3d (y n1) (- y n2) (y n3))
             (mkPoint3d (z n1) (- z n2) (z n3)).


(** *** Inputs of the runs *)

(** Modelled from the spec: the value of [SP_EPSILON_FLOAT] ([sp_const.hpp]
    is not in the source tree); the spec gives the epsilon guard as about
    1e-5.  Only the runs on concrete segments use it; they hold for every
    guard in (0, 1]. *)
Definition SP_EPSILON_FLOAT_spec : R := 1 / 100000.

(** Two antiparallel segments, one above the other. *)
Definition seg_a : Line := mkLine (mkPoint3d 0 0 0) (mkPoint3d 1 0 0).
Definition seg_b : Line := mkLine (mkPoint3d 2 1 0) (mkPoint3d 0 1 0).

(** Two perpendicular segments crossing at height 0 and 1. *)
Definition seg_x : Line := mkLine (mkPoint3d (-1) 0 0) (mkPoint3d 1 0 0).
Definition seg_y : Line := mkLine (mkPoint3d 0 (-1) 1) (mkPoint3d 0 1 1).

(** An obstacle at rest at the origin, an agent leaving from distance 1, and
    an agent passing through the origin. *)
Definition path_at_rest : Line := mkLine (mkPoint3d 0 0 0) (mkPoint3d 0 0 0).
Definition path_leaving : Line := mkLine (mkPoint3d 1 0 0) (mkPoint3d 2 0 0).
Definition path_through : Line := mkLine (mkPoint3d (-2) 0 0) (mkPoint3d 2 0 0).

(** *** Notions for the further properties *)

(** The squared distance between the points of parameters [s] and [t] of
    two lines with unit directions, less its constant term: [c] is the dot
    product of the directions, [gamma] and [beta] the parameters of the
    feet of the perpendiculars from the start of each line to the other. *)
Definition gap (c beta gamma s t : R) : R :=
  s * s + t * t - 2 * c * s * t - 2 * gamma * s - 2 * beta * t.

(** The candidate distance of one obstacle in the loop of
    [safeDistInDirection] (source lines 750-759): an obstacle is its
    position and its radius. *)
Definition safe_dist_candidate (SP_INFINITY : R) (position direction : point3d)
    (radius : R) (obstacle : point3d * R) : R :=
  let obs_position := fst obstacle in
  let radius_sum := snd obstacle + radius in
  let closest_points :=
    closestPointsBetweenPointAndRay obs_position position direction in
  let ray_closest_point := closest_point2 closest_points in
  if Rlt_dec (dist closest_points) radius_sum then
    let dist_to_closest_point := norm (ray_closest_point [-] position) in
    Rmax (dist_to_closest_point
          - sqrt (radius_sum * radius_sum
                  - dist closest_points * dist closest_points)) 0
  else SP_INFINITY.

(** A unit segment along the second axis, skew to [seg_a] and one unit
    apart from it, and a unit segment parallel to [seg_a], one unit beside
    it. *)
Definition seg_v : Line := mkLine (mkPoint3d 0 0 1) (mkPoint3d 0 1 1).
Definition seg_w : Line := mkLine (mkPoint3d 0 1 0) (mkPoint3d 1 1 0).

(** The first axis, and an obstacle of radius 1/2 on it, 5 ahead of the
    origin. *)
Definition axis_x : point3d := mkPoint3d 1 0 0.
Definition obstacle_ahead : point3d * R := (mkPoint3d 5 0 0, 1 / 2).

(** An agent that closes in on an obstacle at rest and ends its path
    within the radius 1/2 of it, still approaching. *)
Definition path_closing : Line := mkLine (mkPoint3d 1 0 0) (mkPoint3d (1 / 10) 0 0).

(** Two segments shorter than the guard, one unit apart along their common
    line. *)
Definition seg_s : Line := mkLine (mkPoint3d 0 0 0) (mkPoint3d (1 / 200000) 0 0).
Definition seg_s' : Line := mkLine (mkPoint3d 1 0 0) (mkPoint3d (1 + 1 / 200000) 0 0).

(** A long segment and a second one above it, in the opposite sense and
    tilted by less than the guard: it rises by 1 over a length of about
    131072. *)
Definition seg_l : Line := mkLine (mkPoint3d 0 0 0) (mkPoint3d 131072 0 0).
Definition seg_t : Line :=
  mkLine (mkPoint3d 131072 (1 / 8) 0) (mkPoint3d (1 / 524288) (9 / 8) 0).

(** ** The agent manager *)

Module Agent_manager.

Import Geometry.

(** Modelled from the spec: [PlannerState] (declared in [sp_const.hpp], not in
    the source tree): "One of {WAIT, GOTO, PATROL, GOBACK, LAND}". *)
Inductive PlannerState : Type := WAIT | GOTO | PATROL | GOBACK | LAND.

(** Modelled from the spec: [PlanningReport] (declared in [sp_const.hpp], not
    in the source tree): "one of {WAITFORROSMSG (inputs incomplete), SUCCESS,
    INITTRAJGENERATIONFAIL, CONSTRAINTGENERATIONFAIL, QPFAIL}". *)
Inductive PlanningReport : Type :=
  | WAITFORROSMSG
  | SUCCESS
  | INITTRAJGENERATIONFAIL
  | CONSTRAINTGENERATIONFAIL
  | QPFAIL.

Inductive ObstacleType : Type := AGENT | DYNAMICOBSTACLE | STATICOBSTACLE.

Definition PlannerState_eqb (a b : PlannerState) : bool :=
  match a, b with
  | WAIT, WAIT | GOTO, GOTO | PATROL, PATROL | GOBACK, GOBACK | LAND, LAND => true
  | _, _ => false
  end.

Definition ObstacleType_eqb (a b : ObstacleType) : bool :=
  match a, b with
  | AGENT, AGENT | DYNAMICOBSTACLE, DYNAMICOBSTACLE
  | STATICOBSTACLE, STATICOBSTACLE => true
  | _, _ => false
  end.

(** The fields of [Param] the manager reads. *)
Record Param : Type := mkParam {
  multisim_experiment : bool;
  world_dimension : Z;
  world_z_2d : R;
  world_use_global_map : bool;
  goal_threshold : R;
  reset_threshold : R
}.

Record State : Type := mkState {
  position : point3d;
  velocity : point3d;
  acceleration : point3d
}.

(** The fields of [Agent] the manager reads or writes. *)
Record Agent : Type := mkAgent {
  id : Z;
  current_state : State;
  start_point : point3d;
  desired_goal_point : point3d;
  current_goal_point : point3d;
  next_waypoint : point3d
}.

Record Mission : Type := mkMission { agents : list Agent }.

(** [mission.agents[i]]: indexing a [std::vector] outside its bounds is
    undefined; [None] stands for it. *)
Definition agents_at (mission : Mission) (i : Z) : option Agent :=
  if (i <? 0)%Z then None else nth_error (agents mission) (Z.to_nat i).

Fixpoint list_update {A : Type} (l : list A) (n : nat) (f : A -> A) : option (list A) :=
  match l, n with
  | [], _ => None
  | a :: l', O => Some (f a :: l')
  | a :: l', S n' =>
      match list_update l' n' f with
      | Some l'' => Some (a :: l'')
      | None => None
      end
  end.

(** [mission.agents[i].field = v]. *)
Definition agents_update (mission : Mission) (i : Z) (f : Agent -> Agent)
    : option Mission :=
  if (i <? 0)%Z then None
  else match list_update (agents mission) (Z.to_nat i) f with
       | Some l => Some (mkMission l)
       | None => None
       end.

(** The fields of [dynamic_msgs::Obstacle] that [obstacleCallback] touches. *)
Record Obstacle (Pose Twist : Type) : Type := mkObstacle {
  obs_id : Z;
  obs_type : ObstacleType;
  obs_pose : Pose;
  obs_velocity : Twist
}.

Arguments mkObstacle {Pose Twist} _ _ _ _.
Arguments obs_id {Pose Twist} _.
Arguments obs_type {Pose Twist} _.
Arguments obs_pose {Pose Twist} _.
Arguments obs_velocity {Pose Twist} _.

(** A member function runs in the option monad: [None] is undefined behaviour
    of the C++ code (a null [cmd_publisher] dereferenced, a vector indexed
    out of bounds). *)
Notation "v <- c ;; k" := (match c with Some v => k | None => None end)
  (at level 61, c at next level, right associativity).

(** The collaborators of the manager whose code is outside the source tree:
    the trajectory planner, the map manager, the command publisher, the
    trajectory type and the ROS messages.  Each is an abstract state with the
    member functions the manager calls. *)
Class Collaborators : Type := {
  TrajPlanner : Type;
  MapManager : Type;
  CmdPublisher : Type;
  traj_t : Type;
  Time : Type;
  Pose : Type;
  Twist : Type;
  (* CmdPublisher *)
  isDisturbed : CmdPublisher -> bool;
  getObservedAgentPosition : CmdPublisher -> point3d;
  isAgentPoseUpdated : CmdPublisher -> bool;
  landingFinished : CmdPublisher -> bool;
  landingCallback : CmdPublisher -> CmdPublisher;
  updateTraj : CmdPublisher -> traj_t -> Time -> CmdPublisher;
  isObsPoseUpdated : CmdPublisher -> Z -> bool;
  getObsOdometry : CmdPublisher -> Z -> Pose * Twist;
  (* MapManager *)
  updateVirtualLocalMap : MapManager -> point3d -> MapManager;
  (* TrajPlanner *)
  TrajPlanner_plan :
    TrajPlanner -> Agent -> MapManager -> Time -> bool -> traj_t * TrajPlanner;
  setObstacles : TrajPlanner -> list (Obstacle Pose Twist) -> TrajPlanner;
  getCurrentGoalPosition : TrajPlanner -> point3d;
  getCollisionAlert : TrajPlanner -> bool;
  (* traj_t *)
  getStateAt : traj_t -> R -> State
}.

Section Manager.

Context {C : Collaborators}.

(** The members of [AgentManager].  [cmd_publisher] is a [unique_ptr] that the
    constructor fills only when [param.multisim_experiment] holds. *)
Record AgentManager : Type := mkAgentManager {
  param : Param;
  mission : Mission;
  agent : Agent;
  planner_state : PlannerState;
  has_current_state : bool;
  has_obstacles : bool;
  has_local_map : bool;
  is_disturbed : bool;
  collision_alert : bool;
  desired_traj : traj_t;
  traj_planner : TrajPlanner;
  map_manager : MapManager;
  cmd_publisher : option CmdPublisher
}.

(** Assignments to one member. *)
Definition set_agent (m : AgentManager) (a : Agent) : AgentManager :=
  mkAgentManager (param m) (mission m) a (planner_state m) (has_current_state m)
    (has_obstacles m) (has_local_map m) (is_disturbed m) (collision_alert m)
    (desired_traj m) (traj_planner m) (map_manager m) (cmd_publisher m).

Definition set_mission (m : AgentManager) (v : Mission) : AgentManager :=
  mkAgentManager (param m) v (agent m) (planner_state m) (has_current_state m)
    (has_obstacles m) (has_local_map m) (is_disturbed m) (collision_alert m)
    (desired_traj m) (traj_planner m) (map_manager m) (cmd_publisher m).

Definition set_planner_state (m : AgentManager) (v : PlannerState) : AgentManager :=
  mkAgentManager (param m) (mission m) (agent m) v (has_current_state m)
    (has_obstacles m) (has_local_map m) (is_disturbed m) (collision_alert m)
    (desired_traj m) (traj_planner m) (map_manager m) (cmd_publisher m).

Definition set_has_current_state (m : AgentManager) (v : bool) : AgentManager :=
  mkAgentManager (param m) (mission m) (agent m) (planner_state m) v
    (has_obstacles m) (has_local_map m) (is_disturbed m) (collision_alert m)
    (desired_traj m) (traj_planner m) (map_manager m) (cmd_publisher m).

Definition set_has_obstacles (m : AgentManager) (v : bool) : AgentManager :=
  mkAgentManager (param m) (mission m) (agent m) (planner_state m)
    (has_current_state m) v (has_local_map m) (is_disturbed m) (collision_alert m)
    (desired_traj m) (traj_planner m) (map_manager m) (cmd_publisher m).

Definition set_is_disturbed (m : AgentManager) (v : bool) : AgentManager :=
  mkAgentManager (param m) (mission m) (agent m) (planner_state m)
    (has_current_state m) (has_obstacles m) (has_local_map m) v (collision_alert m)
    (desired_traj m) (traj_planner m) (map_manager m) (cmd_publisher m).

Definition set_collision_alert (m : AgentManager) (v : bool) : AgentManager :=
  mkAgentManager (param m) (mission m) (agent m) (planner_state m)
    (has_current_state m) (has_obstacles m) (has_local_map m) (is_disturbed m) v
    (desired_traj m) (traj_planner m) (map_manager m) (cmd_publisher m).

Definition set_desired_traj (m : AgentManager) (v : traj_t) : AgentManager :=
  mkAgentManager (param m) (mission m) (agent m) (planner_state m)
    (has_current_state m) (has_obstacles m) (has_local_map m) (is_disturbed m)
    (collision_alert m) v (traj_planner m) (map_manager m) (cmd_publisher m).

Definition set_traj_planner (m : AgentManager) (v : TrajPlanner) : AgentManager :=
  mkAgentManager (param m) (mission m) (agent m) (planner_state m)
    (has_current_state m) (has_obstacles m) (has_local_map m) (is_disturbed m)
    (collision_alert m) (desired_traj m) v (map_manager m) (cmd_publisher m).

Definition set_map_manager (m : AgentManager) (v : MapManager) : AgentManager :=
  mkAgentManager (param m) (mission m) (agent m) (planner_state m)
    (has_current_state m) (has_obstacles m) (has_local_map m) (is_disturbed m)
    (collision_alert m) (desired_traj m) (traj_planner m) v (cmd_publisher m).

Definition set_cmd_publisher (m : AgentManager) (v : CmdPublisher) : AgentManager :=
  mkAgentManager (param m) (mission m) (agent m) (planner_state m)
    (has_current_state m) (has_obstacles m) (has_local_map m) (is_disturbed m)
    (collision_alert m) (desired_traj m) (traj_planner m) (map_manager m) (Some v).

Definition set_current_state (a : Agent) (s : State) : Agent :=
  mkAgent (id a) s (start_point a) (desired_goal_point a) (current_goal_point a)
    (next_waypoint a).

Definition set_start_point (a : Agent) (p : point3d) : Agent :=
  mkAgent (id a) (current_state a) p (desired_goal_point a) (current_goal_point a)
    (next_waypoint a).

Definition set_desired_goal_point (a : Agent) (p : point3d) : Agent :=
  mkAgent (id a) (current_state a) (start_point a) p (current_goal_point a)
    (next_waypoint a).

Definition set_current_goal_point (a : Agent) (p : point3d) : Agent :=
  mkAgent (id a) (current_state a) (start_point a) (desired_goal_point a) p
    (next_waypoint a).

Definition set_next_waypoint (a : Agent) (p : point3d) : Agent :=
  mkAgent (id a) (current_state a) (start_point a) (desired_goal_point a)
    (current_goal_point a) p.

(** [position.z() = v]. *)
Definition set_position_z (s : State) (v : R) : State :=
  mkState (mkPoint3d (x (position s)) (y (position s)) v) (velocity s) (acceleration s).

(** The constructor.  [tp], [mm], [cp] and [traj] are the freshly built
    trajectory planner, map manager, command publisher and empty trajectory. *)
Definition AgentManager_new (_param : Param) (_mission : Mission) (agent_id : Z)
    (tp : TrajPlanner) (mm : MapManager) (cp : CmdPublisher) (traj : traj_t)
    : option AgentManager :=
  a <- agents_at _mission agent_id ;;
  let a := set_current_state a
             (mkState (start_point a) (velocity (current_state a))
                      (acceleration (current_state a))) in
  let a := set_current_goal_point a (position (current_state a)) in
  let a := set_next_waypoint a (position (current_state a)) in
  Some (mkAgentManager _param _mission a WAIT false false false false false
          traj tp mm (if multisim_experiment _param then Some cp else None)).

Definition getFutureStateMsg (m : AgentManager) (future_time : R) : State :=
  getStateAt (desired_traj m) future_time.

Definition doStep (m : AgentManager) (time_step : R) : option AgentManager :=
  r <- (if multisim_experiment (param m) then
          cp <- cmd_publisher m ;;
          (* Check whether the agent is disturbed *)
          let m := set_is_disturbed m (isDisturbed cp) in
          if is_disturbed m then
            let s := mkState (getObservedAgentPosition cp)
                             (mkPoint3d 0 0 0) (mkPoint3d 0 0 0) in
            Some (set_agent m (set_current_state (agent m) s), false)
          else Some (m, true)
        else Some (m, true)) ;;
  let '(m, do_step_ideal) := r in
  let m :=
    if (do_step_ideal : bool) then
      (* Update agent's current state with ideal future state *)
      let ideal_future_state := getFutureStateMsg m time_step in
      set_agent m (set_current_state (agent m)
                     (mkState (position ideal_future_state)
                              (velocity ideal_future_state)
                              (acceleration ideal_future_state)))
    else m in
  let m :=
    if (world_dimension (param m) =? 2)%Z then
      set_agent m (set_current_state (agent m)
                     (set_position_z (current_state (agent m)) (world_z_2d (param m))))
    else m in
  (* update local map *)
  let m :=
    if negb (world_use_global_map (param m)) then
      set_map_manager m
        (updateVirtualLocalMap (map_manager m) (position (current_state (agent m))))
    else m in
  Some (set_has_current_state m true).

Definition planningStateTransition (m : AgentManager) : option AgentManager :=
  if PlannerState_eqb (planner_state m) GOTO then
    a <- agents_at (mission m) (id (agent m)) ;;
    Some (set_agent m (set_desired_goal_point (agent m) (desired_goal_point a)))
  else if PlannerState_eqb (planner_state m) PATROL
          && Rltb (distance (desired_goal_point (agent m))
                            (position (current_state (agent m))))
                  (goal_threshold (param m)) then
    (* Swap start and goal position *)
    let temp := desired_goal_point (agent m) in
    let m := set_agent m (set_desired_goal_point (agent m) (start_point (agent m))) in
    let m := set_agent m (set_start_point (agent m) temp) in
    Some m
  else if PlannerState_eqb (planner_state m) GOBACK then
    (* Go back to start position *)
    a <- agents_at (mission m) (id (agent m)) ;;
    Some (set_agent m (set_desired_goal_point (agent m) (start_point a)))
  else
    (* if planner_state == PlannerState::WAIT, use previous desired goal position *)
    Some m.

Definition plan (m : AgentManager) (sim_current_time : Time)
    : option (PlanningReport * AgentManager) :=
  (* Input check *)
  if negb (has_obstacles m) || negb (has_current_state m) then
    Some (WAITFORROSMSG, m)
  else
    m <- (if multisim_experiment (param m) && PlannerState_eqb (planner_state m) LAND
          then
            cp <- cmd_publisher m ;;
            Some (set_cmd_publisher m (landingCallback cp))
          else
            (* change desired goal position by the agent's state *)
            m <- planningStateTransition m ;;
            (* the warning logged when [is_disturbed] holds changes nothing *)
            (* Start planning *)
            let '(traj, tp) :=
              TrajPlanner_plan (traj_planner m) (agent m) (map_manager m)
                               sim_current_time (is_disturbed m) in
            let m := set_traj_planner (set_desired_traj m traj) tp in
            let m := set_agent m (set_current_goal_point (agent m)
                                    (getCurrentGoalPosition (traj_planner m))) in
            let m := set_collision_alert m (getCollisionAlert (traj_planner m)) in
            (* Update trajectory in Command publisher *)
            if multisim_experiment (param m) then
              cp <- cmd_publisher m ;;
              Some (set_cmd_publisher m (updateTraj cp (desired_traj m) sim_current_time))
            else Some m) ;;
    (* Re-initialization for replanning *)
    let m := set_has_obstacles m false in
    let m := set_has_current_state m false in
    Some (SUCCESS, m).

Definition obstacleCallback (m : AgentManager) (_msg_obstacles : list (Obstacle Pose Twist))
    : option AgentManager :=
  msg_obstacles <-
    (if multisim_experiment (param m) then
       cp <- cmd_publisher m ;;
       Some (map (fun obstacle =>
                    if ObstacleType_eqb (obs_type obstacle) DYNAMICOBSTACLE
                       && isObsPoseUpdated cp (obs_id obstacle)
                    then
                      let obs_odom := getObsOdometry cp (obs_id obstacle) in
                      mkObstacle (obs_id obstacle) (obs_type obstacle)
                                 (fst obs_odom) (snd obs_odom)
                    else obstacle)
                 _msg_obstacles)
     else Some _msg_obstacles) ;;
  let m := set_traj_planner m (setObstacles (traj_planner m) msg_obstacles) in
  Some (set_has_obstacles m true).

Definition isInitialStateValid (m : AgentManager) : option bool :=
  if multisim_experiment (param m) then
    cp <- cmd_publisher m ;;
    if isAgentPoseUpdated cp then
      let observed_position := getObservedAgentPosition cp in
      let dist := distance observed_position (position (current_state (agent m))) in
      Some (Rltb dist (reset_threshold (param m)))
    else Some true
  else Some true (* Use ideal state instead -> valid *).

Definition setCurrentState (m : AgentManager) (msg_current_state : State)
    : AgentManager :=
  (* update agent.current_state *)
  let p := position msg_current_state in
  let p := if (world_dimension (param m) =? 2)%Z
           then mkPoint3d (x p) (y p) (world_z_2d (param m)) else p in
  let m := set_agent m (set_current_state (agent m)
                          (mkState p (velocity msg_current_state)
                                   (acceleration msg_current_state))) in
  (* update flag *)
  set_has_current_state m true.

Definition setPlannerState (m : AgentManager) (new_planner_state : PlannerState)
    : option AgentManager :=
  if multisim_experiment (param m) && PlannerState_eqb (planner_state m) LAND then
    cp <- cmd_publisher m ;;
    if negb (landingFinished cp) then Some m
    else Some (set_planner_state m new_planner_state)
  else Some (set_planner_state m new_planner_state).

Definition setStartPosition (m : AgentManager) (_start_position : point3d)
    : option AgentManager :=
  mission' <- agents_update (mission m) (id (agent m))
                (fun a => set_start_point a _start_position) ;;
  let m := set_mission m mission' in
  Some (set_agent m (set_start_point (agent m) _start_position)).

Definition setDesiredGoal (m : AgentManager) (new_desired_goal_position : point3d)
    : option AgentManager :=
  mission' <- agents_update (mission m) (id (agent m))
                (fun a => set_desired_goal_point a new_desired_goal_position) ;;
  let m := set_mission m mission' in
  Some (set_agent m (set_desired_goal_point (agent m) new_desired_goal_position)).

Definition setNextWaypoint (m : AgentManager) (next_waypoint : point3d) : AgentManager :=
  set_agent m (set_next_waypoint (agent m) next_waypoint).

(** The invariant the constructor sets up for the pointers and indices the
    member functions dereference: the command publisher exists when the
    coupling with it is enabled, and the agent has an entry in the mission. *)
Definition well_formed (m : AgentManager) : Prop :=
  (multisim_experiment (param m) = true -> cmd_publisher m <> None)
  /\ agents_at (mission m) (id (agent m)) <> None.

(** What a member function leaves alone of the data [well_formed] reads. *)
Definition same_frame (m m' : AgentManager) : Prop :=
  param m' = param m
  /\ mission m' = mission m
  /\ id (agent m') = id (agent m)
  /\ (cmd_publisher m' = None <-> cmd_publisher m = None).

(** Whether the command executor has signalled the end of the landing: the
    answer of [cmd_publisher->landingFinished()] when there is a command
    publisher, and [false] when there is none to signal it. *)
Definition landing_finished (m : AgentManager) : bool :=
  match cmd_publisher m with
  | Some cp => landingFinished cp
  | None => false
  end.

(** The getters.  A [dynamic_msgs::State] is, as in [setCurrentState], the
    position, velocity and acceleration it carries. *)
Definition getCurrentPosition (m : AgentManager) : point3d :=
  position (current_state (agent m)).

Definition getCurrentStateMsg (m : AgentManager) : State :=
  mkState (position (current_state (agent m)))
          (velocity (current_state (agent m)))
          (acceleration (current_state (agent m))).

Definition getTraj (m : AgentManager) : traj_t := desired_traj m.

Definition getCurrentGoalPoint (m : AgentManager) : point3d :=
  getCurrentGoalPosition (traj_planner m).

Definition getDesiredGoalPoint (m : AgentManager) : point3d :=
  desired_goal_point (agent m).

Definition getNextWaypoint (m : AgentManager) : point3d := next_waypoint (agent m).

Definition getStartPoint (m : AgentManager) : point3d := start_point (agent m).

(** [AgentManager::getObservedAgentPosition] dereferences [cmd_publisher]
    without testing it. *)
Definition AgentManager_getObservedAgentPosition (m : AgentManager) : option point3d :=
  cp <- cmd_publisher m ;;
  Some (getObservedAgentPosition cp).

(** The state-changing calls of a client, and a sequence of them run on a
    manager: [None] as soon as one call is undefined. *)
Inductive Call : Type :=
  | CallDoStep (time_step : R)
  | CallPlan (sim_current_time : Time)
  | CallObstacleCallback (_msg_obstacles : list (Obstacle Pose Twist))
  | CallSetCurrentState (msg_current_state : State)
  | CallSetPlannerState (new_planner_state : PlannerState)
  | CallSetStartPosition (_start_position : point3d)
  | CallSetDesiredGoal (new_desired_goal_position : point3d)
  | CallSetNextWaypoint (next_waypoint : point3d).

Definition call (m : AgentManager) (c : Call) : option AgentManager :=
  match c with
  | CallDoStep time_step => doStep m time_step
  | CallPlan sim_current_time =>
      r <- plan m sim_current_time ;; Some (snd r)
  | CallObstacleCallback _msg_obstacles => obstacleCallback m _msg_obstacles
  | CallSetCurrentState msg_current_state => Some (setCurrentState m msg_current_state)
  | CallSetPlannerState new_planner_state => setPlannerState m new_planner_state
  | CallSetStartPosition _start_position => setStartPosition m _start_position
  | CallSetDesiredGoal new_desired_goal_position =>
      setDesiredGoal m new_desired_goal_position
  | CallSetNextWaypoint next_waypoint => Some (setNextWaypoint m next_waypoint)
  end.

Fixpoint calls (m : AgentManager) (l : list Call) : option AgentManager :=
  match l with
  | [] => Some m
  | c :: l' => m' <- call m c ;; calls m' l'
  end.

End Manager.

(** *** A test double for the collaborators

    The spec asks for a core "testable against a pure in-process mock"; this
    one is used to run the manager on concrete inputs.  The command publisher
    is the triple of its answers, a trajectory is the state it holds at every
    time, and the planner keeps the agent where it is. *)
Record MockCmdPublisher : Type := mkMockCmdPublisher {
  mock_disturbed : bool;
  mock_observed_position : point3d;
  mock_landing_finished : bool
}.

Definition mock_collaborators : Collaborators := {|
  TrajPlanner := unit;
  MapManager := unit;
  CmdPublisher := MockCmdPublisher;
  traj_t := State;
  Time := unit;
  Pose := unit;
  Twist := unit;
  isDisturbed := mock_disturbed;
  getObservedAgentPosition := mock_observed_position;
  isAgentPoseUpdated := fun _ => true;
  landingFinished := mock_landing_finished;
  landingCallback := fun cp => cp;
  updateTraj := fun cp _ _ => cp;
  isObsPoseUpdated := fun _ _ => false;
  getObsOdometry := fun _ _ => (tt, tt);
  updateVirtualLocalMap := fun mm _ => mm;
  TrajPlanner_plan := fun tp a _ _ _ => (current_state a, tp);
  setObstacles := fun tp _ => tp;
  getCurrentGoalPosition := fun _ => mkPoint3d 0 0 0;
  getCollisionAlert := fun _ => false;
  getStateAt := fun traj _ => traj
|}.

(** A manager over the test double: agent 0 of a one-agent mission, at
    [pos], with start [start] and desired goal [goal]. *)
Definition mock_manager (multisim : bool) (dim : Z) (z_2d : R) (st : PlannerState)
    (pos start goal : point3d) (cp : option MockCmdPublisher)
    : @AgentManager mock_collaborators :=
  let s := mkState pos (mkPoint3d 0 0 0) (mkPoint3d 0 0 0) in
  let a := mkAgent 0 s start goal pos pos in
  @mkAgentManager mock_collaborators
    (mkParam multisim dim z_2d true (1 / 4) (1 / 4))
    (mkMission [a]) a st true true false false false s tt tt cp.

Definition origin : point3d := mkPoint3d 0 0 0.

(** An airborne agent without command executor, both inputs received. *)
Definition m_plain (st : PlannerState) (pos start goal : point3d) :=
  mock_manager false 3 1 st pos start goal None.

(** An agent coupled to a command executor that reports [disturbed] and the
    observed position [(0, 0, 5)], in a world of dimension [dim] whose plane
    height is 1. *)
Definition m_coupled (dim : Z) (st : PlannerState) (disturbed finished : bool) :=
  mock_manager true dim 1 st origin origin origin
    (Some (mkMockCmdPublisher disturbed (mkPoint3d 0 0 5) finished)).

(** A dynamic obstacle and a static one, as received from the network. *)
Definition obstacles_received
    : list (Obstacle (@Pose mock_collaborators) (@Twist mock_collaborators)) :=
  [mkObstacle 7%Z DYNAMICOBSTACLE tt tt; mkObstacle 8%Z STATICOBSTACLE tt tt].

(** One round of the planning loop followed by a change of the mission. *)
Definition round_of_calls : list (@Call mock_collaborators) :=
  [CallObstacleCallback obstacles_received;
   CallSetCurrentState (mkState (mkPoint3d 1 0 0) origin origin);
   CallPlan (tt : @Time mock_collaborators);
   CallDoStep (1 / 2);
   CallSetPlannerState GOBACK;
   CallSetStartPosition (mkPoint3d 0 0 2);
   CallSetDesiredGoal (mkPoint3d 3 0 2);
   CallSetNextWaypoint (mkPoint3d 1 0 2);
   CallPlan (tt : @Time mock_collaborators)].

End Agent_manager.

(** * Properties of the geometry kernel *)

(** ** Vector algebra *)

Lemma point3d_ext (a b : point3d) :
  x a = x b -> y a = y b -> z a = z b -> a = b.
Proof. destruct a, b; simpl; intros; subst; reflexivity. Qed.

Lemma norm_sq_nonneg (a : point3d) : 0 <= norm_sq a.
Proof. unfold norm_sq. nra. Qed.

Lemma norm_nonneg (a : point3d) : 0 <= norm a.
Proof. apply sqrt_pos. Qed.

Lemma norm_mult_self (a : point3d) : norm a * norm a = norm_sq a.
Proof. apply sqrt_sqrt, norm_sq_nonneg. Qed.

Lemma norm_sq_dot (a : point3d) : norm_sq a = dot a a.
Proof. reflexivity. Qed.

Lemma distance_norm (a b : point3d) : distance a b = norm (a [-] b).
Proof. reflexivity. Qed.

Lemma norm_eval (a : point3d) (v : R) : 0 <= v -> v * v = norm_sq a -> norm a = v.
Proof. intros Hv He. apply sqrt_lem_1; auto using norm_sq_nonneg. Qed.

Lemma norm_zero_iff (a : point3d) : norm a = 0 <-> a = mkPoint3d 0 0 0.
Proof.
  split.
  - intros H. apply sqrt_eq_0 in H; [|apply norm_sq_nonneg].
    unfold norm_sq in H. apply point3d_ext; simpl; nra.
  - intros ->. unfold norm, norm_sq. simpl.
    replace (0 * 0 + 0 * 0 + 0 * 0) with 0 by ring. apply sqrt_0.
Qed.

(** Rewrites the first square root whose argument is the square of [v]. *)
Ltac sqrt_is v :=
  match goal with
  | |- context [sqrt ?u] => rewrite (sqrt_lem_1 u v) by lra
  end.

Ltac unfold_p3 :=
  unfold distance, norm, norm_sq, dot, cross, padd, psub, pscale, pneg; simpl.

(** ** Point and ray *)

Lemma closestPointsBetweenPointAndRay_behind (point ray_start ray_direction : point3d) :
  dot (point [-] ray_start) ray_direction < 0 ->
  closestPointsBetweenPointAndRay point ray_start ray_direction
  = mkClosestPoints (norm (point [-] ray_start)) point point3d_default.
Proof.
  intros H. unfold closestPointsBetweenPointAndRay.
  destruct (Rlt_dec _ _); [reflexivity | contradiction].
Qed.

(** The run used for C2 and C9: point [(-1,0,0)], ray from [(1,0,0)] along
    [(1,0,0)]. *)
Lemma closestPointsBetweenPointAndRay_run :
  closestPointsBetweenPointAndRay (mkPoint3d (-1) 0 0) (mkPoint3d 1 0 0) (mkPoint3d 1 0 0)
  = mkClosestPoints 2 (mkPoint3d (-1) 0 0) (mkPoint3d 0 0 0).
Proof.
  rewrite closestPointsBetweenPointAndRay_behind by (unfold_p3; lra).
  f_equal. apply norm_eval; unfold norm_sq; simpl; lra.
Qed.

(** C2 on the input point [(-1,0,0)], ray from [(1,0,0)] along [(1,0,0)]:
    the point projects behind the start of the ray, the distance returned
    is the distance to the start, 2, and the second point returned is the
    zero vector, not the start of the ray. *)
Theorem closestPointsBetweenPointAndRay_behind_start :
  let point := mkPoint3d (-1) 0 0 in
  let ray_start := mkPoint3d 1 0 0 in
  let ray_direction := mkPoint3d 1 0 0 in
  norm ray_direction = 1
  /\ dot (point [-] ray_start) ray_direction < 0
  /\ norm (point [-] ray_start) = 2
  /\ closestPointsBetweenPointAndRay point ray_start ray_direction
     = mkClosestPoints 2 point (mkPoint3d 0 0 0)
  /\ closest_point2 (closestPointsBetweenPointAndRay point ray_start ray_direction)
     <> ray_start.
Proof.
  intros point ray_start ray_direction.
  split; [apply norm_eval; unfold norm_sq; simpl; lra|].
  split; [unfold_p3; lra|].
  split; [apply norm_eval; unfold norm_sq; simpl; lra|].
  unfold point, ray_start, ray_direction.
  rewrite closestPointsBetweenPointAndRay_run. split; [reflexivity|].
  simpl. intros H. injection H as H. lra.
Qed.

(** C9 on the same input: the [dist] field is 2 and the two points returned
    are at distance 1 from each other. *)
Theorem closestPointsBetweenPointAndRay_dist_inconsistent :
  let c := closestPointsBetweenPointAndRay
             (mkPoint3d (-1) 0 0) (mkPoint3d 1 0 0) (mkPoint3d 1 0 0) in
  dist c = 2
  /\ distance (closest_point1 c) (closest_point2 c) = 1
  /\ dist c <> distance (closest_point1 c) (closest_point2 c).
Proof.
  intros c. unfold c. rewrite closestPointsBetweenPointAndRay_run. simpl.
  assert (Hd : distance (mkPoint3d (-1) 0 0) (mkPoint3d 0 0 0) = 1).
  { unfold distance; simpl. sqrt_is 1. reflexivity. }
  rewrite Hd. repeat split; lra.
Qed.

(** ** Line segments: the branches *)

Lemma cross_pscale (a b : point3d) (k1 k2 : R) :
  cross (a [*] k1) (b [*] k2) = cross a b [*] (k1 * k2).
Proof. apply point3d_ext; unfold cross, pscale; simpl; ring. Qed.



(** ** Point and line segment *)

Lemma Rsq_nonneg (u : R) : 0 <= u * u.
Proof. nra. Qed.

Lemma between_roots (q D : R) : 0 < D -> q * (q + D) < 0 -> - D < q < 0.
Proof. intros HD H. split; nra. Qed.

Lemma beyond_end (q D : R) :
  0 < D -> ~ q * (q + D) < 0 -> 2 * q + D < 0 -> q + D <= 0.
Proof. intros HD H1 H2. nra. Qed.

Lemma before_start (q D : R) :
  0 < D -> ~ q * (q + D) < 0 -> 0 <= 2 * q + D -> 0 <= q.
Proof. intros HD H1 H2. nra. Qed.

Lemma norm_sq_path (a d : point3d) (s : R) :
  norm_sq (a [+] d [*] s) = norm_sq a + 2 * s * dot a d + s * s * norm_sq d.
Proof. unfold_p3. ring. Qed.

Lemma norm_le_sq (u v : point3d) : norm u <= norm v <-> norm_sq u <= norm_sq v.
Proof.
  split; intros H.
  - apply sqrt_le_0; auto using norm_sq_nonneg.
  - apply sqrt_le_1; auto using norm_sq_nonneg.
Qed.

Lemma norm_lt_sq (u v : point3d) : norm u < norm v <-> norm_sq u < norm_sq v.
Proof.
  split; intros H.
  - apply sqrt_lt_0_alt; auto.
  - apply sqrt_lt_1; auto using norm_sq_nonneg.
Qed.

Lemma norm_pos (d : point3d) : d <> mkPoint3d 0 0 0 -> 0 < norm d.
Proof.
  intros H. destruct (norm_nonneg d) as [Hlt | Heq]; [exact Hlt|].
  symmetry in Heq. apply norm_zero_iff in Heq. contradiction.
Qed.

Lemma norm_sq_pos (d : point3d) : d <> mkPoint3d 0 0 0 -> 0 < norm_sq d.
Proof.
  intros H. pose proof (norm_pos d H). pose proof (norm_mult_self d). nra.
Qed.

Lemma psub_neq_zero (a b : point3d) : a <> b -> b [-] a <> mkPoint3d 0 0 0.
Proof.
  intros H He. apply H. injection He as Hx Hy Hz.
  apply point3d_ext; lra.
Qed.

Lemma normalized_scale (d : point3d) :
  0 < norm d -> normalized d = d [*] (/ norm d).
Proof.
  intros H. unfold normalized. destruct (Rgt_dec (norm d) 0) as [_ | Hn].
  - reflexivity.
  - exfalso. apply Hn. exact H.
Qed.

(** The foot of the perpendicular from the origin to the line through [a]
    and [b], as the source computes it, and its parameter on the line. *)
Lemma perpendicular_foot (a b : point3d) :
  a <> b ->
  let d := b [-] a in
  let q := dot a d in
  let D := norm_sq d in
  let c := a [-] normalized d [*] dot a (normalized d) in
  0 < D
  /\ c = a [+] d [*] (- q / D)
  /\ norm_sq b = norm_sq a + 2 * q + D
  /\ norm_sq c = norm_sq a - q * q / D
  /\ dot (c [-] a) (c [-] b) = q * (q + D) / D.
Proof.
  intros Hab d q D c.
  assert (Hd : d <> mkPoint3d 0 0 0) by (apply psub_neq_zero; exact Hab).
  assert (HL : 0 < norm d) by (apply norm_pos; exact Hd).
  assert (HD : 0 < D) by (apply norm_sq_pos; exact Hd).
  assert (HLL : norm d * norm d = D) by apply norm_mult_self.
  assert (Hc : c = a [+] d [*] (- q / D)).
  { unfold c. rewrite (normalized_scale d HL).
    set (L := norm d) in *.
    apply point3d_ext; unfold padd, psub, pscale, q, dot; simpl;
      rewrite <- HLL; field; lra. }
  split; [exact HD|]. split; [exact Hc|].
  assert (Hb : norm_sq b = norm_sq a + 2 * q + D).
  { unfold D, q, d. unfold_p3. ring. }
  split; [exact Hb|].
  assert (Hq : q = dot a d) by reflexivity.
  assert (HDd : D = norm_sq d) by reflexivity.
  split.
  - rewrite Hc, norm_sq_path. fold q D. field. lra.
  - rewrite Hc.
    replace (dot (a [+] d [*] (- q / D) [-] a) (a [+] d [*] (- q / D) [-] b))
      with ((- q / D) * (- q / D - 1) * D)
      by (unfold D, d; unfold_p3; ring).
    field. lra.
Qed.

Lemma segment_minimiser_range (a b : point3d) (t : R) :
  segment_minimiser a b t -> 0 <= t <= 1.
Proof.
  intros [[-> _] | [[-> _] | (Hab & Hq & ->)]]; [lra | lra |].
  assert (HD : 0 < norm_sq (b [-] a)) by (apply norm_sq_pos, psub_neq_zero, Hab).
  set (D := norm_sq (b [-] a)) in *. set (q := dot a (b [-] a)) in *.
  split.
  - apply Rmult_le_reg_r with D; [exact HD|]. unfold Rdiv.
    rewrite Rmult_assoc, Rinv_l by lra. lra.
  - apply Rmult_le_reg_r with D; [exact HD|]. unfold Rdiv.
    rewrite Rmult_assoc, Rinv_l by lra. lra.
Qed.

Lemma segment_minimiser_least (a b : point3d) (t s : R) :
  segment_minimiser a b t -> 0 <= s <= 1 ->
  norm_sq (a [+] (b [-] a) [*] t) <= norm_sq (a [+] (b [-] a) [*] s).
Proof.
  intros Ht Hs. rewrite !norm_sq_path.
  assert (HD0 : 0 <= norm_sq (b [-] a)) by apply norm_sq_nonneg.
  destruct Ht as [[-> Hq] | [[-> (Hab & Hq)] | (Hab & Hq & ->)]].
  - destruct Hq as [-> | Hq].
    + replace (dot b (b [-] b)) with 0 by (unfold_p3; ring).
      replace (norm_sq (b [-] b)) with 0 by (unfold_p3; ring). lra.
    + nra.
  - set (D := norm_sq (b [-] a)) in *. set (q := dot a (b [-] a)) in *.
    assert (H : 0 <= (1 - s) * (- (q + D) * 2 + (1 - s) * D))
      by (apply Rmult_le_pos; nra).
    nra.
  - assert (HD : 0 < norm_sq (b [-] a)) by (apply norm_sq_pos, psub_neq_zero, Hab).
    set (D := norm_sq (b [-] a)) in *. set (q := dot a (b [-] a)) in *.
    clearbody D q.
    replace (norm_sq a + 2 * (- q / D) * q + - q / D * (- q / D) * D)
      with (norm_sq a - q * q / D) by (field; lra).
    assert (H : 0 <= (s * D + q) * (s * D + q) / D).
    { apply Rmult_le_pos; [apply Rsq_nonneg | left; apply Rinv_0_lt_compat; exact HD]. }
    replace ((s * D + q) * (s * D + q) / D)
      with (2 * s * q + s * s * D + q * q / D) in H by (field; lra).
    lra.
Qed.

Lemma closestPointsBetweenPointAndLineSegment_cases (point : point3d) (line : Line) :
  let a := start_point line [-] point in
  let b := end_point line [-] point in
  exists t,
    segment_minimiser a b t
    /\ closestPointsBetweenPointAndLineSegment point line
       = mkClosestPoints (norm (a [+] (b [-] a) [*] t)) point
                         (a [+] (b [-] a) [*] t [+] point).
Proof.
  intros a b. unfold closestPointsBetweenPointAndLineSegment. fold a b.
  assert (H0 : a [+] (b [-] a) [*] 0 = a)
    by (apply point3d_ext; unfold padd, psub, pscale; simpl; ring).
  assert (H1 : a [+] (b [-] a) [*] 1 = b)
    by (apply point3d_ext; unfold padd, psub, pscale; simpl; ring).
  destruct (point3d_eq_dec a b) as [Heq | Hneq].
  - exists 0. split; [left; auto|]. rewrite H0. reflexivity.
  - destruct (perpendicular_foot a b Hneq) as (HD & Hc & Hb & Hcn & Hdot).
    set (c := a [-] normalized (b [-] a) [*] dot a (normalized (b [-] a))) in *.
    set (d := b [-] a) in *. set (q := dot a d) in *. set (D := norm_sq d) in *.
    assert (Hsign : dot (c [-] a) (c [-] b) < 0 <-> q * (q + D) < 0).
    { rewrite Hdot. assert (He : q * (q + D) / D * D = q * (q + D)) by (field; lra).
      split; intros H; nra. }
    assert (Hqq : q * q / D * D = q * q) by (field; lra).
    unfold Rltb, Rgtb.
    destruct (Rgt_dec (norm a) (norm b)) as [Hgt | Hle].
    + apply norm_lt_sq in Hgt.
      destruct (Rlt_dec (dot (c [-] a) (c [-] b)) 0) as [Hneg | Hpos]; simpl.
      * apply Hsign in Hneg.
        destruct (Rgt_dec (norm b) (norm c)) as [Hbc | Hbc].
        -- exists (- q / D). split.
           ++ right; right. split; [exact Hneq|].
              split; [apply between_roots; assumption | reflexivity].
           ++ rewrite <- Hc. reflexivity.
        -- exfalso. apply Hbc. apply norm_lt_sq. rewrite Hb, Hcn.
           pose proof (between_roots q D HD Hneg) as [Hq1 Hq2].
           assert (0 < (q + D) * (q + D) / D).
           { apply Rmult_lt_0_compat; [nra | apply Rinv_0_lt_compat; exact HD]. }
           replace ((q + D) * (q + D) / D) with (q * q / D + 2 * q + D) in H
             by (field; lra).
           lra.
      * exists 1. split.
        -- right; left. split; [reflexivity | split; [exact Hneq|]].
           assert (~ q * (q + D) < 0) by (intros H; apply Hpos, Hsign, H).
           apply beyond_end; [exact HD | assumption | change (2 * q + D < 0); lra].
        -- rewrite H1. reflexivity.
    + assert (Hle' : norm_sq a <= norm_sq b) by (apply norm_le_sq; lra).
      destruct (Rlt_dec (dot (c [-] a) (c [-] b)) 0) as [Hneg | Hpos]; simpl.
      * apply Hsign in Hneg.
        destruct (Rgt_dec (norm a) (norm c)) as [Hac | Hac].
        -- exists (- q / D). split.
           ++ right; right. split; [exact Hneq|].
              split; [apply between_roots; assumption | reflexivity].
           ++ rewrite <- Hc. reflexivity.
        -- exfalso. apply Hac. apply norm_lt_sq. rewrite Hcn.
           pose proof (between_roots q D HD Hneg) as [Hq1 Hq2].
           assert (0 < q * q / D).
           { apply Rmult_lt_0_compat; [nra | apply Rinv_0_lt_compat; exact HD]. }
           lra.
      * exists 0. split.
        -- left. split; [reflexivity | right].
           assert (~ q * (q + D) < 0) by (intros H; apply Hpos, Hsign, H).
           apply before_start with D;
             [exact HD | assumption | change (0 <= 2 * q + D); lra].
        -- rewrite H0. reflexivity.
Qed.

(** ** Two moving points *)

Lemma relative_position_path (line1 line2 : Line) (t : R) :
  relative_position line1 line2 t
  = (start_point line2 [-] start_point line1)
    [+] ((end_point line2 [-] end_point line1)
         [-] (start_point line2 [-] start_point line1)) [*] t.
Proof.
  apply point3d_ext; unfold relative_position, path_point, padd, psub, pscale;
    simpl; ring.
Qed.

Lemma norm_pscale_nonneg (d : point3d) (t : R) :
  0 <= t -> norm (d [*] t) = t * norm d.
Proof.
  intros Ht. apply norm_eval.
  - apply Rmult_le_pos; [exact Ht | apply norm_nonneg].
  - replace (t * norm d * (t * norm d)) with (t * t * (norm d * norm d)) by ring.
    rewrite norm_mult_self. unfold norm_sq, pscale; simpl. ring.
Qed.

Lemma psub_zero (a : point3d) : a [-] mkPoint3d 0 0 0 = a.
Proof. apply point3d_ext; unfold psub; simpl; ring. Qed.

Lemma distance_sym (a b : point3d) : distance a b = distance b a.
Proof. unfold distance. f_equal. ring. Qed.

Lemma closestPointsBetweenLinePaths_cases (line1 line2 : Line) :
  let a := start_point line2 [-] start_point line1 in
  let b := end_point line2 [-] end_point line1 in
  exists t,
    segment_minimiser a b t
    /\ closestPointsBetweenLinePaths line1 line2
       = mkClosestPoints (norm (relative_position line1 line2 t))
                         (path_point line1 t) (path_point line2 t).
Proof.
  intros a b. unfold closestPointsBetweenLinePaths.
  destruct (closestPointsBetweenPointAndLineSegment_cases
              (mkPoint3d 0 0 0) (line_sub line2 line1)) as (t & Hmin & Heq).
  rewrite Heq. clear Heq. simpl in *. fold a b in Hmin |- *.
  rewrite !psub_zero in *.
  pose proof (segment_minimiser_range a b t Hmin) as Ht.
  set (d := b [-] a) in *.
  assert (Hlen : length (line_sub line2 line1) = norm d).
  { unfold length. simpl. rewrite distance_sym. reflexivity. }
  assert (Hrel : relative_position line1 line2 t = a [+] d [*] t)
    by apply relative_position_path.
  assert (Hnum : norm (a [+] d [*] t [+] mkPoint3d 0 0 0 [-] a) = t * norm d).
  { rewrite <- norm_pscale_nonneg by lra. f_equal.
    apply point3d_ext; unfold padd, psub, pscale; simpl; ring. }
  rewrite Hlen, Hnum, <- Hrel.
  destruct (Rgt_dec (norm d) 0) as [Hpos | Hzero].
  - exists t. split; [exact Hmin|].
    replace (t * norm d / norm d) with t by (field; lra). reflexivity.
  - exists 0. assert (Hd : a = b).
    { assert (Hn : norm d = 0) by (pose proof (norm_nonneg d); lra).
      apply norm_zero_iff in Hn. unfold d, psub in Hn. injection Hn as Hx Hy Hz.
      apply point3d_ext; unfold a, b; simpl; lra. }
    split; [left; auto|].
    f_equal. rewrite !relative_position_path. fold a b. rewrite Hd. f_equal.
    apply point3d_ext; unfold padd, psub, pscale; simpl; ring.
Qed.

(** The distance returned for two paths is the least distance between the
    two moving points over the horizon, and the two points returned are
    the positions where it is attained. *)
Lemma closestPointsBetweenLinePaths_least (line1 line2 : Line) :
  exists t,
    0 <= t <= 1
    /\ closest_point1 (closestPointsBetweenLinePaths line1 line2) = path_point line1 t
    /\ closest_point2 (closestPointsBetweenLinePaths line1 line2) = path_point line2 t
    /\ dist (closestPointsBetweenLinePaths line1 line2)
       = norm (relative_position line1 line2 t)
    /\ forall s, 0 <= s <= 1 ->
         dist (closestPointsBetweenLinePaths line1 line2)
         <= norm (relative_position line1 line2 s).
Proof.
  destruct (closestPointsBetweenLinePaths_cases line1 line2) as (t & Hmin & ->).
  exists t. simpl. split; [eapply segment_minimiser_range; exact Hmin|].
  repeat (split; [reflexivity|]).
  intros s Hs. apply norm_le_sq. rewrite !relative_position_path.
  apply segment_minimiser_least; assumption.
Qed.

(** ** Collision time *)

(** The smaller root of [A + 2 q s + D s^2 = r^2], when the parabola starts
    above [r^2], comes down ([q < 0]) and reaches it. *)
Lemma entry_root (A q D r : R) :
  0 < D -> 0 <= r -> A - q * q / D <= r * r -> r * r < A -> q < 0 ->
  let alpha := - q / D - sqrt (r * r - (A - q * q / D)) / sqrt D in
  0 < alpha
  /\ A + 2 * alpha * q + alpha * alpha * D = r * r
  /\ forall beta, beta < alpha -> r * r < A + 2 * beta * q + beta * beta * D.
Proof.
  intros HD Hr HK HA Hq alpha.
  set (L := sqrt D) in *.
  set (s1 := sqrt (r * r - (A - q * q / D))) in *.
  assert (HL : 0 < L) by (apply sqrt_lt_R0; exact HD).
  assert (HLL : L * L = D) by (apply sqrt_sqrt; lra).
  assert (Hs1 : 0 <= s1) by apply sqrt_pos.
  assert (Hs11 : s1 * s1 = r * r - (A - q * q / D)) by (apply sqrt_sqrt; lra).
  set (u := s1 * L).
  assert (Hu : 0 <= u) by (apply Rmult_le_pos; lra).
  assert (Huu : u * u = r * r * D - A * D + q * q).
  { unfold u. replace (s1 * L * (s1 * L)) with (s1 * s1 * (L * L)) by ring.
    rewrite Hs11, HLL. field. lra. }
  assert (Halpha : alpha = (- q - u) / D).
  { unfold alpha, u. rewrite <- HLL. field. lra. }
  assert (Hqu : u < - q) by nra.
  split; [|split].
  - rewrite Halpha. apply Rmult_lt_0_compat; [lra | apply Rinv_0_lt_compat; exact HD].
  - rewrite Halpha.
    replace (A + 2 * ((- q - u) / D) * q + (- q - u) / D * ((- q - u) / D) * D)
      with (A + (u * u - q * q) / D) by (field; lra).
    rewrite Huu. field. lra.
  - intros beta Hbeta. rewrite Halpha in Hbeta.
    assert (Hb : beta * D + q < - u).
    { assert (H : beta * D < (- q - u) / D * D)
        by (apply Rmult_lt_compat_r; assumption).
      replace ((- q - u) / D * D) with (- q - u) in H by (field; lra). lra. }
    assert (Hsq : u * u < (beta * D + q) * (beta * D + q)) by nra.
    assert (Hdiv : (r * r * D - A * D + q * q) / D
                   < (beta * D + q) * (beta * D + q) / D).
    { apply Rmult_lt_compat_r; [apply Rinv_0_lt_compat; exact HD | lra]. }
    replace ((r * r * D - A * D + q * q) / D) with (r * r - A + q * q / D) in Hdiv
      by (field; lra).
    replace ((beta * D + q) * (beta * D + q) / D)
      with (beta * beta * D + 2 * beta * q + q * q / D) in Hdiv by (field; lra).
    lra.
Qed.

(** The distance from the foot of the perpendicular to the end of the path,
    along the path. *)
Lemma sqrt_end_offset (q D : R) :
  0 < D -> sqrt (2 * q + D + q * q / D) = Rabs (q + D) / sqrt D.
Proof.
  intros HD.
  assert (HL : 0 < sqrt D) by (apply sqrt_lt_R0; exact HD).
  assert (HLL : sqrt D * sqrt D = D) by (apply sqrt_sqrt; lra).
  assert (Hx : 2 * q + D + q * q / D = (q + D) * (q + D) / D) by (field; lra).
  apply sqrt_lem_1.
  - rewrite Hx. apply Rmult_le_pos; [apply Rsq_nonneg | left; apply Rinv_0_lt_compat; exact HD].
  - apply Rmult_le_pos; [apply Rabs_pos | left; apply Rinv_0_lt_compat; exact HL].
  - replace (Rabs (q + D) / sqrt D * (Rabs (q + D) / sqrt D))
      with (Rabs (q + D) * Rabs (q + D) / (sqrt D * sqrt D)) by (field; lra).
    rewrite HLL, Hx. f_equal.
    unfold Rabs. destruct (Rcase_abs (q + D)); ring.
Qed.

Lemma norm_le_radius (u : point3d) (r : R) : norm u <= r -> norm_sq u <= r * r.
Proof.
  intros H. rewrite <- norm_mult_self. pose proof (norm_nonneg u). nra.
Qed.

Lemma radius_lt_norm (u : point3d) (r : R) : 0 <= r -> r * r < norm_sq u -> r < norm u.
Proof.
  intros Hr H. rewrite <- norm_mult_self in H. pose proof (norm_nonneg u). nra.
Qed.

Lemma radius_lt_norm_sq (u : point3d) (r : R) : 0 <= r -> r < norm u -> r * r < norm_sq u.
Proof.
  intros Hr H. rewrite <- norm_mult_self. nra.
Qed.

Lemma relative_position_start (obs_path agent_path : Line) :
  relative_position obs_path agent_path 0
  = start_point agent_path [-] start_point obs_path.
Proof.
  apply point3d_ext; unfold relative_position, path_point, padd, psub, pscale;
    simpl; ring.
Qed.

(** The paths stay farther apart than the radius. *)
Lemma computeCollisionTime_far
    (SP_INFINITY : R) (delta_rounded : bool) (obs_path agent_path : Line)
    (collision_radius time_horizon : R) :
  (forall alpha, 0 <= alpha <= 1 ->
     collision_radius < norm (relative_position obs_path agent_path alpha)) ->
  computeCollisionTime SP_INFINITY delta_rounded obs_path agent_path
                       collision_radius time_horizon
  = SP_INFINITY.
Proof.
  intros Hfar.
  destruct (closestPointsBetweenLinePaths_least obs_path agent_path)
    as (t & Ht & _ & _ & Hd & _).
  unfold computeCollisionTime. cbv zeta.
  destruct (Rle_dec (dist (closestPointsBetweenLinePaths obs_path agent_path))
                    collision_radius) as [Hle | _]; [|reflexivity].
  rewrite Hd in Hle. specialize (Hfar t Ht). lra.
Qed.

(** The paths start within the radius. *)
Lemma computeCollisionTime_start_within
    (SP_INFINITY : R) (delta_rounded : bool) (obs_path agent_path : Line)
    (collision_radius time_horizon : R) :
  norm (relative_position obs_path agent_path 0) <= collision_radius ->
  computeCollisionTime SP_INFINITY delta_rounded obs_path agent_path
                       collision_radius time_horizon
  = 0.
Proof.
  intros Hstart.
  destruct (closestPointsBetweenLinePaths_least obs_path agent_path)
    as (t & Ht & _ & _ & _ & Hleast).
  unfold computeCollisionTime. cbv zeta.
  destruct (Rle_dec (dist (closestPointsBetweenLinePaths obs_path agent_path))
                    collision_radius) as [_ | Hgt].
  - rewrite relative_position_start in Hstart.
    destruct (Rle_dec (norm (start_point agent_path [-] start_point obs_path))
                      collision_radius) as [_ | Hn]; [reflexivity | contradiction].
  - exfalso. apply Hgt. specialize (Hleast 0). lra.
Qed.

(** Entry from outside: the paths start farther apart than the radius and
    come within it.  The time returned is the time of entry when the closest
    approach is before the end of the path, and when it is at the end and
    the comparison [delta == b] succeeds.  When the closest approach is at
    the end and rounding makes the comparison fail, the other formula is
    evaluated with the distance at the end for the distance to the line. *)
Lemma computeCollisionTime_entry
    (SP_INFINITY : R) (delta_rounded : bool) (obs_path agent_path : Line)
    (collision_radius time_horizon : R) :
  let rel := relative_position obs_path agent_path in
  let result :=
    computeCollisionTime SP_INFINITY delta_rounded obs_path agent_path
                         collision_radius time_horizon in
  let alpha_end :=
    1 - sqrt (collision_radius * collision_radius - norm (rel 1) * norm (rel 1))
        / norm (rel 1 [-] rel 0) in
  collision_radius < norm (rel 0) ->
  (exists alpha, 0 <= alpha <= 1 /\ norm (rel alpha) <= collision_radius) ->
  exists alpha_entry,
    0 < alpha_entry <= 1
    /\ norm (rel alpha_entry) = collision_radius
    /\ (forall beta, beta < alpha_entry -> collision_radius < norm (rel beta))
    /\ (forall beta, norm (rel beta) = collision_radius -> alpha_entry <= beta)
    /\ (delta_rounded = false
        \/ (exists alpha, 0 <= alpha < 1 /\ norm (rel alpha) <= norm (rel 1)) ->
        result = alpha_entry * time_horizon)
    /\ (delta_rounded = true ->
        (forall alpha, 0 <= alpha < 1 -> norm (rel 1) < norm (rel alpha)) ->
        result = alpha_end * time_horizon
        /\ alpha_end <= alpha_entry
        /\ (norm (rel 1) < collision_radius ->
            dot (rel 1) (rel 1 [-] rel 0) < 0 -> alpha_end < alpha_entry))
    /\ (result = alpha_entry * time_horizon
        \/ (result = alpha_end * time_horizon /\ alpha_end <= alpha_entry)).
Proof.
  intros rel result alpha_end. set (r := collision_radius) in *.
  destruct (closestPointsBetweenLinePaths_cases obs_path agent_path)
    as (t & Hmin & Hcp).
  pose proof (segment_minimiser_range _ _ _ Hmin) as Ht.
  set (a := start_point agent_path [-] start_point obs_path) in *.
  set (b := end_point agent_path [-] end_point obs_path) in *.
  set (d := b [-] a) in *.
  assert (Hrel : forall s, rel s = a [+] d [*] s)
    by (intros s; apply relative_position_path).
  assert (Hleast : forall s, 0 <= s <= 1 -> norm (rel t) <= norm (rel s)).
  { intros s Hs. apply norm_le_sq. rewrite !Hrel.
    apply segment_minimiser_least; assumption. }
  assert (Ha0 : rel 0 = a).
  { rewrite Hrel. apply point3d_ext; unfold padd, pscale; simpl; ring. }
  assert (Hb1 : rel 1 = b).
  { rewrite Hrel. apply point3d_ext; unfold d, padd, psub, pscale; simpl; ring. }
  assert (Hdelta : path_point agent_path t [-] path_point obs_path t = rel t)
    by reflexivity.
  unfold result, computeCollisionTime. rewrite Hcp.
  cbn [dist closest_point1 closest_point2]. fold a b d. rewrite Hdelta.
  fold rel r.
  intros Hstart (s & Hs & Hreach).
  assert (Hdist : norm (rel t) <= r) by (specialize (Hleast s Hs); lra).
  assert (Hr : 0 <= r) by (pose proof (norm_nonneg (rel t)); lra).
  destruct (Rle_dec (norm (rel t)) r) as [_ | Hn]; [|contradiction].
  destruct (Rle_dec (norm a) r) as [Hn | _]; [rewrite <- Ha0 in Hn; lra|].
  (* the path is not a single point, and it approaches *)
  assert (Hab : a <> b).
  { intros Heq. destruct Hmin as [[-> _] | [[_ [Hne _]] | [Hne _]]];
      try contradiction. lra. }
  destruct (perpendicular_foot a b Hab) as (HD & Hc & Hb & Hcn & _).
  fold d in HD, Hc, Hb, Hcn.
  set (c := a [-] normalized d [*] dot a (normalized d)) in *.
  set (q := dot a d) in *. set (D := norm_sq d) in *. set (A := norm_sq a) in *.
  assert (HL : norm d = sqrt D) by reflexivity.
  assert (Hf : forall s, norm_sq (rel s) = A + 2 * s * q + s * s * D)
    by (intros s0; rewrite Hrel; apply norm_sq_path).
  assert (HA : r * r < A).
  { unfold A. rewrite <- Ha0. apply radius_lt_norm_sq; assumption. }
  assert (Hcase : (t = 1 /\ q + D <= 0) \/ (- D < q < 0 /\ t = - q / D)).
  { destruct Hmin as [[Ht0 _] | [[Ht1 [_ Hq]] | [_ [Hq Htq]]]].
    - exfalso. rewrite Ht0 in Hdist. lra.
    - left. split; assumption.
    - right. split; assumption. }
  assert (Hq : q < 0) by (destruct Hcase as [[_ H] | [[_ H] _]]; lra).
  assert (HK : norm_sq (rel t) = A - q * q / D \/ (t = 1 /\ q + D <= 0)).
  { destruct Hcase as [Hc1 | [_ Htq]]; [right; exact Hc1 | left].
    rewrite Hf, Htq. field. lra. }
  assert (Hqq : 0 <= q * q / D).
  { apply Rmult_le_pos; [apply Rsq_nonneg | left; apply Rinv_0_lt_compat; exact HD]. }
  assert (HKr : A - q * q / D <= r * r).
  { apply norm_le_radius in Hdist. destruct HK as [HK | [Ht1 _]].
    - lra.
    - rewrite Hf, Ht1 in Hdist.
      assert (H : 0 <= (q + D) * (q + D) / D).
      { apply Rmult_le_pos; [apply Rsq_nonneg | left; apply Rinv_0_lt_compat; exact HD]. }
      replace ((q + D) * (q + D) / D) with (q * q / D + 2 * q + D) in H
        by (field; lra).
      lra. }
  destruct (entry_root A q D r HD Hr HKr HA Hq) as (Hpos & Hroot & Hfirst).
  set (s1 := sqrt (r * r - (A - q * q / D))) in *.
  set (alpha := - q / D - s1 / sqrt D) in *.
  assert (HLpos : 0 < sqrt D) by (apply sqrt_lt_R0; exact HD).
  assert (HLL : sqrt D * sqrt D = D) by (apply sqrt_sqrt; lra).
  assert (Hs2 : sqrt (norm b * norm b - (A - q * q / D)) = Rabs (q + D) / sqrt D).
  { rewrite norm_mult_self, Hb. fold A.
    replace (A + 2 * q + D - (A - q * q / D)) with (2 * q + D + q * q / D) by ring.
    apply sqrt_end_offset. exact HD. }
  assert (Hbeyond : forall beta, beta < alpha -> r < norm (rel beta)).
  { intros beta Hbeta. apply radius_lt_norm; [exact Hr|].
    rewrite Hf. replace (A + 2 * beta * q + beta * beta * D)
      with (A + 2 * beta * q + beta * beta * D) by ring.
    apply Hfirst. exact Hbeta. }
  assert (Hat : norm (rel alpha) = r).
  { apply norm_eval; [exact Hr|]. rewrite Hf. lra. }
  assert (Hle1 : alpha <= 1).
  { destruct (Rle_dec alpha 1) as [H | H]; [exact H | exfalso].
    assert (H1 : r < norm (rel 1)) by (apply Hbeyond; lra).
    destruct Hcase as [[Ht1 _] | [Hq' Htq]].
    - rewrite Ht1 in Hdist. lra.
    - assert (Hlt : t < alpha) by lra.
      specialize (Hbeyond t Hlt). lra. }
  exists alpha. split; [lra|]. split; [exact Hat|]. split; [exact Hbeyond|].
  split.
  { intros beta Hbeta. destruct (Rle_dec alpha beta) as [H | H]; [exact H|].
    exfalso. assert (Hlt : beta < alpha) by lra.
    specialize (Hbeyond beta Hlt). lra. }
  assert (Hend : rel t = b -> t = 1 /\ q + D <= 0).
  { intros Heq. destruct Hcase as [H | [Hq' Htq]]; [exact H | exfalso].
    rewrite Hrel in Heq.
    assert (Hd : d [*] t = d [*] 1).
    { apply point3d_ext; unfold d in *; injection Heq as Hx Hy Hz;
        unfold padd, psub, pscale in *; simpl in *; lra. }
    assert (Htt : t * t * D = D).
    { replace (t * t * D) with (norm_sq (d [*] t))
        by (unfold D, norm_sq, pscale; simpl; ring).
      rewrite Hd. unfold D, norm_sq, pscale; simpl; ring. }
    assert (Ht1 : t < 1).
    { rewrite Htq. apply Rmult_lt_reg_r with D; [exact HD|].
      replace (- q / D * D) with (- q) by (field; lra). lra. }
    assert (Hsq : t * t < 1) by nra.
    assert (Hlt : t * t * D < 1 * D)
      by (apply Rmult_lt_compat_r; assumption).
    lra. }
  match goal with
  | |- (_ -> ?e = _) /\ _ => set (res := e)
  end.
  assert (Hgood : rel t <> b \/ delta_rounded = false -> res = alpha * time_horizon).
  { intros Hside. unfold res, float_vector_eqb.
    destruct (point3d_eq_dec (rel t) b) as [Heq | Hneq].
    - (* closest at the end of the horizon, and the comparison succeeds *)
      destruct (Hend Heq) as [Ht1 HqD].
      assert (Hfl : delta_rounded = false) by (destruct Hside; [contradiction | assumption]).
      rewrite Hfl. cbn [negb].
      rewrite (norm_mult_self c), Hcn. fold A. rewrite Hs2. fold s1.
      rewrite HL. f_equal. unfold alpha.
      rewrite Rabs_left1 by exact HqD.
      set (L := sqrt D) in *. rewrite <- HLL. field. lra.
    - (* closest inside the horizon *)
      destruct HK as [HK | [Ht1 _]].
      + rewrite (norm_mult_self (rel t)), HK. rewrite Hs2. fold s1.
        rewrite HL. f_equal. unfold alpha.
        destruct Hcase as [[Ht1 _] | [Hq' _]].
        * exfalso. apply Hneq. rewrite Ht1. exact Hb1.
        * rewrite Rabs_right by lra.
          set (L := sqrt D) in *. rewrite <- HLL. field. lra.
      + exfalso. apply Hneq. rewrite Ht1. exact Hb1. }
  assert (Hslip : rel t = b -> delta_rounded = true ->
            res = alpha_end * time_horizon
            /\ alpha_end <= alpha
            /\ (norm (rel 1) < r -> dot (rel 1) (rel 1 [-] rel 0) < 0 ->
                alpha_end < alpha)).
  { (* closest at the end of the horizon, and the comparison fails *)
    intros Heq Hfl. destruct (Hend Heq) as [Ht1 HqD].
    assert (Hfail : float_vector_eqb delta_rounded (rel t) b = false).
    { unfold float_vector_eqb. rewrite Hfl. destruct (point3d_eq_dec _ _); reflexivity. }
    unfold res, alpha_end. rewrite Hfail, Ht1, Hb1, Ha0. fold d. fold r.
    replace (norm b * norm b - norm b * norm b) with 0 by ring. rewrite sqrt_0.
    assert (Hbb : norm b * norm b = A + 2 * q + D) by (rewrite norm_mult_self; exact Hb).
    assert (Hbr : norm b <= r) by (rewrite <- Hb1, <- Ht1; exact Hdist).
    assert (Hbn : 0 <= norm b) by apply norm_nonneg.
    set (ub := sqrt (r * r - norm b * norm b)).
    assert (Hub : 0 <= ub) by apply sqrt_pos.
    assert (Hubb : ub * ub = r * r - norm b * norm b) by (apply sqrt_sqrt; nra).
    assert (Hs1 : 0 <= s1) by apply sqrt_pos.
    assert (Hs11 : s1 * s1 = r * r - (A - q * q / D)) by (apply sqrt_sqrt; lra).
    rewrite HL. set (L := sqrt D) in *.
    set (e := - (q + D) / L).
    assert (He : 0 <= e).
    { unfold e. apply Rmult_le_pos; [lra | left; apply Rinv_0_lt_compat; exact HLpos]. }
    assert (Hee : e * e = (q + D) * (q + D) / D)
      by (unfold e; rewrite <- HLL; field; lra).
    assert (Hsum : s1 * s1 = ub * ub + e * e).
    { rewrite Hs11, Hubb, Hee, Hbb. field. lra. }
    assert (Hdiff : alpha - (1 - ub / L) = (e + ub - s1) / L).
    { unfold alpha, e. rewrite <- HLL. field. lra. }
    split; [rewrite Rplus_0_r; reflexivity|]. split.
    - assert (Hle : s1 <= ub + e) by nra.
      assert (H0 : 0 <= (e + ub - s1) / L)
        by (apply Rmult_le_pos; [lra | left; apply Rinv_0_lt_compat; exact HLpos]).
      lra.
    - intros Hin Happ.
      assert (Hbd : dot b d = q + D).
      { rewrite <- Hb1, Hrel. unfold q, D, norm_sq, dot, padd, pscale; simpl; ring. }
      rewrite Hbd in Happ.
      assert (Hub0 : 0 < ub) by (unfold ub; apply sqrt_lt_R0; nra).
      assert (He0 : 0 < e).
      { unfold e. apply Rmult_lt_0_compat; [lra | apply Rinv_0_lt_compat; exact HLpos]. }
      assert (Hlt : s1 < ub + e) by nra.
      assert (H0 : 0 < (e + ub - s1) / L)
        by (apply Rmult_lt_0_compat; [lra | apply Rinv_0_lt_compat; exact HLpos]).
      lra. }
  split; [|split].
  - intros Hside. apply Hgood.
    destruct (point3d_eq_dec (rel t) b) as [Heq | Hneq]; [right | left; exact Hneq].
    destruct Hside as [H | (al & Hal & Hle)]; [exact H | exfalso].
    destruct (Hend Heq) as [Ht1 HqD].
    assert (Hsq : norm_sq (rel al) <= norm_sq (rel 1)).
    { rewrite <- !norm_mult_self.
      pose proof (norm_nonneg (rel al)). pose proof (norm_nonneg (rel 1)). nra. }
    rewrite !Hf in Hsq.
    assert (H1 : 0 < D * (1 - al)) by (apply Rmult_lt_0_compat; lra).
    assert (H2 : 0 < (1 - al) * (D * (1 - al) - 2 * (q + D)))
      by (apply Rmult_lt_0_compat; lra).
    lra.
  - intros Hfl Hmin1. apply Hslip; [|exact Hfl].
    assert (Ht1 : t = 1).
    { destruct (Rlt_dec t 1) as [Hlt | Hge]; [exfalso | lra].
      assert (H1 : norm (rel 1) < norm (rel t)) by (apply Hmin1; lra).
      assert (H2 : norm (rel t) <= norm (rel 1)) by (apply Hleast; lra).
      lra. }
    rewrite Ht1. exact Hb1.
  - destruct (point3d_eq_dec (rel t) b) as [Heq | Hneq];
      [destruct delta_rounded eqn:Hfl|].
    + right. destruct (Hslip Heq eq_refl) as (H1 & H2 & _). split; assumption.
    + left. apply Hgood. right. reflexivity.
    + left. apply Hgood. left. exact Hneq.
Qed.

(** C1, as the code has it: [computeCollisionTime] returns [SP_INFINITY]
    when the two moving points stay farther apart than the collision radius
    over the whole horizon, 0 when they start within the radius, and
    otherwise the time of entry [alpha_entry * time_horizon], where
    [alpha_entry], in (0, 1], is the first fraction of the horizon at which
    the distance equals the radius, that is the smaller root.  The last
    case is stated when the closest approach is before the end of the path,
    and when it is at the end and rounding has not spoiled the comparison
    [delta == b]. *)
Theorem computeCollisionTime_entry_time
    (SP_INFINITY : R) (delta_rounded : bool) (obs_path agent_path : Line)
    (collision_radius time_horizon : R) :
  let rel := relative_position obs_path agent_path in
  let result :=
    computeCollisionTime SP_INFINITY delta_rounded obs_path agent_path
                         collision_radius time_horizon in
  ((forall alpha, 0 <= alpha <= 1 -> collision_radius < norm (rel alpha)) ->
   result = SP_INFINITY)
  /\ (norm (rel 0) <= collision_radius -> result = 0)
  /\ (collision_radius < norm (rel 0) ->
      (exists alpha, 0 <= alpha <= 1 /\ norm (rel alpha) <= collision_radius) ->
      delta_rounded = false
      \/ (exists alpha, 0 <= alpha < 1 /\ norm (rel alpha) <= norm (rel 1)) ->
      exists alpha_entry,
        0 < alpha_entry <= 1
        /\ norm (rel alpha_entry) = collision_radius
        /\ (forall beta, beta < alpha_entry -> collision_radius < norm (rel beta))
        /\ (forall beta, norm (rel beta) = collision_radius -> alpha_entry <= beta)
        /\ result = alpha_entry * time_horizon).
Proof.
  intros rel result. split; [|split].
  - intros Hfar. apply computeCollisionTime_far. exact Hfar.
  - intros Hstart. apply computeCollisionTime_start_within. exact Hstart.
  - intros Hstart Hreach Hside.
    destruct (computeCollisionTime_entry SP_INFINITY delta_rounded obs_path agent_path
                collision_radius time_horizon Hstart Hreach)
      as (alpha_entry & Hrange & Hat & Hfirst & Hleast & Hgood & _).
    exists alpha_entry. repeat (split; [assumption|]). apply Hgood. exact Hside.
Qed.

(** ** The distance returned and the two points *)

Lemma distance_padd (p c : point3d) : distance p (p [+] c) = norm c.
Proof. unfold distance, norm. f_equal. unfold norm_sq, padd; simpl; ring. Qed.

Lemma closestPointsBetweenPointAndLine_dist (point line_point line_direction : point3d) :
  let c := closestPointsBetweenPointAndLine point line_point line_direction in
  dist c = distance (closest_point1 c) (closest_point2 c).
Proof. simpl. symmetry. apply distance_padd. Qed.

Lemma closestPointsBetweenPointAndRay_dist_ahead (point ray_start ray_direction : point3d) :
  ~ dot (point [-] ray_start) ray_direction < 0 ->
  let c := closestPointsBetweenPointAndRay point ray_start ray_direction in
  dist c = distance (closest_point1 c) (closest_point2 c).
Proof.
  intros H. unfold closestPointsBetweenPointAndRay.
  destruct (Rlt_dec _ _); [contradiction|].
  apply closestPointsBetweenPointAndLine_dist.
Qed.


Lemma closestPointsBetweenLinePaths_dist (line1 line2 : Line) :
  let c := closestPointsBetweenLinePaths line1 line2 in
  dist c = distance (closest_point1 c) (closest_point2 c).
Proof.
  destruct (closestPointsBetweenLinePaths_cases line1 line2) as (t & _ & ->).
  simpl. rewrite distance_sym. reflexivity.
Qed.

(** The distance returned for a point and a ray of unit direction is the
    least distance from the point to the points of the ray. *)
Lemma closestPointsBetweenPointAndRay_dist_least
    (point ray_start ray_direction : point3d) (s : R) :
  norm_sq ray_direction = 1 -> 0 <= s ->
  dist (closestPointsBetweenPointAndRay point ray_start ray_direction)
  <= norm (point [-] (ray_start [+] ray_direction [*] s)).
Proof.
  intros Hn Hs. unfold closestPointsBetweenPointAndRay, closestPointsBetweenPointAndLine.
  set (w := point [-] ray_start).
  assert (Hw : norm_sq (point [-] (ray_start [+] ray_direction [*] s))
               = norm_sq w - 2 * s * dot w ray_direction + s * s * norm_sq ray_direction)
    by (unfold w, norm_sq, dot, padd, psub, pscale; simpl; ring).
  destruct (Rlt_dec (dot w ray_direction) 0) as [Hneg | Hpos];
    cbn [dist]; apply norm_le_sq; rewrite Hw, Hn.
  - nra.
  - replace (norm_sq (ray_start [-] point
                      [-] ray_direction [*] dot (ray_start [-] point) ray_direction))
      with (norm_sq w - 2 * dot w ray_direction * dot w ray_direction
            + dot w ray_direction * dot w ray_direction * norm_sq ray_direction)
      by (unfold w, norm_sq, dot, padd, psub, pscale; simpl; ring).
    rewrite Hn. pose proof (Rsq_nonneg (s - dot w ray_direction)). lra.
Qed.

(** When the point projects on the ray, the second point returned is the
    foot of the perpendicular, on the ray. *)
Lemma closestPointsBetweenPointAndRay_ahead
    (point ray_start ray_direction : point3d) :
  ~ dot (point [-] ray_start) ray_direction < 0 ->
  let c := closestPointsBetweenPointAndRay point ray_start ray_direction in
  closest_point1 c = point
  /\ closest_point2 c
     = ray_start [+] ray_direction [*] dot (point [-] ray_start) ray_direction.
Proof.
  intros H. unfold closestPointsBetweenPointAndRay.
  destruct (Rlt_dec _ _); [contradiction|].
  split; [reflexivity|].
  apply point3d_ext; unfold closestPointsBetweenPointAndLine, dot, padd, psub, pscale;
    simpl; ring.
Qed.

(** The value [gjk] returns is stored in [dist] as it is, and the second
    point is the first one moved by the vector [gjk] writes: the result is
    consistent exactly when [gjk] returns the norm of that vector. *)
Lemma closestPointsBetweenPointAndConvexHull_dist
    (gjk : list point3d -> list point3d -> R * point3d)
    (point : point3d) (convex_hull : list point3d) :
  let c := closestPointsBetweenPointAndConvexHull gjk point convex_hull in
  dist c = fst (gjk convex_hull [point])
  /\ closest_point1 c = point
  /\ distance (closest_point1 c) (closest_point2 c)
     = norm (snd (gjk convex_hull [point])).
Proof.
  unfold closestPointsBetweenPointAndConvexHull.
  destruct (gjk convex_hull [point]) as [dd v]. simpl.
  split; [reflexivity|]. split; [reflexivity|].
  rewrite distance_padd. destruct v; reflexivity.
Qed.

Lemma ClosestPoints_ext (c : ClosestPoints) (d : R) (p q : point3d) :
  dist c = d ->
  x (closest_point1 c) = x p -> y (closest_point1 c) = y p ->
  z (closest_point1 c) = z p ->
  x (closest_point2 c) = x q -> y (closest_point2 c) = y q ->
  z (closest_point2 c) = z q ->
  c = mkClosestPoints d p q.
Proof.
  destruct c as [d' [] []], p, q; simpl; intros; subst; reflexivity.
Qed.

(** ** Line segments: swapping the arguments *)


Lemma skew_matrix_determinant (n1 n2 n3 : point3d) :
  determinant (skew_matrix n1 n2 n3) = dot n3 (cross n2 n1).
Proof. unfold determinant, skew_matrix, dot, cross; simpl; ring. Qed.

Lemma skew_solution_swap (n1 n2 n3 delta : point3d) :
  determinant (skew_matrix n1 n2 n3) <> 0 ->
  let alphas := mul_vec (inverse (skew_matrix n1 n2 n3)) delta in
  let alphas' := mul_vec (inverse (skew_matrix n2 n1 (pneg n3))) (pneg delta) in
  x alphas' = y alphas /\ y alphas' = x alphas /\ z alphas' = z alphas.
Proof.
  intros Hdet alphas alphas'.
  assert (Hdet' : determinant (skew_matrix n2 n1 (pneg n3))
                  = determinant (skew_matrix n1 n2 n3))
    by (unfold determinant, skew_matrix, dot, cross, pneg; simpl; ring).
  unfold alphas, alphas', mul_vec, inverse. rewrite Hdet'.
  set (dt := determinant (skew_matrix n1 n2 n3)) in *.
  cbn [row0 row1 row2 x y z]. unfold dot, cross, skew_matrix, pneg.
  cbn [row0 row1 row2 x y z].
  repeat split; field; exact Hdet.
Qed.

Lemma norm_sq_pscale (v : point3d) (k : R) : norm_sq (v [*] k) = k * k * norm_sq v.
Proof. unfold norm_sq, pscale; simpl; ring. Qed.

Lemma norm_sq_unit (v : point3d) : 0 < norm v -> norm_sq (v [*] (/ norm v)) = 1.
Proof.
  intros H. rewrite norm_sq_pscale, <- norm_mult_self. field. lra.
Qed.

Lemma pscale_one_div (v : point3d) (l : R) : v [*] (1 / l) = v [*] (/ l).
Proof. unfold Rdiv. rewrite Rmult_1_l. reflexivity. Qed.

Lemma norm_pneg (v : point3d) : norm (pneg v) = norm v.
Proof. unfold norm. f_equal. unfold norm_sq, pneg; simpl; ring. Qed.

Lemma cross_anticomm (a b : point3d) : cross a b = pneg (cross b a).
Proof. apply point3d_ext; unfold cross, pneg; simpl; ring. Qed.

Lemma pscale_pneg (v : point3d) (k : R) : pneg v [*] k = pneg (v [*] k).
Proof. apply point3d_ext; unfold pscale, pneg; simpl; ring. Qed.

(** For unit vectors, the norm of the cross product is at most the distance
    between them, and at most the distance from one to the opposite of the
    other: the parallel test of [closestPointsBetweenLines] is implied by the
    one of [closestPointsBetweenLineSegments]. *)
Lemma unit_cross_le_distance (m1 m2 : point3d) :
  norm_sq m1 = 1 -> norm_sq m2 = 1 ->
  norm (cross m1 m2) <= distance m1 m2
  /\ norm (cross m1 m2) <= distance m1 (pneg m2).
Proof.
  intros H1 H2.
  assert (Hlag : norm_sq (cross m1 m2)
                 = norm_sq m1 * norm_sq m2 - dot m1 m2 * dot m1 m2)
    by (unfold norm_sq, cross, dot; simpl; ring).
  rewrite H1, H2 in Hlag.
  split; rewrite distance_norm; apply norm_le_sq; rewrite Hlag.
  - replace (norm_sq (m1 [-] m2)) with (norm_sq m1 + norm_sq m2 - 2 * dot m1 m2)
      by (unfold norm_sq, dot, psub; simpl; ring).
    rewrite H1, H2. pose proof (Rsq_nonneg (1 - dot m1 m2)). lra.
  - replace (norm_sq (m1 [-] pneg m2)) with (norm_sq m1 + norm_sq m2 + 2 * dot m1 m2)
      by (unfold norm_sq, dot, psub, pneg; simpl; ring).
    rewrite H1, H2. pose proof (Rsq_nonneg (1 + dot m1 m2)). lra.
Qed.

Lemma norm_pos_neq (l : Line) :
  0 < norm (end_point l [-] start_point l) -> start_point l <> end_point l.
Proof.
  intros H Heq. rewrite Heq in H.
  replace (end_point l [-] end_point l) with (mkPoint3d 0 0 0) in H
    by (apply point3d_ext; unfold psub; simpl; ring).
  assert (H0 : norm (mkPoint3d 0 0 0) = 0) by (apply norm_zero_iff; reflexivity).
  lra.
Qed.

Lemma distance_start_end (l : Line) :
  distance (start_point l) (end_point l) = norm (end_point l [-] start_point l).
Proof. rewrite distance_sym. reflexivity. Qed.

Lemma clamp0_cases (l d : R) :
  (d < 0 /\ clamp0 l d = 0)
  \/ (0 <= d /\ l < d /\ clamp0 l d = l)
  \/ (0 <= d <= l /\ clamp0 l d = d).
Proof.
  unfold clamp0. destruct (Rlt_dec d 0); [left; split; [lra | reflexivity]|].
  destruct (Rgt_dec d l); [right; left | right; right]; repeat split; lra.
Qed.

(** One clamped step from the clamped end of the first segment, then one
    back: the parameter reached on the second segment is already optimal
    for the parameter reached on the first. *)
Lemma clamped_step_stable (S T c L1 L2 : R) :
  c * c < 1 -> 0 < L1 -> 0 < L2 -> (S < 0 \/ S > L1) -> (T < 0 \/ T > L2) ->
  let beta := T - c * S in
  let gamma := S - c * T in
  let s_a := if Rlt_dec S 0 then 0 else L1 in
  let t_b := clamp0 L2 (c * s_a + beta) in
  let s_b := clamp0 L1 (c * t_b + gamma) in
  clamp0 L2 (c * s_b + beta) = t_b.
Proof.
  intros Hc HL1 HL2 HS HT beta gamma s_a t_b s_b.
  unfold s_b, t_b, s_a, beta, gamma.
  destruct (Rlt_dec S 0) as [Hlow | Hhigh].
  - destruct (clamp0_cases L2 (c * 0 + (T - c * S)))
      as [[H1 ->] | [(H1 & H1' & ->) | (H1 & ->)]];
    match goal with |- context [clamp0 L1 ?e] =>
      destruct (clamp0_cases L1 e) as [[H2 ->] | [(H2 & H2' & ->) | (H2 & ->)]] end;
    match goal with |- clamp0 L2 ?e = _ =>
      destruct (clamp0_cases L2 e) as [[H3 ->] | [(H3 & H3' & ->) | (H3 & ->)]] end;
    try lra; try (exfalso; destruct HT; nra);
    try (exfalso; destruct HT; destruct (Rle_dec 0 c); nra).
  - assert (HS' : S > L1) by (destruct HS; [contradiction | assumption]).
    destruct (clamp0_cases L2 (c * L1 + (T - c * S)))
      as [[H1 ->] | [(H1 & H1' & ->) | (H1 & ->)]];
    match goal with |- context [clamp0 L1 ?e] =>
      destruct (clamp0_cases L1 e) as [[H2 ->] | [(H2 & H2' & ->) | (H2 & ->)]] end;
    match goal with |- clamp0 L2 ?e = _ =>
      destruct (clamp0_cases L2 e) as [[H3 ->] | [(H3 & H3' & ->) | (H3 & ->)]] end;
    try lra; try (exfalso; destruct HT; nra);
    try (exfalso; destruct HT; destruct (Rle_dec 0 c); nra).
Qed.




Lemma skew_solution_correct (n1 n2 n3 delta : point3d) :
  determinant (skew_matrix n1 n2 n3) <> 0 ->
  let alphas := mul_vec (inverse (skew_matrix n1 n2 n3)) delta in
  n1 [*] x alphas [-] n2 [*] y alphas [+] n3 [*] z alphas = delta.
Proof.
  intros Hdet alphas.
  set (dt := determinant (skew_matrix n1 n2 n3)) in *.
  apply point3d_ext; unfold alphas, mul_vec, inverse; fold dt;
    unfold dot, cross, skew_matrix, padd, psub, pscale;
    cbn [row0 row1 row2 x y z];
    (field_simplify_eq; [|exact Hdet]);
    unfold dt, determinant, skew_matrix, dot, cross; cbn [row0 row1 row2 x y z];
    ring.
Qed.

(** The normal equations of the closest points of two lines with unit
    directions [n1] and [n2], joined by a vector along [n3] orthogonal to
    both. *)
Lemma skew_solution_normal (n1 n2 n3 delta : point3d) (S T Z : R) :
  norm_sq n1 = 1 -> norm_sq n2 = 1 -> dot n1 n3 = 0 -> dot n2 n3 = 0 ->
  n1 [*] S [-] n2 [*] T [+] n3 [*] Z = delta ->
  S = dot n1 n2 * T + dot n1 delta
  /\ T = dot n1 n2 * S + dot n2 (pneg delta).
Proof.
  intros H1 H2 H13 H23 He.
  assert (Ha : dot n1 delta = S * norm_sq n1 - T * dot n1 n2 + Z * dot n1 n3).
  { rewrite <- He. unfold dot, norm_sq, padd, psub, pscale; simpl; ring. }
  assert (Hb : dot n2 delta = S * dot n1 n2 - T * norm_sq n2 + Z * dot n2 n3).
  { rewrite <- He. unfold dot, norm_sq, padd, psub, pscale; simpl; ring. }
  assert (Hn : dot n2 (pneg delta) = - dot n2 delta)
    by (unfold dot, pneg; simpl; ring).
  rewrite Hn, Ha, Hb, H1, H2, H13, H23. split; ring.
Qed.

Lemma dot_cross_left (a b : point3d) : dot a (cross b a) = 0.
Proof. unfold dot, cross; simpl; ring. Qed.

Lemma dot_cross_right (a b : point3d) : dot a (cross a b) = 0.
Proof. unfold dot, cross; simpl; ring. Qed.

Lemma dot_pscale_r (a b : point3d) (k : R) : dot a (b [*] k) = dot a b * k.
Proof. unfold dot, pscale; simpl; ring. Qed.

(** The closest points of two supporting lines that are not parallel within
    the guard: their parameters [S] and [T] along the unit directions solve
    the normal equations, and swapping the lines swaps the points. *)
Lemma closestPointsBetweenLines_skew (SP_EPSILON_FLOAT : R) (line1 line2 : Line) :
  let v1 := end_point line1 [-] start_point line1 in
  let v2 := end_point line2 [-] start_point line2 in
  let n1 := v1 [*] (1 / norm v1) in
  let n2 := v2 [*] (1 / norm v2) in
  0 < SP_EPSILON_FLOAT ->
  0 < norm v1 -> 0 < norm v2 ->
  ~ norm (cross n1 n2) < SP_EPSILON_FLOAT ->
  exists S T Z,
    closestPointsBetweenLines SP_EPSILON_FLOAT line1 line2
    = Some (mkClosestPoints (Rabs Z) (start_point line1 [+] n1 [*] S)
                            (start_point line2 [+] n2 [*] T))
    /\ closestPointsBetweenLines SP_EPSILON_FLOAT line2 line1
       = Some (mkClosestPoints (Rabs Z) (start_point line2 [+] n2 [*] T)
                               (start_point line1 [+] n1 [*] S))
    /\ S = dot n1 n2 * T + dot n1 (start_point line2 [-] start_point line1)
    /\ T = dot n1 n2 * S + dot n2 (start_point line1 [-] start_point line2)
    /\ dot n1 n2 * dot n1 n2 < 1.
Proof.
  intros v1 v2 n1 n2 Heps Hl1 Hl2 Hskew.
  unfold closestPointsBetweenLines.
  destruct (point3d_eq_dec (start_point line1) (end_point line1)) as [He | _];
    [exfalso; revert He; apply norm_pos_neq; exact Hl1|].
  destruct (point3d_eq_dec (start_point line2) (end_point line2)) as [He | _];
    [exfalso; revert He; apply norm_pos_neq; exact Hl2|].
  fold v1 v2. unfold n1, n2 in *. rewrite !pscale_one_div in *.
  rewrite (normalized_scale v1 Hl1), (normalized_scale v2 Hl2).
  set (m1 := v1 [*] (/ norm v1)) in *. set (m2 := v2 [*] (/ norm v2)) in *.
  assert (Hu1 : norm_sq m1 = 1) by (apply norm_sq_unit; exact Hl1).
  assert (Hu2 : norm_sq m2 = 1) by (apply norm_sq_unit; exact Hl2).
  destruct (unit_cross_le_distance m1 m2 Hu1 Hu2) as [Hd Hd'].
  destruct (unit_cross_le_distance m2 m1 Hu2 Hu1) as [He He'].
  assert (Hc21 : norm (cross m2 m1) = norm (cross m1 m2))
    by (rewrite (cross_anticomm m2 m1); apply norm_pneg).
  rewrite Hc21 in He, He'.
  unfold Rltb.
  destruct (Rlt_dec (distance m1 m2) SP_EPSILON_FLOAT) as [H|_]; [lra|].
  destruct (Rlt_dec (distance m1 (pneg m2)) SP_EPSILON_FLOAT) as [H|_]; [lra|].
  destruct (Rlt_dec (distance m2 m1) SP_EPSILON_FLOAT) as [H|_]; [lra|].
  destruct (Rlt_dec (distance m2 (pneg m1)) SP_EPSILON_FLOAT) as [H|_]; [lra|].
  cbn [orb].
  assert (Hm : 0 < norm (cross m2 m1)) by lra.
  rewrite (normalized_scale (cross m2 m1) Hm).
  assert (Hm' : 0 < norm (cross m1 m2)) by lra.
  rewrite (normalized_scale (cross m1 m2) Hm').
  set (n3 := cross m2 m1 [*] (/ norm (cross m2 m1))).
  assert (Hn3 : cross m1 m2 [*] (/ norm (cross m1 m2)) = pneg n3).
  { unfold n3. rewrite Hc21, (cross_anticomm m1 m2). apply pscale_pneg. }
  rewrite Hn3.
  assert (Hdelta : start_point line1 [-] start_point line2
                   = pneg (start_point line2 [-] start_point line1))
    by (apply point3d_ext; unfold psub, pneg; simpl; ring).
  rewrite Hdelta.
  set (delta := start_point line2 [-] start_point line1).
  fold (skew_matrix m1 m2 n3). fold (skew_matrix m2 m1 (pneg n3)).
  assert (Hdet : determinant (skew_matrix m1 m2 n3) <> 0).
  { rewrite skew_matrix_determinant. unfold n3.
    replace (dot (cross m2 m1 [*] (/ norm (cross m2 m1))) (cross m2 m1))
      with (norm_sq (cross m2 m1) * / norm (cross m2 m1))
      by (unfold dot, norm_sq, pscale; simpl; ring).
    rewrite <- norm_mult_self.
    replace (norm (cross m2 m1) * norm (cross m2 m1) * / norm (cross m2 m1))
      with (norm (cross m2 m1)) by (field; lra).
    lra. }
  destruct (skew_solution_swap m1 m2 n3 delta Hdet) as (Hx & Hy & Hz).
  pose proof (skew_solution_correct m1 m2 n3 delta Hdet) as Hsol.
  cbv zeta in Hsol.
  set (alphas := mul_vec (inverse (skew_matrix m1 m2 n3)) delta) in *.
  assert (H13 : dot m1 n3 = 0)
    by (unfold n3; rewrite dot_pscale_r, dot_cross_left; ring).
  assert (H23 : dot m2 n3 = 0)
    by (unfold n3; rewrite dot_pscale_r, dot_cross_right; ring).
  destruct (skew_solution_normal m1 m2 n3 delta _ _ _ Hu1 Hu2 H13 H23 Hsol)
    as [HS HT].
  exists (x alphas), (y alphas), (z alphas).
  split; [reflexivity|]. split.
  - rewrite Hx, Hy, Hz. reflexivity.
  - split; [exact HS|]. split; [exact HT|].
    assert (Hlag : norm_sq (cross m1 m2)
                   = norm_sq m1 * norm_sq m2 - dot m1 m2 * dot m1 m2)
      by (unfold norm_sq, cross, dot; simpl; ring).
    rewrite Hu1, Hu2 in Hlag.
    pose proof (norm_mult_self (cross m1 m2)) as Hnn. nra.
Qed.

Lemma dot_comm (a b : point3d) : dot a b = dot b a.
Proof. unfold dot; ring. Qed.

Lemma dot_line_point (n p m q : point3d) (t : R) :
  dot n (p [+] m [*] t [-] q) = dot n m * t + dot n (p [-] q).
Proof. unfold dot, padd, psub, pscale; simpl; ring. Qed.

Lemma dot_line_parameter (s n : point3d) (t : R) :
  norm_sq n = 1 -> dot (s [+] n [*] t [-] s) n = t.
Proof.
  intros Hn.
  replace (dot (s [+] n [*] t [-] s) n) with (t * norm_sq n)
    by (unfold dot, norm_sq, padd, psub, pscale; simpl; ring).
  rewrite Hn. ring.
Qed.

Lemma div_neg_iff (t l : R) : 0 < l -> (t / l < 0 <-> t < 0).
Proof.
  intros Hl. assert (H : t / l * l = t) by (field; lra).
  split; intros H'; nra.
Qed.

Lemma div_gt_one_iff (t l : R) : 0 < l -> (t / l > 1 <-> t > l).
Proof.
  intros Hl. assert (H : t / l * l = t) by (field; lra).
  split; intros H'; nra.
Qed.


Lemma norm_sq_unit_div (v : point3d) : 0 < norm v -> norm_sq (v [*] (1 / norm v)) = 1.
Proof. intros H. rewrite pscale_one_div. apply norm_sq_unit. exact H. Qed.

Lemma end_point_on_line (l : Line) :
  let v := end_point l [-] start_point l in
  0 < norm v -> end_point l = start_point l [+] v [*] (1 / norm v) [*] norm v.
Proof.
  intros v H. set (L := norm v) in *. clearbody L.
  apply point3d_ext; unfold v, padd, psub, pscale; simpl; field; lra.
Qed.




(** ** Runs of the kernel *)

Ltac decide_Rlt :=
  match goal with
  | |- context [Rlt_dec ?a ?b] =>
      destruct (Rlt_dec a b); [ try (exfalso; lra) | try (exfalso; lra) ]
  end.




(** C1 as stated fails when the least distance equals the radius: an agent
    leaving from distance 1 an obstacle at rest never comes closer than the
    radius 1, and the time returned is 0, whatever [SP_INFINITY] is and
    whatever rounding does. *)
Lemma computeCollisionTime_touching_counterexample :
  (forall alpha, 0 <= alpha <= 1 ->
     1 <= norm (relative_position path_at_rest path_leaving alpha))
  /\ (forall SP_INFINITY delta_rounded time_horizon,
        computeCollisionTime SP_INFINITY delta_rounded path_at_rest path_leaving
                             1 time_horizon = 0).
Proof.
  assert (Hn : forall alpha, 0 <= alpha ->
             norm (relative_position path_at_rest path_leaving alpha) = 1 + alpha).
  { intros alpha Ha. apply norm_eval; [lra|].
    unfold norm_sq, relative_position, path_point, padd, psub, pscale; simpl. ring. }
  split.
  - intros alpha [Ha _]. rewrite Hn by exact Ha. lra.
  - intros SP_INFINITY delta_rounded time_horizon.
    apply computeCollisionTime_start_within.
    rewrite Hn by lra. lra.
Qed.

Lemma computeCollisionTime_entry_time_witness :
  exists alpha_entry,
    0 < alpha_entry <= 1
    /\ norm (relative_position path_at_rest path_through alpha_entry) = 1
    /\ (forall beta, beta < alpha_entry ->
          1 < norm (relative_position path_at_rest path_through beta))
    /\ (forall beta, norm (relative_position path_at_rest path_through beta) = 1 ->
          alpha_entry <= beta)
    /\ computeCollisionTime 1000000000 true path_at_rest path_through 1 4
       = alpha_entry * 4.
Proof.
  destruct (computeCollisionTime_entry_time 1000000000 true
              path_at_rest path_through 1 4)
    as (_ & _ & H).
  apply H.
  - unfold_p3. sqrt_is 2. lra.
  - exists (1 / 2). split; [lra|]. unfold_p3. sqrt_is 0. lra.
  - right. exists (1 / 2). split; [lra|]. unfold_p3. sqrt_is 0. sqrt_is 2. lra.
Defined.


(** * Properties of the agent manager *)

Section ManagerProperties.

Import Geometry.
Import Agent_manager.

Context {C : Collaborators}.

Lemma PlannerState_eqb_eq (a b : PlannerState) :
  PlannerState_eqb a b = true <-> a = b.
Proof. destruct a, b; simpl; split; congruence. Qed.

(** ** The invariant *)

Lemma same_frame_refl (m : AgentManager) : same_frame m m.
Proof. repeat split; auto. Qed.

Lemma same_frame_trans (m1 m2 m3 : AgentManager) :
  same_frame m1 m2 -> same_frame m2 m3 -> same_frame m1 m3.
Proof.
  intros (Hp & Hm & Hi & Hc) (Hp' & Hm' & Hi' & Hc').
  repeat split; try congruence; intros H.
  - apply Hc, Hc', H.
  - apply Hc', Hc, H.
Qed.

Lemma same_frame_well_formed (m m' : AgentManager) :
  same_frame m m' -> well_formed m -> well_formed m'.
Proof.
  intros (Hp & Hm & Hi & Hc) [Hcp Hidx]. split.
  - rewrite Hp. intros Hmulti Hnone. apply (Hcp Hmulti), Hc, Hnone.
  - rewrite Hm, Hi. exact Hidx.
Qed.

(** The constructor builds a well-formed manager in state [WAIT] with no
    input received, for an agent stored in the mission under its own id. *)
Lemma AgentManager_new_well_formed (_param : Param) (_mission : Mission)
    (agent_id : Z) (tp : TrajPlanner) (mm : MapManager) (cp : CmdPublisher)
    (traj : traj_t) (a : Agent) :
  agents_at _mission agent_id = Some a -> id a = agent_id ->
  exists m,
    AgentManager_new _param _mission agent_id tp mm cp traj = Some m
    /\ well_formed m
    /\ planner_state m = WAIT
    /\ has_obstacles m = false /\ has_current_state m = false.
Proof.
  intros Ha Hid. unfold AgentManager_new. rewrite Ha.
  eexists. split; [reflexivity|]. split; [|auto].
  split; simpl.
  - intros ->. discriminate.
  - rewrite Hid, Ha. discriminate.
Qed.

Lemma planningStateTransition_frame (m m' : AgentManager) :
  planningStateTransition m = Some m' -> same_frame m m'.
Proof.
  unfold planningStateTransition.
  destruct (PlannerState_eqb (planner_state m) GOTO).
  - destruct (agents_at _ _); [|discriminate].
    intros H; injection H as <-. repeat split; simpl; auto.
  - destruct (PlannerState_eqb (planner_state m) PATROL && _).
    + intros H; injection H as <-. repeat split; simpl; auto.
    + destruct (PlannerState_eqb (planner_state m) GOBACK).
      * destruct (agents_at _ _); [|discriminate].
        intros H; injection H as <-. repeat split; simpl; auto.
      * intros H; injection H as <-. apply same_frame_refl.
Qed.

Lemma plan_frame (m m' : AgentManager) (t : Time) (r : PlanningReport) :
  plan m t = Some (r, m') -> same_frame m m'.
Proof.
  unfold plan.
  destruct (negb (has_obstacles m) || negb (has_current_state m)).
  - intros H; injection H as _ <-. apply same_frame_refl.
  - destruct (multisim_experiment (param m) && PlannerState_eqb (planner_state m) LAND).
    + destruct (cmd_publisher m) as [cp|] eqn:Hcp; [|discriminate].
      intros H; injection H as _ <-.
      repeat split; simpl; auto; try discriminate. rewrite Hcp. discriminate.
    + destruct (planningStateTransition m) as [m1|] eqn:Hpst; [|discriminate].
      apply planningStateTransition_frame in Hpst.
      destruct Hpst as (Hp & Hm & Hi & Hc).
      destruct (TrajPlanner_plan _ _ _ _ _) as [traj tp]. simpl.
      destruct (multisim_experiment (param m1)).
      * destruct (cmd_publisher m1) as [cp|] eqn:Hcp; [|discriminate].
        intros H; injection H as _ <-.
        repeat split; simpl; auto; try discriminate.
        intros Hn. apply Hc in Hn. congruence.
      * intros H; injection H as _ <-. repeat split; simpl; auto; apply Hc.
Qed.

Lemma doStep_frame (m m' : AgentManager) (time_step : R) :
  doStep m time_step = Some m' -> same_frame m m'.
Proof.
  unfold doStep.
  destruct (multisim_experiment (param m)).
  - destruct (cmd_publisher m) as [cp|] eqn:Hcp; [|discriminate]. simpl.
    destruct (isDisturbed cp); simpl;
      destruct (world_dimension (param m) =? 2)%Z; simpl;
      destruct (world_use_global_map (param m)); simpl;
      intros H; injection H as <-; repeat split; simpl; auto.
  - simpl.
    destruct (world_dimension (param m) =? 2)%Z; simpl;
      destruct (world_use_global_map (param m)); simpl;
      intros H; injection H as <-; repeat split; simpl; auto.
Qed.

Lemma setPlannerState_frame (m m' : AgentManager) (st : PlannerState) :
  setPlannerState m st = Some m' -> same_frame m m'.
Proof.
  unfold setPlannerState.
  destruct (multisim_experiment (param m) && PlannerState_eqb (planner_state m) LAND).
  - destruct (cmd_publisher m) as [cp|]; [|discriminate].
    destruct (negb (landingFinished cp)); intros H; injection H as <-;
      repeat split; simpl; auto.
  - intros H; injection H as <-. repeat split; simpl; auto.
Qed.

Lemma obstacleCallback_frame (m m' : AgentManager) (o : list (Obstacle Pose Twist)) :
  obstacleCallback m o = Some m' -> same_frame m m' /\ has_obstacles m' = true.
Proof.
  unfold obstacleCallback.
  destruct (multisim_experiment (param m)).
  - destruct (cmd_publisher m) as [cp|]; [|discriminate].
    intros H; injection H as <-. repeat split; simpl; auto.
  - intros H; injection H as <-. repeat split; simpl; auto.
Qed.

Lemma setCurrentState_frame (m : AgentManager) (s : State) :
  same_frame m (setCurrentState m s) /\ has_current_state (setCurrentState m s) = true.
Proof. unfold setCurrentState. repeat split; simpl; auto. Qed.

(** The member functions return on a well-formed manager. *)
Lemma doStep_total (m : AgentManager) (time_step : R) :
  well_formed m ->
  exists m', doStep m time_step = Some m'
             /\ well_formed m' /\ has_current_state m' = true
             /\ has_obstacles m' = has_obstacles m.
Proof.
  intros Hwf.
  assert (Hex : exists m', doStep m time_step = Some m'
                           /\ has_current_state m' = true
                           /\ has_obstacles m' = has_obstacles m).
  { destruct Hwf as [Hcp _]. unfold doStep.
    destruct (multisim_experiment (param m)).
    - specialize (Hcp eq_refl).
      destruct (cmd_publisher m) as [cp|]; [|congruence]. simpl.
      destruct (isDisturbed cp); simpl;
        destruct (world_dimension (param m) =? 2)%Z; simpl;
        destruct (world_use_global_map (param m)); simpl;
        eexists; (split; [reflexivity|]); split; reflexivity.
    - simpl.
      destruct (world_dimension (param m) =? 2)%Z; simpl;
        destruct (world_use_global_map (param m)); simpl;
        eexists; (split; [reflexivity|]); split; reflexivity. }
  destruct Hex as (m' & Hd & Hs & Ho). exists m'.
  split; [exact Hd|]. split; [|split; assumption].
  eapply same_frame_well_formed; [eapply doStep_frame; exact Hd | exact Hwf].
Qed.

Lemma obstacleCallback_total (m : AgentManager) (o : list (Obstacle Pose Twist)) :
  well_formed m ->
  exists m', obstacleCallback m o = Some m'
             /\ well_formed m' /\ has_obstacles m' = true
             /\ has_current_state m' = has_current_state m.
Proof.
  intros Hwf.
  assert (Hex : exists m', obstacleCallback m o = Some m'
                           /\ has_current_state m' = has_current_state m).
  { destruct Hwf as [Hcp _]. unfold obstacleCallback.
    destruct (multisim_experiment (param m)).
    - specialize (Hcp eq_refl).
      destruct (cmd_publisher m) as [cp|]; [|congruence].
      eexists; split; reflexivity.
    - eexists; split; reflexivity. }
  destruct Hex as (m' & Hd & Hs). exists m'.
  destruct (obstacleCallback_frame _ _ _ Hd) as [Hf Ho].
  split; [exact Hd|]. split; [|split; assumption].
  eapply same_frame_well_formed; eassumption.
Qed.

(** ** Planning *)

(** [plan] with incomplete inputs: the early return, whatever the state. *)
Lemma plan_inputs_incomplete (m : AgentManager) (t : Time) :
  has_obstacles m = false \/ has_current_state m = false ->
  plan m t = Some (WAITFORROSMSG, m).
Proof.
  intros H. unfold plan.
  destruct (has_obstacles m), (has_current_state m); simpl;
    try reflexivity; destruct H; discriminate.
Qed.

(** [planningStateTransition] returns on a well-formed manager. *)
Lemma planningStateTransition_total (m : AgentManager) :
  well_formed m ->
  exists m', planningStateTransition m = Some m'
             /\ param m' = param m /\ cmd_publisher m' = cmd_publisher m.
Proof.
  intros [_ Hidx]. unfold planningStateTransition.
  destruct (agents_at (mission m) (id (agent m))) as [a|]; [|congruence].
  destruct (PlannerState_eqb (planner_state m) GOTO);
    [eexists; split; [reflexivity | split; reflexivity]|].
  destruct (PlannerState_eqb (planner_state m) PATROL && _);
    [eexists; split; [reflexivity | split; reflexivity]|].
  destruct (PlannerState_eqb (planner_state m) GOBACK);
    eexists; split; try reflexivity; split; reflexivity.
Qed.

(** [plan] with complete inputs on a well-formed manager: it returns
    [SUCCESS] and clears both input flags. *)
Lemma plan_inputs_complete (m : AgentManager) (t : Time) :
  well_formed m ->
  has_obstacles m = true -> has_current_state m = true ->
  exists m', plan m t = Some (SUCCESS, m')
             /\ has_obstacles m' = false /\ has_current_state m' = false.
Proof.
  intros Hwf Ho Hs. unfold plan. rewrite Ho, Hs. simpl.
  destruct (multisim_experiment (param m) && PlannerState_eqb (planner_state m) LAND)
    eqn:Hland.
  - apply andb_prop in Hland as [Hmulti _].
    destruct Hwf as [Hcp _]. specialize (Hcp Hmulti).
    destruct (cmd_publisher m) as [cp|]; [|congruence].
    eexists; split; [reflexivity | split; reflexivity].
  - destruct (planningStateTransition_total m Hwf) as (m1 & -> & Hp & Hc).
    destruct (TrajPlanner_plan _ _ _ _ _) as [traj tp]. simpl.
    rewrite Hp.
    destruct (multisim_experiment (param m)) eqn:Hmulti.
    + destruct Hwf as [Hcp _]. specialize (Hcp Hmulti).
      rewrite Hc.
      destruct (cmd_publisher m) as [cp|]; [|congruence].
      eexists; split; [reflexivity | split; reflexivity].
    + eexists; split; [reflexivity | split; reflexivity].
Qed.

(** One tick: once the obstacle array and the current state have arrived,
    [plan] reports [SUCCESS]; planned again before anything new arrives, it
    reports [WAITFORROSMSG]. *)
Lemma plan_after_inputs (m : AgentManager) (o : list (Obstacle Pose Twist))
    (time_step : R) (t : Time) :
  well_formed m ->
  exists m1 m2 m3,
    obstacleCallback m o = Some m1
    /\ doStep m1 time_step = Some m2
    /\ plan m2 t = Some (SUCCESS, m3)
    /\ well_formed m3
    /\ forall t', plan m3 t' = Some (WAITFORROSMSG, m3).
Proof.
  intros Hwf.
  destruct (obstacleCallback_total m o Hwf) as (m1 & H1 & Hwf1 & Ho1 & _).
  destruct (doStep_total m1 time_step Hwf1) as (m2 & H2 & Hwf2 & Hs2 & Ho2).
  rewrite Ho1 in Ho2.
  destruct (plan_inputs_complete m2 t Hwf2 Ho2 Hs2) as (m3 & H3 & Ho3 & _).
  exists m1, m2, m3. repeat (split; [assumption|]). split.
  - eapply same_frame_well_formed; [eapply plan_frame; exact H3 | exact Hwf2].
  - intros t'. apply plan_inputs_incomplete. now left.
Qed.

(** C3: [plan] returns [WAITFORROSMSG] exactly when an input flag is down
    ([has_obstacles] or [has_current_state] false), and its result is always
    one of the five planning reports. *)
Theorem plan_waits_iff_inputs_incomplete (m : AgentManager) (t : Time) :
  well_formed m ->
  exists r m',
    plan m t = Some (r, m')
    /\ (r = WAITFORROSMSG <-> has_obstacles m = false \/ has_current_state m = false)
    /\ In r [WAITFORROSMSG; SUCCESS; INITTRAJGENERATIONFAIL;
             CONSTRAINTGENERATIONFAIL; QPFAIL].
Proof.
  intros Hwf.
  destruct (has_obstacles m) eqn:Ho; [destruct (has_current_state m) eqn:Hs|].
  - destruct (plan_inputs_complete m t Hwf Ho Hs) as (m' & Hp & _).
    exists SUCCESS, m'. split; [exact Hp|]. split.
    + split; [discriminate | intros [H|H]; discriminate].
    + simpl; auto.
  - exists WAITFORROSMSG, m. split.
    + apply plan_inputs_incomplete; auto.
    + split; [split; auto | simpl; auto].
  - exists WAITFORROSMSG, m. split.
    + apply plan_inputs_incomplete; auto.
    + split; [split; auto | simpl; auto].
Qed.

(** C10: [plan] reports only [WAITFORROSMSG] (inputs incomplete, manager
    untouched) or [SUCCESS] (every other case); after [SUCCESS] both input
    flags are down, so that planning again without fresh inputs reports
    [WAITFORROSMSG]. *)
Theorem plan_reports_wait_or_success (m : AgentManager) (t : Time) :
  well_formed m ->
  exists r m',
    plan m t = Some (r, m')
    /\ (r = WAITFORROSMSG \/ r = SUCCESS)
    /\ (has_obstacles m = false \/ has_current_state m = false ->
        r = WAITFORROSMSG /\ m' = m)
    /\ (has_obstacles m = true /\ has_current_state m = true -> r = SUCCESS)
    /\ (r <> WAITFORROSMSG ->
        has_obstacles m' = false /\ has_current_state m' = false
        /\ forall t', plan m' t' = Some (WAITFORROSMSG, m')).
Proof.
  intros Hwf.
  destruct (has_obstacles m) eqn:Ho; [destruct (has_current_state m) eqn:Hs|].
  - destruct (plan_inputs_complete m t Hwf Ho Hs) as (m' & Hp & Ho' & Hs').
    exists SUCCESS, m'.
    split; [exact Hp|]. split; [now right|].
    split; [intros [H|H]; discriminate|].
    split; [reflexivity|].
    intros _. split; [exact Ho'|]. split; [exact Hs'|].
    intros t'. apply plan_inputs_incomplete. now left.
  - exists WAITFORROSMSG, m.
    split; [apply plan_inputs_incomplete; now right|]. split; [now left|].
    split; [now split|].
    split; [intros [_ H]; discriminate|].
    intros H. congruence.
  - exists WAITFORROSMSG, m.
    split; [apply plan_inputs_incomplete; now left|]. split; [now left|].
    split; [now split|].
    split; [intros [H _]; discriminate|].
    intros H. congruence.
Qed.

(** C7: in state [PATROL], the transition run before planning swaps
    [start_point] and [desired_goal_point] when the desired goal is closer to
    the current position than [goal_threshold], and changes nothing
    otherwise. *)
Theorem patrol_swaps_start_and_goal (m : AgentManager) :
  planner_state m = PATROL ->
  exists m',
    planningStateTransition m = Some m'
    /\ (distance (desired_goal_point (agent m)) (position (current_state (agent m)))
          < goal_threshold (param m) ->
        desired_goal_point (agent m') = start_point (agent m)
        /\ start_point (agent m') = desired_goal_point (agent m))
    /\ (~ distance (desired_goal_point (agent m)) (position (current_state (agent m)))
            < goal_threshold (param m) ->
        m' = m).
Proof.
  intros Hst. unfold planningStateTransition. rewrite Hst. simpl.
  unfold Rltb.
  destruct (Rlt_dec _ _) as [Hlt | Hge].
  - eexists. split; [reflexivity|]. split.
    + intros _. split; reflexivity.
    + intros Hn. contradiction.
  - exists m. split; [reflexivity|]. split.
    + intros Hlt. contradiction.
    + reflexivity.
Qed.

(** C8, as the code has it: [setPlannerState] leaves the planner state alone
    exactly when the coupling with the command executor is enabled
    ([multisim_experiment]), the state is [LAND] and the executor has not
    reported the landing finished; in every other situation the state
    becomes the requested one. *)
Theorem setPlannerState_ignored_while_landing
    (m : AgentManager) (new_planner_state : PlannerState) :
  well_formed m ->
  exists m',
    setPlannerState m new_planner_state = Some m'
    /\ (multisim_experiment (param m) = true /\ planner_state m = LAND
         /\ landing_finished m = false ->
        m' = m)
    /\ (~ (multisim_experiment (param m) = true /\ planner_state m = LAND
            /\ landing_finished m = false) ->
        planner_state m' = new_planner_state).
Proof.
  intros [Hcp _]. unfold setPlannerState, landing_finished.
  destruct (multisim_experiment (param m)) eqn:Hmulti; simpl.
  - specialize (Hcp eq_refl).
    destruct (cmd_publisher m) as [cp|]; [|congruence].
    destruct (PlannerState_eqb (planner_state m) LAND) eqn:Hland.
    + apply PlannerState_eqb_eq in Hland.
      destruct (landingFinished cp) eqn:Hfin; simpl.
      * eexists. split; [reflexivity|]. split.
        -- intros (_ & _ & H). discriminate.
        -- reflexivity.
      * exists m. split; [reflexivity|]. split.
        -- reflexivity.
        -- intros Hn. exfalso. apply Hn. auto.
    + eexists. split; [reflexivity|]. split.
      * intros (_ & H & _). apply PlannerState_eqb_eq in H. congruence.
      * reflexivity.
  - eexists. split; [reflexivity|]. split.
    + intros (H & _). discriminate.
    + reflexivity.
Qed.

(** C4, as the code has it: when the command executor reports a disturbance,
    [doStep] sets the velocity and the acceleration to zero and the position
    to the observed one, whose [z] is then replaced by [world_z_2d] in a
    two-dimensional world; the state integrated from the trajectory is not
    used, whatever the trajectory. *)
Theorem doStep_disturbed_overrides_state
    (m : AgentManager) (time_step : R) (cp : CmdPublisher) :
  multisim_experiment (param m) = true ->
  cmd_publisher m = Some cp ->
  isDisturbed cp = true ->
  let observed := getObservedAgentPosition cp in
  let s :=
    mkState (if (world_dimension (param m) =? 2)%Z
             then mkPoint3d (x observed) (y observed) (world_z_2d (param m))
             else observed)
            (mkPoint3d 0 0 0) (mkPoint3d 0 0 0) in
  exists m',
    doStep m time_step = Some m'
    /\ current_state (agent m') = s
    /\ is_disturbed m' = true
    /\ has_current_state m' = true
    /\ forall traj,
         exists m'', doStep (set_desired_traj m traj) time_step = Some m''
                     /\ current_state (agent m'') = s.
Proof.
  intros Hmulti Hcp Hdist observed s.
  assert (Hstep : forall m0 : AgentManager,
             param m0 = param m -> cmd_publisher m0 = Some cp ->
             exists m', doStep m0 time_step = Some m'
                        /\ current_state (agent m') = s
                        /\ is_disturbed m' = true
                        /\ has_current_state m' = true).
  { intros m0 Hp Hc. unfold doStep. rewrite Hp, Hmulti, Hc. simpl.
    rewrite Hdist. simpl. rewrite Hp. subst s observed.
    destruct (world_dimension (param m) =? 2)%Z; simpl; rewrite Hp;
      destruct (world_use_global_map (param m)); simpl;
      eexists; (split; [reflexivity|]); simpl; auto. }
  destruct (Hstep m eq_refl Hcp) as (m' & H1 & H2 & H3 & H4).
  exists m'. repeat (split; [assumption|]).
  intros traj.
  destruct (Hstep (set_desired_traj m traj) eq_refl Hcp) as (m'' & H1' & H2' & _).
  exists m''. split; assumption.
Qed.

End ManagerProperties.

(** ** Runs of the manager on the test double *)

Section ManagerRuns.

Import Geometry.
Import Agent_manager.

Lemma m_plain_well_formed st pos start goal :
  well_formed (m_plain st pos start goal).
Proof. split; [intros H; discriminate H | simpl; discriminate]. Qed.

Lemma m_coupled_well_formed dim st disturbed finished :
  well_formed (m_coupled dim st disturbed finished).
Proof. split; [intros _; simpl; discriminate | simpl; discriminate]. Qed.

Lemma plan_waits_iff_inputs_incomplete_witness :
  exists r m',
    plan (m_plain GOTO origin origin origin) tt = Some (r, m')
    /\ (r = WAITFORROSMSG <->
        has_obstacles (m_plain GOTO origin origin origin) = false
        \/ has_current_state (m_plain GOTO origin origin origin) = false)
    /\ In r [WAITFORROSMSG; SUCCESS; INITTRAJGENERATIONFAIL;
             CONSTRAINTGENERATIONFAIL; QPFAIL].
Proof.
  apply (plan_waits_iff_inputs_incomplete (m_plain GOTO origin origin origin) tt).
  split; [intros H; discriminate H | simpl; discriminate].
Defined.

Lemma plan_reports_wait_or_success_witness :
  exists r m',
    plan (m_coupled 3 LAND false false) tt = Some (r, m')
    /\ (r = WAITFORROSMSG \/ r = SUCCESS)
    /\ (has_obstacles (m_coupled 3 LAND false false) = false
        \/ has_current_state (m_coupled 3 LAND false false) = false ->
        r = WAITFORROSMSG /\ m' = m_coupled 3 LAND false false)
    /\ (has_obstacles (m_coupled 3 LAND false false) = true
        /\ has_current_state (m_coupled 3 LAND false false) = true -> r = SUCCESS)
    /\ (r <> WAITFORROSMSG ->
        has_obstacles m' = false /\ has_current_state m' = false
        /\ forall t', plan m' t' = Some (WAITFORROSMSG, m')).
Proof.
  apply (plan_reports_wait_or_success (m_coupled 3 LAND false false) tt).
  split; [intros _; simpl; discriminate | simpl; discriminate].
Defined.

Lemma patrol_swaps_start_and_goal_witness :
  let m := m_plain PATROL (mkPoint3d 5 0 1) (mkPoint3d 0 0 1) (mkPoint3d 5 0 1) in
  exists m',
    planningStateTransition m = Some m'
    /\ (distance (desired_goal_point (agent m)) (position (current_state (agent m)))
          < goal_threshold (param m) ->
        desired_goal_point (agent m') = start_point (agent m)
        /\ start_point (agent m') = desired_goal_point (agent m))
    /\ (~ distance (desired_goal_point (agent m)) (position (current_state (agent m)))
            < goal_threshold (param m) ->
        m' = m).
Proof.
  intros m. apply (patrol_swaps_start_and_goal m). reflexivity.
Defined.

Lemma setPlannerState_ignored_while_landing_witness :
  let m := m_coupled 3 LAND false false in
  exists m',
    setPlannerState m GOTO = Some m'
    /\ (multisim_experiment (param m) = true /\ planner_state m = LAND
         /\ landing_finished m = false ->
        m' = m)
    /\ (~ (multisim_experiment (param m) = true /\ planner_state m = LAND
            /\ landing_finished m = false) ->
        planner_state m' = GOTO).
Proof.
  intros m. apply (setPlannerState_ignored_while_landing m GOTO).
  split; [intros _; simpl; discriminate | simpl; discriminate].
Defined.

(** The patrol scenario of the spec: the agent has reached the goal
    [(5,0,1)] of a patrol started at [(0,0,1)]; the transition swaps the
    two. *)
Lemma patrol_cycle_run :
  exists m',
    planningStateTransition
      (m_plain PATROL (mkPoint3d 5 0 1) (mkPoint3d 0 0 1) (mkPoint3d 5 0 1))
    = Some m'
    /\ start_point (agent m') = mkPoint3d 5 0 1
    /\ desired_goal_point (agent m') = mkPoint3d 0 0 1.
Proof.
  unfold planningStateTransition, m_plain, mock_manager. simpl.
  unfold Rltb, distance. simpl.
  replace ((5 - 5) * (5 - 5) + (0 - 0) * (0 - 0) + (1 - 1) * (1 - 1)) with 0 by ring.
  rewrite sqrt_0.
  destruct (Rlt_dec 0 (1 / 4)) as [_ | H]; [|exfalso; lra].
  eexists. split; [reflexivity|]. split; reflexivity.
Qed.

(** C8 as stated fails without the coupling: in state [LAND], with no
    landing reported finished, the requested state is taken. *)
Lemma setPlannerState_land_uncoupled_counterexample :
  planner_state (m_plain LAND origin origin origin) = LAND
  /\ landing_finished (m_plain LAND origin origin origin) = false
  /\ exists m',
       setPlannerState (m_plain LAND origin origin origin) GOTO = Some m'
       /\ planner_state m' = GOTO
       /\ planner_state m' <> planner_state (m_plain LAND origin origin origin).
Proof.
  split; [reflexivity|]. split; [reflexivity|].
  eexists. split; [reflexivity|]. split; [reflexivity | simpl; discriminate].
Qed.

Lemma doStep_disturbed_overrides_state_witness :
  let m := m_coupled 2 GOTO true false in
  let s := mkState (mkPoint3d 0 0 1) (mkPoint3d 0 0 0) (mkPoint3d 0 0 0) in
  exists m',
    doStep m (1 / 2) = Some m'
    /\ current_state (agent m') = s
    /\ is_disturbed m' = true
    /\ has_current_state m' = true
    /\ forall traj,
         exists m'', doStep (set_desired_traj m traj) (1 / 2) = Some m''
                     /\ current_state (agent m'') = s.
Proof.
  intros m s.
  exact (@doStep_disturbed_overrides_state mock_collaborators m (1 / 2)
           (mkMockCmdPublisher true (mkPoint3d 0 0 5) false)
           eq_refl eq_refl eq_refl).
Defined.

(** C4 as stated fails in a two-dimensional world: the executor observes the
    agent at height 5, the plane height is 1, and the position after the
    step is the observed one moved to height 1. *)
Lemma doStep_disturbed_2d_counterexample :
  @isDisturbed mock_collaborators
     (mkMockCmdPublisher true (mkPoint3d 0 0 5) false) = true
  /\ exists m',
       doStep (m_coupled 2 GOTO true false) (1 / 2) = Some m'
       /\ position (current_state (agent m')) = mkPoint3d 0 0 1
       /\ position (current_state (agent m'))
          <> @getObservedAgentPosition mock_collaborators
               (mkMockCmdPublisher true (mkPoint3d 0 0 5) false).
Proof.
  split; [reflexivity|].
  eexists. split; [reflexivity|]. split; [reflexivity|].
  simpl. intros H. injection H as H. lra.
Qed.

End ManagerRuns.

(** * Further properties of the geometry kernel *)

(** ** Point and line *)

Lemma norm_one_sq (n : point3d) : norm n = 1 -> norm_sq n = 1.
Proof. intros H. rewrite <- norm_mult_self, H. ring. Qed.

Lemma norm_unit_axis : norm (mkPoint3d 1 0 0) = 1.
Proof. apply norm_eval; [lra | unfold norm_sq; simpl; ring]. Qed.

Lemma distance_line_point_sq (point q n : point3d) (s : R) :
  norm_sq (point [-] (q [+] n [*] s))
  = norm_sq (point [-] q) - 2 * s * dot (point [-] q) n + s * s * norm_sq n.
Proof. unfold norm_sq, dot, padd, psub, pscale; simpl; ring. Qed.

(** The second point returned is on the line, at the parameter of the
    projection of the point, whatever the length of the direction. *)
Lemma closestPointsBetweenPointAndLine_on_line
    (point line_point line_direction : point3d) :
  closest_point2 (closestPointsBetweenPointAndLine point line_point line_direction)
  = line_point [+] line_direction [*] dot (point [-] line_point) line_direction.
Proof.
  apply point3d_ext; unfold closestPointsBetweenPointAndLine, dot, padd, psub, pscale;
    simpl; ring.
Qed.

Lemma closestPointsBetweenPointAndLine_dist_least
    (point line_point line_direction : point3d) (s : R) :
  norm_sq line_direction = 1 ->
  dist (closestPointsBetweenPointAndLine point line_point line_direction)
  <= norm (point [-] (line_point [+] line_direction [*] s)).
Proof.
  intros Hn. cbn [dist closestPointsBetweenPointAndLine].
  apply norm_le_sq. rewrite distance_line_point_sq, Hn.
  set (w := point [-] line_point).
  replace (norm_sq (line_point [-] point
                    [-] line_direction [*] dot (line_point [-] point) line_direction))
    with (norm_sq w - 2 * dot w line_direction * dot w line_direction
          + dot w line_direction * dot w line_direction * norm_sq line_direction)
    by (unfold w, norm_sq, dot, padd, psub, pscale; simpl; ring).
  rewrite Hn. pose proof (Rsq_nonneg (s - dot w line_direction)). lra.
Qed.

(** X1: for a direction of unit length, [closestPointsBetweenPointAndLine]
    returns the point itself and the foot of the perpendicular from it to
    the line: the second point is on the line, the segment joining the two
    points is orthogonal to the direction, [dist] is the distance between
    the two points, and no point of the line is nearer to the point. *)
Theorem closestPointsBetweenPointAndLine_foot
    (point line_point line_direction : point3d) :
  norm line_direction = 1 ->
  let c := closestPointsBetweenPointAndLine point line_point line_direction in
  closest_point1 c = point
  /\ closest_point2 c
     = line_point [+] line_direction [*] dot (point [-] line_point) line_direction
  /\ dot (closest_point2 c [-] point) line_direction = 0
  /\ dist c = distance point (closest_point2 c)
  /\ forall s, dist c <= distance point (line_point [+] line_direction [*] s).
Proof.
  intros Hn c. apply norm_one_sq in Hn.
  pose proof (closestPointsBetweenPointAndLine_on_line point line_point line_direction)
    as Hcp. fold c in Hcp.
  split; [reflexivity|]. split; [exact Hcp|]. split; [|split].
  - rewrite Hcp.
    replace (dot (line_point [+] line_direction
                    [*] dot (point [-] line_point) line_direction [-] point)
                 line_direction)
      with (dot (point [-] line_point) line_direction * (norm_sq line_direction - 1))
      by (unfold norm_sq, dot, padd, psub, pscale; simpl; ring).
    rewrite Hn. ring.
  - unfold c. simpl. symmetry. apply distance_padd.
  - intros s. rewrite distance_norm.
    apply closestPointsBetweenPointAndLine_dist_least. exact Hn.
Qed.

(** ** Point and ray *)

(** X2: for a direction of unit length, the [dist] that
    [closestPointsBetweenPointAndRay] returns is the least distance from the
    point to the ray, attained at the parameter [max (t, 0)] where [t] is
    the parameter of the projection of the point; when the point projects
    on the ray ([0 <= t]) the second point returned is that nearest point
    and [dist] is the distance between the two points returned. *)
Theorem closestPointsBetweenPointAndRay_least_distance
    (point ray_start ray_direction : point3d) :
  norm ray_direction = 1 ->
  let c := closestPointsBetweenPointAndRay point ray_start ray_direction in
  let t := dot (point [-] ray_start) ray_direction in
  closest_point1 c = point
  /\ dist c = distance point (ray_start [+] ray_direction [*] Rmax t 0)
  /\ (forall s, 0 <= s ->
        dist c <= distance point (ray_start [+] ray_direction [*] s))
  /\ (0 <= t ->
      closest_point2 c = ray_start [+] ray_direction [*] t
      /\ dist c = distance (closest_point1 c) (closest_point2 c)).
Proof.
  intros Hn c t. apply norm_one_sq in Hn.
  assert (Hahead : 0 <= t ->
            closest_point1 c = point
            /\ closest_point2 c = ray_start [+] ray_direction [*] t
            /\ dist c = distance (closest_point1 c) (closest_point2 c)).
  { intros Ht.
    assert (Hnot : ~ dot (point [-] ray_start) ray_direction < 0) by (fold t; lra).
    destruct (closestPointsBetweenPointAndRay_ahead point ray_start ray_direction Hnot)
      as [H1 H2].
    split; [exact H1|]. split; [exact H2|].
    apply (closestPointsBetweenPointAndRay_dist_ahead point ray_start ray_direction Hnot). }
  split; [|split; [|split]].
  - unfold c, closestPointsBetweenPointAndRay. destruct (Rlt_dec _ _); reflexivity.
  - destruct (Rlt_dec t 0) as [Hneg | Hpos].
    + rewrite Rmax_right by lra. unfold c.
      rewrite (closestPointsBetweenPointAndRay_behind _ _ _ Hneg).
      cbn [dist]. rewrite distance_norm. f_equal.
      apply point3d_ext; unfold padd, psub, pscale; simpl; ring.
    + rewrite Rmax_left by lra.
      destruct Hahead as (H1 & H2 & Hd); [lra|]. rewrite Hd, H1, H2. reflexivity.
  - intros s Hs. rewrite distance_norm.
    apply closestPointsBetweenPointAndRay_dist_least; assumption.
  - intros Ht. destruct (Hahead Ht) as (_ & H2 & Hd). split; assumption.
Qed.

(** ** Point and line segment *)

Lemma path_point_rel (point : point3d) (line : Line) (s : R) :
  (start_point line [-] point)
  [+] ((end_point line [-] point) [-] (start_point line [-] point)) [*] s
  = path_point line s [-] point.
Proof. apply point3d_ext; unfold path_point, padd, psub, pscale; simpl; ring. Qed.

Lemma norm_psub_sym (a b : point3d) : norm (a [-] b) = norm (b [-] a).
Proof. rewrite <- !distance_norm. apply distance_sym. Qed.

(** The point returned on the segment, by its parameter. *)
Lemma closestPointsBetweenPointAndLineSegment_closest (point : point3d) (line : Line) :
  exists t,
    0 <= t <= 1
    /\ closestPointsBetweenPointAndLineSegment point line
       = mkClosestPoints (distance point (path_point line t)) point (path_point line t)
    /\ forall s, 0 <= s <= 1 ->
         distance point (path_point line t) <= distance point (path_point line s).
Proof.
  destruct (closestPointsBetweenPointAndLineSegment_cases point line) as (t & Hmin & Hc).
  exists t. split; [eapply segment_minimiser_range; exact Hmin|]. split.
  - rewrite Hc. rewrite path_point_rel.
    replace (path_point line t [-] point [+] point) with (path_point line t)
      by (apply point3d_ext; unfold padd, psub; simpl; ring).
    rewrite distance_norm, norm_psub_sym. reflexivity.
  - intros s Hs. rewrite !distance_norm, !(norm_psub_sym point), <- !path_point_rel.
    apply norm_le_sq. apply segment_minimiser_least; assumption.
Qed.

(** X3: [closestPointsBetweenPointAndLineSegment] returns the point itself
    and a point of the segment, at parameter [t] in [[0, 1]], that is at
    the least distance from the point among the points of the segment;
    [dist] is the distance between the two points returned.  A segment
    whose two ends are equal is included. *)
Theorem closestPointsBetweenPointAndLineSegment_least (point : point3d) (line : Line) :
  let c := closestPointsBetweenPointAndLineSegment point line in
  closest_point1 c = point
  /\ dist c = distance (closest_point1 c) (closest_point2 c)
  /\ (exists t, 0 <= t <= 1 /\ closest_point2 c = path_point line t)
  /\ forall s, 0 <= s <= 1 -> dist c <= distance point (path_point line s).
Proof.
  intros c.
  destruct (closestPointsBetweenPointAndLineSegment_closest point line)
    as (t & Ht & Hc & Hleast).
  fold c in Hc. rewrite Hc. cbn [dist closest_point1 closest_point2].
  split; [reflexivity|]. split; [reflexivity|].
  split; [exists t; split; [exact Ht | reflexivity]|]. exact Hleast.
Qed.

(** ** Two moving points *)

Lemma segment_minimiser_unique (a b a' b' : point3d) (t t' : R) :
  dot a' (b' [-] a') = dot a (b [-] a) ->
  norm_sq (b' [-] a') = norm_sq (b [-] a) ->
  segment_minimiser a b t -> segment_minimiser a' b' t' -> t = t'.
Proof.
  intros Hq HD Ht Ht'. unfold segment_minimiser in *. cbv zeta in *.
  rewrite Hq, HD in Ht'.
  assert (Hab : a = b -> norm_sq (b [-] a) = 0 /\ dot a (b [-] a) = 0).
  { intros ->. split; unfold norm_sq, dot, psub; simpl; ring. }
  assert (Hab' : a' = b' -> norm_sq (b [-] a) = 0 /\ dot a (b [-] a) = 0).
  { intros He. rewrite <- HD, <- Hq, He. split; unfold norm_sq, dot, psub; simpl; ring. }
  assert (HD0 : a <> b -> 0 < norm_sq (b [-] a))
    by (intros H; apply norm_sq_pos, psub_neq_zero, H).
  assert (HD0' : a' <> b' -> 0 < norm_sq (b [-] a))
    by (intros H; rewrite <- HD; apply norm_sq_pos, psub_neq_zero, H).
  set (q := dot a (b [-] a)) in *. set (D := norm_sq (b [-] a)) in *.
  destruct Ht as [[-> Hc] | [[-> [Hne Hc]] | (Hne & Hc & ->)]];
    destruct Ht' as [[-> Hc'] | [[-> [Hne' Hc']] | (Hne' & Hc' & ->)]];
    try reflexivity; exfalso;
    try (match goal with H : a <> b |- _ => specialize (HD0 H) end);
    try (match goal with H : a' <> b' |- _ => specialize (HD0' H) end);
    repeat match goal with H : _ = _ \/ _ |- _ => destruct H as [H | H] end;
    try (match goal with H : a = b |- _ => destruct (Hab H) end);
    try (match goal with H : a' = b' |- _ => destruct (Hab' H) end);
    try contradiction; lra.
Qed.

Lemma relative_position_swap (line1 line2 : Line) (t : R) :
  relative_position line2 line1 t = pneg (relative_position line1 line2 t).
Proof.
  apply point3d_ext; unfold relative_position, path_point, pneg, padd, psub, pscale;
    simpl; ring.
Qed.

Lemma closestPointsBetweenLinePaths_swapped (line1 line2 : Line) :
  closestPointsBetweenLinePaths line2 line1
  = swap_closest_points (closestPointsBetweenLinePaths line1 line2).
Proof.
  destruct (closestPointsBetweenLinePaths_cases line1 line2) as (t & Hmin & ->).
  destruct (closestPointsBetweenLinePaths_cases line2 line1) as (t' & Hmin' & ->).
  assert (Ht : t = t').
  { eapply segment_minimiser_unique; [| | exact Hmin | exact Hmin'].
    - unfold dot, psub; simpl; ring.
    - unfold norm_sq, psub; simpl; ring. }
  subst t'. unfold swap_closest_points. cbn [dist closest_point1 closest_point2].
  rewrite relative_position_swap, norm_pneg. reflexivity.
Qed.

(** X4: [closestPointsBetweenLinePaths] returns the positions of the two
    moving points at one common fraction [t] of the horizon, in [[0, 1]],
    at which their distance is least over the horizon; [dist] is the
    distance between the two points returned, and swapping the two paths
    swaps the two points and keeps the distance. *)
Theorem closestPointsBetweenLinePaths_closest_approach (line1 line2 : Line) :
  let c := closestPointsBetweenLinePaths line1 line2 in
  (exists t,
     0 <= t <= 1
     /\ closest_point1 c = path_point line1 t
     /\ closest_point2 c = path_point line2 t)
  /\ dist c = distance (closest_point1 c) (closest_point2 c)
  /\ (forall s, 0 <= s <= 1 ->
        dist c <= distance (path_point line1 s) (path_point line2 s))
  /\ closestPointsBetweenLinePaths line2 line1
     = mkClosestPoints (dist c) (closest_point2 c) (closest_point1 c).
Proof.
  intros c.
  destruct (closestPointsBetweenLinePaths_least line1 line2)
    as (t & Ht & H1 & H2 & _ & Hleast).
  fold c in H1, H2, Hleast.
  split; [exists t; auto|]. split; [|split].
  - apply closestPointsBetweenLinePaths_dist.
  - intros s Hs. rewrite distance_sym. apply (Hleast s Hs).
  - apply closestPointsBetweenLinePaths_swapped.
Qed.

(** ** Collision time: range, earlier times, symmetry *)

(** X5: over a positive horizon, whatever rounding does to the comparison
    [delta == b], the time [computeCollisionTime] returns is [SP_INFINITY]
    or at most the horizon, and at every time of the horizon before it the
    two moving points are farther apart than the radius.  When the closest
    approach is before the end of the path, or rounding has not spoiled the
    comparison, the time is moreover [SP_INFINITY] or within the horizon,
    and when the points come within the radius somewhere on the horizon it
    is within the horizon and the points are within the radius at that
    time. *)
Theorem computeCollisionTime_no_earlier_collision
    (SP_INFINITY : R) (delta_rounded : bool) (obs_path agent_path : Line)
    (collision_radius time_horizon : R) :
  0 < time_horizon ->
  let rel := relative_position obs_path agent_path in
  let result :=
    computeCollisionTime SP_INFINITY delta_rounded obs_path agent_path
                         collision_radius time_horizon in
  (result = SP_INFINITY \/ result <= time_horizon)
  /\ (forall alpha, 0 <= alpha <= 1 -> alpha * time_horizon < result ->
        collision_radius < norm (rel alpha))
  /\ (delta_rounded = false
      \/ (exists alpha, 0 <= alpha < 1 /\ norm (rel alpha) <= norm (rel 1)) ->
      (result = SP_INFINITY \/ 0 <= result <= time_horizon)
      /\ ((exists alpha, 0 <= alpha <= 1 /\ norm (rel alpha) <= collision_radius) ->
          0 <= result <= time_horizon
          /\ norm (rel (result / time_horizon)) <= collision_radius)).
Proof.
  intros HT rel result.
  destruct (closestPointsBetweenLinePaths_least obs_path agent_path)
    as (t & Ht & _ & _ & Hd & Hleast).
  fold rel in Hd, Hleast.
  destruct (Rle_dec (norm (rel 0)) collision_radius) as [Hstart | Hstart].
  - (* the points start within the radius *)
    assert (Hres : result = 0)
      by (apply computeCollisionTime_start_within; exact Hstart).
    rewrite Hres. split; [right; lra|]. split.
    + intros alpha [Ha _] Hlt. exfalso.
      assert (H : 0 <= alpha * time_horizon) by (apply Rmult_le_pos; lra). lra.
    + intros _. split; [right; lra|]. intros _. split; [lra|].
      replace (0 / time_horizon) with 0 by (field; lra). exact Hstart.
  - destruct (Rle_dec (dist (closestPointsBetweenLinePaths obs_path agent_path))
                      collision_radius) as [Hle | Hgt].
    + (* the points enter the radius *)
      pose proof (computeCollisionTime_entry SP_INFINITY delta_rounded obs_path
                    agent_path collision_radius time_horizon) as He.
      cbv zeta in He. fold rel in He. fold result in He.
      destruct He as (a & Ha & Hat & Hbefore & _ & Hgood & _ & Hany).
      * lra.
      * exists t. split; [exact Ht|]. rewrite <- Hd. exact Hle.
      * set (alpha_end :=
               1 - sqrt (collision_radius * collision_radius
                         - norm (rel 1) * norm (rel 1)) / norm (rel 1 [-] rel 0)) in *.
        assert (Hup : exists a', a' <= a /\ result = a' * time_horizon).
        { destruct Hany as [H | [H H']]; [exists a | exists alpha_end];
            split; try assumption; lra. }
        destruct Hup as (a' & Ha' & Hres).
        split; [right; rewrite Hres; nra|]. split.
        -- intros alpha Halpha Hlt. apply Hbefore. rewrite Hres in Hlt.
           apply Rmult_lt_reg_r in Hlt; [lra | exact HT].
        -- intros Hside. specialize (Hgood Hside).
           assert (Hrange : 0 <= result <= time_horizon) by (rewrite Hgood; split; nra).
           split; [right; exact Hrange|]. intros _. split; [exact Hrange|].
           replace (result / time_horizon) with a by (rewrite Hgood; field; lra).
           lra.
    + (* the points stay farther apart than the radius *)
      assert (Hfar : forall alpha, 0 <= alpha <= 1 ->
                       collision_radius < norm (rel alpha)).
      { intros alpha Halpha. specialize (Hleast alpha Halpha). lra. }
      assert (Hres : result = SP_INFINITY)
        by (apply computeCollisionTime_far; exact Hfar).
      split; [left; exact Hres|]. split.
      * intros alpha Halpha _. apply Hfar. exact Halpha.
      * intros _. split; [left; exact Hres|].
        intros (alpha & Halpha & Hin). specialize (Hfar alpha Halpha). lra.
Qed.

Lemma psub_swap (u v : point3d) : u [-] v = pneg (v [-] u).
Proof. apply point3d_ext; unfold psub, pneg; simpl; ring. Qed.

Lemma psub_pneg_pneg (u v : point3d) : pneg u [-] pneg v = pneg (u [-] v).
Proof. apply point3d_ext; unfold psub, pneg; simpl; ring. Qed.

Lemma dot_pneg_pneg (u v : point3d) : dot (pneg u) (pneg v) = dot u v.
Proof. unfold dot, pneg; simpl; ring. Qed.

Lemma pneg_inj (u v : point3d) : pneg u = pneg v -> u = v.
Proof.
  intros H. injection H as Hx Hy Hz. apply point3d_ext; lra.
Qed.

Lemma normalized_pneg (v : point3d) : normalized (pneg v) = pneg (normalized v).
Proof.
  unfold normalized. rewrite norm_pneg.
  destruct (Rgt_dec (norm v) 0); [|reflexivity].
  apply point3d_ext; unfold pneg; simpl; unfold Rdiv; ring.
Qed.

Lemma float_vector_eqb_pneg (delta_rounded : bool) (u v : point3d) :
  float_vector_eqb delta_rounded (pneg u) (pneg v)
  = float_vector_eqb delta_rounded u v.
Proof.
  unfold float_vector_eqb.
  destruct (point3d_eq_dec (pneg u) (pneg v)) as [He | He];
    destruct (point3d_eq_dec u v) as [He' | He']; try reflexivity.
  - exfalso. apply He'. apply pneg_inj. exact He.
  - exfalso. apply He. rewrite He'. reflexivity.
Qed.

(** X6: exchanging the obstacle path and the agent path does not change the
    time [computeCollisionTime] returns.  Every vector of the computation
    is negated, which rounding respects, so that the comparison
    [delta == b] has the same outcome in both orders. *)
Theorem computeCollisionTime_symmetric
    (SP_INFINITY : R) (delta_rounded : bool) (path1 path2 : Line)
    (collision_radius time_horizon : R) :
  computeCollisionTime SP_INFINITY delta_rounded path2 path1
                       collision_radius time_horizon
  = computeCollisionTime SP_INFINITY delta_rounded path1 path2
                         collision_radius time_horizon.
Proof.
  unfold computeCollisionTime.
  rewrite (closestPointsBetweenLinePaths_swapped path1 path2).
  set (cp := closestPointsBetweenLinePaths path1 path2).
  unfold swap_closest_points. cbn [dist closest_point1 closest_point2].
  rewrite (psub_swap (start_point path1) (start_point path2)).
  rewrite (psub_swap (end_point path1) (end_point path2)).
  rewrite (psub_swap (closest_point1 cp) (closest_point2 cp)).
  set (a := start_point path2 [-] start_point path1).
  set (b := end_point path2 [-] end_point path1).
  set (delta := closest_point2 cp [-] closest_point1 cp).
  rewrite !norm_pneg, psub_pneg_pneg, normalized_pneg, norm_pneg, dot_pneg_pneg.
  rewrite pscale_pneg, psub_pneg_pneg, norm_pneg, float_vector_eqb_pneg.
  destruct (Rle_dec (dist cp) collision_radius); [|reflexivity].
  destruct (Rle_dec (norm a) collision_radius); reflexivity.
Qed.

(** X25: when the two moving points start farther apart than the radius,
    are closest at the end of the path and within the radius there, and
    rounding makes the comparison [delta == b] fail, [computeCollisionTime]
    evaluates the formula written for a closest approach inside the path,
    with the distance at the end for the distance to the line: it returns
    [(1 - sqrt (r^2 - |b|^2) / |b - a|) * time_horizon].  That time is not
    later than the time of entry, which is what is returned when the
    comparison succeeds; when the points end strictly within the radius
    while still approaching it is earlier, and the points are farther apart
    than the radius at that time. *)
Theorem computeCollisionTime_end_of_path_rounded
    (SP_INFINITY : R) (obs_path agent_path : Line)
    (collision_radius time_horizon : R) :
  let rel := relative_position obs_path agent_path in
  let alpha_end :=
    1 - sqrt (collision_radius * collision_radius - norm (rel 1) * norm (rel 1))
        / norm (rel 1 [-] rel 0) in
  collision_radius < norm (rel 0) ->
  norm (rel 1) <= collision_radius ->
  (forall alpha, 0 <= alpha < 1 -> norm (rel 1) < norm (rel alpha)) ->
  computeCollisionTime SP_INFINITY true obs_path agent_path
                       collision_radius time_horizon
  = alpha_end * time_horizon
  /\ exists alpha_entry,
       0 < alpha_entry <= 1
       /\ norm (rel alpha_entry) = collision_radius
       /\ computeCollisionTime SP_INFINITY false obs_path agent_path
                               collision_radius time_horizon
          = alpha_entry * time_horizon
       /\ alpha_end <= alpha_entry
       /\ (norm (rel 1) < collision_radius ->
           dot (rel 1) (rel 1 [-] rel 0) < 0 ->
           alpha_end < alpha_entry /\ collision_radius < norm (rel alpha_end)).
Proof.
  intros rel alpha_end Hstart Hend Hmin.
  assert (Hreach : exists alpha, 0 <= alpha <= 1 /\ norm (rel alpha) <= collision_radius)
    by (exists 1; split; [lra | exact Hend]).
  pose proof (computeCollisionTime_entry SP_INFINITY true obs_path agent_path
                collision_radius time_horizon) as Ht.
  pose proof (computeCollisionTime_entry SP_INFINITY false obs_path agent_path
                collision_radius time_horizon) as Hf.
  cbv zeta in Ht, Hf. fold rel in Ht, Hf. fold alpha_end in Ht, Hf.
  destruct (Ht Hstart Hreach) as (a & Ha & Hat & Hbefore & Hsmall & _ & Hslip & _).
  destruct (Hf Hstart Hreach) as (a' & Ha' & Hat' & _ & Hsmall' & Hgood & _).
  assert (Heq : a' = a).
  { specialize (Hsmall a' Hat'). specialize (Hsmall' a Hat). lra. }
  subst a'.
  destruct (Hslip eq_refl Hmin) as (Hres & Hle & Hlt).
  split; [exact Hres|].
  exists a. split; [exact Ha|]. split; [exact Hat|].
  split; [apply Hgood; left; reflexivity|]. split; [exact Hle|].
  intros Hin Happ. specialize (Hlt Hin Happ). split; [exact Hlt|].
  apply Hbefore. exact Hlt.
Qed.

(** ** Directions of a line *)

Lemma norm_normalized (v : point3d) : 0 < norm v -> norm (normalized v) = 1.
Proof.
  intros H. rewrite (normalized_scale v H).
  apply norm_eval; [lra|]. rewrite norm_sq_unit by exact H. ring.
Qed.

Lemma normalized_times_norm (v : point3d) : normalized v [*] norm v = v.
Proof.
  unfold normalized. destruct (Rgt_dec (norm v) 0) as [H | H].
  - apply point3d_ext; unfold pscale; simpl; field; lra.
  - assert (Hn : norm v = 0) by (pose proof (norm_nonneg v); lra).
    rewrite Hn. apply norm_zero_iff in Hn. rewrite Hn.
    apply point3d_ext; unfold pscale; simpl; ring.
Qed.

Lemma padd_psub_cancel (s e : point3d) : s [+] (e [-] s) = e.
Proof. apply point3d_ext; unfold padd, psub; simpl; ring. Qed.

(** X7: [lineDirection] throws exactly on a line whose two points are
    equal; otherwise it returns a vector of unit length with which the end
    of the line is its start moved by the length of the line, and
    [Line::direction] returns the same vector unless the length is below
    [SP_EPSILON_FLOAT], in which case it returns the zero vector.  The norm
    of what [Line::direction] returns is 0 or 1. *)
Theorem lineDirection_unit (SP_EPSILON_FLOAT : R) (line : Line) :
  (lineDirection line = None <-> start_point line = end_point line)
  /\ (forall d, lineDirection line = Some d ->
        norm d = 1
        /\ end_point line = start_point line [+] d [*] length line
        /\ (~ length line < SP_EPSILON_FLOAT -> direction SP_EPSILON_FLOAT line = d))
  /\ (length line < SP_EPSILON_FLOAT ->
      direction SP_EPSILON_FLOAT line = mkPoint3d 0 0 0)
  /\ (norm (direction SP_EPSILON_FLOAT line) = 0
      \/ norm (direction SP_EPSILON_FLOAT line) = 1).
Proof.
  set (v := end_point line [-] start_point line).
  assert (Hlen : length line = norm v) by apply distance_start_end.
  assert (Hzero : norm (mkPoint3d 0 0 0) = 0) by (apply norm_zero_iff; reflexivity).
  split; [|split; [|split]].
  - unfold lineDirection.
    destruct (point3d_eq_dec (start_point line) (end_point line)) as [He | He].
    + split; auto.
    + split; [discriminate | contradiction].
  - intros d. unfold lineDirection.
    destruct (point3d_eq_dec (start_point line) (end_point line)) as [He | He];
      [discriminate|].
    intros H. injection H as <-. fold v.
    assert (Hv : 0 < norm v) by (apply norm_pos, psub_neq_zero, He).
    split; [apply norm_normalized; exact Hv|]. split.
    + rewrite Hlen, normalized_times_norm. unfold v. symmetry. apply padd_psub_cancel.
    + intros Hge. unfold direction. fold v. rewrite <- Hlen.
      destruct (Rlt_dec (length line) SP_EPSILON_FLOAT); [contradiction | reflexivity].
  - intros Hlt. unfold direction. fold v. rewrite <- Hlen.
    destruct (Rlt_dec (length line) SP_EPSILON_FLOAT); [reflexivity | contradiction].
  - unfold direction. fold v.
    destruct (Rlt_dec (norm v) SP_EPSILON_FLOAT); [left; exact Hzero|].
    destruct (Rle_dec (norm v) 0) as [H0 | H0].
    + left. assert (Hn : norm v = 0) by (pose proof (norm_nonneg v); lra).
      unfold normalized. destruct (Rgt_dec (norm v) 0); [lra | exact Hn].
    + right. apply norm_normalized. lra.
Qed.

(** ** Two lines *)

Lemma lagrange_identity (u v : point3d) :
  norm_sq (cross u v) = norm_sq u * norm_sq v - dot u v * dot u v.
Proof. unfold norm_sq, cross, dot; simpl; ring. Qed.

(** Cauchy-Schwarz against a unit vector. *)
Lemma dot_unit_le_norm (u n : point3d) : norm_sq n = 1 -> Rabs (dot u n) <= norm u.
Proof.
  intros Hn.
  pose proof (lagrange_identity u n) as Hl. rewrite Hn in Hl.
  pose proof (norm_sq_nonneg (cross u n)) as Hc.
  pose proof (norm_mult_self u) as Hu. pose proof (norm_nonneg u) as Hu0.
  pose proof (Rabs_pos (dot u n)) as Ha.
  assert (Haa : Rabs (dot u n) * Rabs (dot u n) = dot u n * dot u n).
  { unfold Rabs. destruct (Rcase_abs _); ring. }
  destruct (Rle_dec (Rabs (dot u n)) (norm u)) as [H | H]; [exact H | exfalso].
  assert (Hlt : norm u * norm u < Rabs (dot u n) * Rabs (dot u n)) by nra.
  lra.
Qed.

Lemma distance_zero (a : point3d) : distance a a = 0.
Proof.
  rewrite distance_norm. apply norm_zero_iff.
  apply point3d_ext; unfold psub; simpl; ring.
Qed.

Lemma pneg_pneg (a : point3d) : pneg (pneg a) = a.
Proof. apply point3d_ext; unfold pneg; simpl; ring. Qed.

Lemma norm_sq_psub (u v : point3d) :
  norm_sq (u [-] v) = norm_sq u + norm_sq v - 2 * dot u v.
Proof. unfold norm_sq, dot, psub; simpl; ring. Qed.

Lemma dot_pneg_r (u v : point3d) : dot u (pneg v) = - dot u v.
Proof. unfold dot, pneg; simpl; ring. Qed.

(** Unit vectors that are neither equal nor opposite have a cross product
    that is not zero. *)
Lemma unit_cross_pos (m1 m2 : point3d) :
  norm_sq m1 = 1 -> norm_sq m2 = 1 ->
  0 < distance m1 m2 -> 0 < distance m1 (pneg m2) ->
  0 < norm (cross m2 m1) /\ dot m1 m2 * dot m1 m2 < 1.
Proof.
  intros H1 H2 Hd Hd'.
  rewrite distance_norm in Hd, Hd'.
  assert (Hs : 0 < norm_sq (m1 [-] m2)).
  { rewrite <- norm_mult_self. nra. }
  assert (Hs' : 0 < norm_sq (m1 [-] pneg m2)).
  { rewrite <- norm_mult_self. nra. }
  rewrite norm_sq_psub, H1, H2 in Hs.
  rewrite norm_sq_psub, H1, dot_pneg_r in Hs'.
  replace (norm_sq (pneg m2)) with 1 in Hs'
    by (rewrite <- H2; unfold norm_sq, pneg; simpl; ring).
  assert (Hc : dot m1 m2 * dot m1 m2 < 1) by nra.
  split; [|exact Hc].
  apply norm_pos. intros He.
  pose proof (lagrange_identity m2 m1) as Hl. rewrite He, H1, H2 in Hl.
  replace (norm_sq (mkPoint3d 0 0 0)) with 0 in Hl by (unfold norm_sq; simpl; ring).
  replace (dot m2 m1) with (dot m1 m2) in Hl by apply dot_comm.
  lra.
Qed.

Lemma norm_pscale_unit (n : point3d) (k : R) : norm_sq n = 1 -> norm (n [*] k) = Rabs k.
Proof.
  intros Hn. apply norm_eval; [apply Rabs_pos|].
  rewrite norm_sq_pscale, Hn. unfold Rabs. destruct (Rcase_abs k); ring.
Qed.

(** X8: for two lines whose points differ and whose unit directions are
    neither equal nor opposite within a positive [SP_EPSILON_FLOAT],
    [closestPointsBetweenLines] returns a point on each line; the segment
    joining them is orthogonal to both directions, [dist] is its length,
    and no two points of the two lines are nearer to each other. *)
Theorem closestPointsBetweenLines_common_perpendicular
    (SP_EPSILON_FLOAT : R) (line1 line2 : Line) :
  let n1 := normalized (end_point line1 [-] start_point line1) in
  let n2 := normalized (end_point line2 [-] start_point line2) in
  0 < SP_EPSILON_FLOAT ->
  start_point line1 <> end_point line1 ->
  start_point line2 <> end_point line2 ->
  ~ distance n1 n2 < SP_EPSILON_FLOAT ->
  ~ distance n1 (pneg n2) < SP_EPSILON_FLOAT ->
  exists c,
    closestPointsBetweenLines SP_EPSILON_FLOAT line1 line2 = Some c
    /\ (exists S, closest_point1 c = start_point line1 [+] n1 [*] S)
    /\ (exists T, closest_point2 c = start_point line2 [+] n2 [*] T)
    /\ dot (closest_point2 c [-] closest_point1 c) n1 = 0
    /\ dot (closest_point2 c [-] closest_point1 c) n2 = 0
    /\ dist c = distance (closest_point1 c) (closest_point2 c)
    /\ forall s t,
         dist c <= distance (start_point line1 [+] n1 [*] s)
                            (start_point line2 [+] n2 [*] t).
Proof.
  intros n1 n2 Heps Hne1 Hne2 Hd Hd'.
  assert (Hl1 : 0 < norm (end_point line1 [-] start_point line1))
    by (apply norm_pos, psub_neq_zero, Hne1).
  assert (Hl2 : 0 < norm (end_point line2 [-] start_point line2))
    by (apply norm_pos, psub_neq_zero, Hne2).
  assert (Hu1 : norm_sq n1 = 1)
    by (unfold n1; rewrite (normalized_scale _ Hl1); apply norm_sq_unit; exact Hl1).
  assert (Hu2 : norm_sq n2 = 1)
    by (unfold n2; rewrite (normalized_scale _ Hl2); apply norm_sq_unit; exact Hl2).
  destruct (unit_cross_pos n1 n2 Hu1 Hu2) as [Hm _]; [lra | lra |].
  unfold closestPointsBetweenLines.
  destruct (point3d_eq_dec (start_point line1) (end_point line1)) as [? | _];
    [contradiction|].
  destruct (point3d_eq_dec (start_point line2) (end_point line2)) as [? | _];
    [contradiction|].
  fold n1 n2. unfold Rltb.
  destruct (Rlt_dec (distance n1 n2) SP_EPSILON_FLOAT) as [? | _]; [contradiction|].
  destruct (Rlt_dec (distance n1 (pneg n2)) SP_EPSILON_FLOAT) as [? | _];
    [contradiction|].
  cbn [orb].
  set (n3 := normalized (cross n2 n1)).
  assert (Hn3 : n3 = cross n2 n1 [*] (/ norm (cross n2 n1)))
    by (apply normalized_scale; exact Hm).
  assert (Hu3 : norm_sq n3 = 1) by (rewrite Hn3; apply norm_sq_unit; exact Hm).
  assert (H13 : dot n1 n3 = 0)
    by (rewrite Hn3, dot_pscale_r, dot_cross_left; ring).
  assert (H23 : dot n2 n3 = 0)
    by (rewrite Hn3, dot_pscale_r, dot_cross_right; ring).
  set (delta := start_point line2 [-] start_point line1).
  fold (skew_matrix n1 n2 n3).
  assert (Hdet : determinant (skew_matrix n1 n2 n3) <> 0).
  { rewrite skew_matrix_determinant, Hn3.
    replace (dot (cross n2 n1 [*] (/ norm (cross n2 n1))) (cross n2 n1))
      with (norm_sq (cross n2 n1) * / norm (cross n2 n1))
      by (unfold dot, norm_sq, pscale; simpl; ring).
    rewrite <- norm_mult_self.
    replace (norm (cross n2 n1) * norm (cross n2 n1) * / norm (cross n2 n1))
      with (norm (cross n2 n1)) by (field; lra).
    lra. }
  pose proof (skew_solution_correct n1 n2 n3 delta Hdet) as Hsol. cbv zeta in Hsol.
  set (alphas := mul_vec (inverse (skew_matrix n1 n2 n3)) delta) in *.
  set (S := x alphas) in *. set (T := y alphas) in *. set (Z := z alphas) in *.
  assert (Hjoin : forall s t,
            start_point line2 [+] n2 [*] t [-] (start_point line1 [+] n1 [*] s)
            = n3 [*] Z [+] n2 [*] (t - T) [-] n1 [*] (s - S)).
  { intros s t.
    replace (start_point line2 [+] n2 [*] t [-] (start_point line1 [+] n1 [*] s))
      with (delta [+] n2 [*] t [-] n1 [*] s)
      by (apply point3d_ext; unfold delta, padd, psub, pscale; simpl; ring).
    rewrite <- Hsol. apply point3d_ext; unfold padd, psub, pscale; simpl; ring. }
  assert (Hjoin0 : start_point line2 [+] n2 [*] T [-] (start_point line1 [+] n1 [*] S)
                   = n3 [*] Z).
  { rewrite Hjoin. apply point3d_ext; unfold padd, psub, pscale; simpl; ring. }
  eexists. split; [reflexivity|]. cbn [dist closest_point1 closest_point2].
  split; [exists S; reflexivity|]. split; [exists T; reflexivity|].
  split; [|split; [|split]].
  - rewrite Hjoin0. rewrite dot_comm, dot_pscale_r, H13. ring.
  - rewrite Hjoin0. rewrite dot_comm, dot_pscale_r, H23. ring.
  - rewrite distance_sym, distance_norm, Hjoin0. symmetry.
    apply norm_pscale_unit. exact Hu3.
  - intros s t. rewrite distance_sym, distance_norm, Hjoin.
    eapply Rle_trans; [|apply (dot_unit_le_norm _ n3 Hu3)].
    replace (dot (n3 [*] Z [+] n2 [*] (t - T) [-] n1 [*] (s - S)) n3)
      with (Z * norm_sq n3 + (t - T) * dot n2 n3 - (s - S) * dot n1 n3)
      by (unfold norm_sq, dot, padd, psub, pscale; simpl; ring).
    rewrite Hu3, H13, H23.
    replace (Z * 1 + (t - T) * 0 - (s - S) * 0) with Z by ring. lra.
Qed.

(** X9: [closestPointsBetweenLines] throws exactly when one of the two
    lines has equal points (exact equality, with no tolerance).  For two
    lines with exactly equal or opposite unit directions and a positive
    [SP_EPSILON_FLOAT] it returns the start of the first line and the foot
    of the perpendicular from it on the second line: [dist] is the distance
    between the two points and the least distance between points of the two
    lines. *)
Theorem closestPointsBetweenLines_parallel
    (SP_EPSILON_FLOAT : R) (line1 line2 : Line) :
  let n1 := normalized (end_point line1 [-] start_point line1) in
  let n2 := normalized (end_point line2 [-] start_point line2) in
  (closestPointsBetweenLines SP_EPSILON_FLOAT line1 line2 = None
   <-> start_point line1 = end_point line1 \/ start_point line2 = end_point line2)
  /\ (0 < SP_EPSILON_FLOAT ->
      start_point line1 <> end_point line1 ->
      start_point line2 <> end_point line2 ->
      n2 = n1 \/ n2 = pneg n1 ->
      exists c,
        closestPointsBetweenLines SP_EPSILON_FLOAT line1 line2 = Some c
        /\ closest_point1 c = start_point line1
        /\ (exists T, closest_point2 c = start_point line2 [+] n2 [*] T)
        /\ dot (closest_point2 c [-] closest_point1 c) n1 = 0
        /\ dist c = distance (closest_point1 c) (closest_point2 c)
        /\ forall s t,
             dist c <= distance (start_point line1 [+] n1 [*] s)
                                (start_point line2 [+] n2 [*] t)).
Proof.
  intros n1 n2. split.
  - unfold closestPointsBetweenLines.
    destruct (point3d_eq_dec (start_point line1) (end_point line1)) as [H1 | H1];
      [split; auto|].
    destruct (point3d_eq_dec (start_point line2) (end_point line2)) as [H2 | H2];
      [split; auto|].
    fold n1 n2.
    destruct (Rltb (distance n1 n2) SP_EPSILON_FLOAT
              || Rltb (distance n1 (pneg n2)) SP_EPSILON_FLOAT);
      (split; [discriminate | intros [H | H]; contradiction]).
  - intros Heps Hne1 Hne2 Hpar.
    assert (Hl1 : 0 < norm (end_point line1 [-] start_point line1))
      by (apply norm_pos, psub_neq_zero, Hne1).
    assert (Hu1 : norm_sq n1 = 1)
      by (unfold n1; rewrite (normalized_scale _ Hl1); apply norm_sq_unit; exact Hl1).
    unfold closestPointsBetweenLines.
    destruct (point3d_eq_dec (start_point line1) (end_point line1)) as [? | _];
      [contradiction|].
    destruct (point3d_eq_dec (start_point line2) (end_point line2)) as [? | _];
      [contradiction|].
    fold n1 n2.
    assert (Htest : Rltb (distance n1 n2) SP_EPSILON_FLOAT
                    || Rltb (distance n1 (pneg n2)) SP_EPSILON_FLOAT = true).
    { unfold Rltb. destruct Hpar as [-> | ->].
      - rewrite distance_zero.
        destruct (Rlt_dec 0 SP_EPSILON_FLOAT); [reflexivity | contradiction].
      - rewrite pneg_pneg, (distance_zero n1).
        destruct (Rlt_dec 0 SP_EPSILON_FLOAT) as [_ | H]; [|contradiction].
        apply orb_true_r. }
    rewrite Htest.
    set (delta := start_point line2 [-] start_point line1).
    set (b := dot delta n1).
    eexists. split; [reflexivity|]. cbn [dist closest_point1 closest_point2].
    split; [reflexivity|]. split; [|split; [|split]].
    + destruct Hpar as [-> | ->].
      * exists (- b). apply point3d_ext; unfold delta, padd, psub, pscale; simpl; ring.
      * exists b.
        apply point3d_ext; unfold delta, pneg, padd, psub, pscale; simpl; ring.
    + replace (dot (start_point line1 [+] (delta [-] n1 [*] b) [-] start_point line1) n1)
        with (b * (1 - norm_sq n1))
        by (unfold b, norm_sq, dot, padd, psub, pscale; simpl; ring).
      rewrite Hu1. ring.
    + symmetry. apply distance_padd.
    + intros s t. rewrite distance_norm. apply norm_le_sq.
      assert (Hex : exists u,
                start_point line1 [+] n1 [*] s [-] (start_point line2 [+] n2 [*] t)
                = pneg (delta [-] n1 [*] u)).
      { destruct Hpar as [-> | ->].
        - exists (s - t).
          apply point3d_ext; unfold delta, pneg, padd, psub, pscale; simpl; ring.
        - exists (s + t).
          apply point3d_ext; unfold delta, pneg, padd, psub, pscale; simpl; ring. }
      destruct Hex as (u & ->).
      replace (norm_sq (pneg (delta [-] n1 [*] u)))
        with (norm_sq delta - 2 * u * b + u * u * norm_sq n1)
        by (unfold b, norm_sq, dot, pneg, padd, psub, pscale; simpl; ring).
      replace (norm_sq (delta [-] n1 [*] b))
        with (norm_sq delta - 2 * b * b + b * b * norm_sq n1)
        by (unfold b, norm_sq, dot, pneg, padd, psub, pscale; simpl; ring).
      rewrite Hu1. pose proof (Rsq_nonneg (u - b)). lra.
Qed.

(** ** Line segments: the closest points *)

Lemma clamp0_range (l d : R) : 0 <= l -> 0 <= clamp0 l d <= l.
Proof.
  intros Hl. destruct (clamp0_cases l d) as [[H ->] | [(H & H' & ->) | (H & ->)]]; lra.
Qed.

Lemma clamp0_inside (l d : R) : 0 <= d <= l -> clamp0 l d = d.
Proof.
  intros H. destruct (clamp0_cases l d) as [[H1 ->] | [(H1 & H1' & ->) | (H1 & ->)]]; lra.
Qed.

(** One clamped step from the clamped end of the first segment, when the
    closest point of the second supporting line is inside its segment: the
    end of the first segment is already optimal for the parameter reached on
    the second. *)
Lemma clamped_end_stable (S T c L1 L2 : R) :
  c * c < 1 -> 0 < L1 -> 0 < L2 -> (S < 0 \/ S > L1) -> 0 <= T <= L2 ->
  let beta := T - c * S in
  let gamma := S - c * T in
  let s_a := if Rlt_dec S 0 then 0 else L1 in
  let t_b := clamp0 L2 (c * s_a + beta) in
  clamp0 L1 (c * t_b + gamma) = s_a.
Proof.
  intros Hc HL1 HL2 HS HT beta gamma s_a t_b.
  unfold t_b, s_a, beta, gamma.
  destruct (Rlt_dec S 0) as [Hlow | Hhigh].
  - destruct (clamp0_cases L2 (c * 0 + (T - c * S)))
      as [[H1 ->] | [(H1 & H1' & ->) | (H1 & ->)]];
    match goal with |- clamp0 L1 ?e = _ =>
      destruct (clamp0_cases L1 e) as [[H2 ->] | [(H2 & H2' & ->) | (H2 & ->)]] end;
    try lra; exfalso; destruct (Rle_dec 0 c); nra.
  - assert (HS' : S > L1) by (destruct HS; [contradiction | assumption]).
    destruct (clamp0_cases L2 (c * L1 + (T - c * S)))
      as [[H1 ->] | [(H1 & H1' & ->) | (H1 & ->)]];
    match goal with |- clamp0 L1 ?e = _ =>
      destruct (clamp0_cases L1 e) as [[H2 ->] | [(H2 & H2' & ->) | (H2 & ->)]] end;
    try lra; exfalso; destruct (Rle_dec 0 c); nra.
Qed.

(** Whether a parameter is outside [[0, l]], as the alpha check tests it. *)
Lemma outside_cases (l S : R) :
  (Rltb S 0 || Rgtb S l = true /\ (S < 0 \/ S > l))
  \/ (Rltb S 0 || Rgtb S l = false /\ 0 <= S <= l).
Proof.
  unfold Rltb, Rgtb.
  destruct (Rlt_dec S 0); [left; split; [reflexivity | lra]|].
  destruct (Rgt_dec S l); [left; split; [reflexivity | lra]|].
  right. split; [reflexivity | lra].
Qed.

(** The parameters the alpha check reaches from the parameters [S] and [T]
    of the closest points of the two supporting lines are optimal for each
    other on the two segments. *)
Lemma clamped_steps_fixed_point (S T c beta gamma L1 L2 : R) :
  c * c < 1 -> 0 < L1 -> 0 < L2 ->
  S = c * T + gamma -> T = c * S + beta ->
  let s_a := clamp0 L1 S in
  let t_a := clamp0 L2 T in
  let t_b := if Rltb S 0 || Rgtb S L1 then clamp0 L2 (c * s_a + beta) else t_a in
  let s_b := if Rltb T 0 || Rgtb T L2 then clamp0 L1 (c * t_b + gamma) else s_a in
  s_b = clamp0 L1 (c * t_b + gamma) /\ t_b = clamp0 L2 (c * s_b + beta).
Proof.
  intros Hc HL1 HL2 HS HT s_a t_a t_b s_b.
  assert (Hb : beta = T - c * S) by lra.
  assert (Hg : gamma = S - c * T) by lra.
  assert (Hend : forall l u, 0 < l -> (u < 0 \/ u > l) ->
                   clamp0 l u = if Rlt_dec u 0 then 0 else l).
  { intros l u Hl Hu. unfold clamp0. destruct (Rlt_dec u 0); [reflexivity|].
    destruct (Rgt_dec u l); [reflexivity | lra]. }
  unfold s_b, t_b, t_a, s_a.
  destruct (outside_cases L1 S) as [[-> Ho1] | [-> Hi1]];
    destruct (outside_cases L2 T) as [[-> Ho2] | [-> Hi2]].
  - split; [reflexivity|]. symmetry.
    rewrite (Hend L1 S HL1 Ho1), Hb, Hg.
    apply clamped_step_stable; assumption.
  - rewrite (Hend L1 S HL1 Ho1). split; [|reflexivity]. symmetry.
    rewrite Hb, Hg. apply clamped_end_stable; assumption.
  - rewrite (Hend L2 T HL2 Ho2). split; [reflexivity|]. symmetry.
    rewrite Hb, Hg.
    apply (clamped_end_stable T S c L2 L1 Hc HL2 HL1 Ho2 Hi1).
  - rewrite (clamp0_inside L1 S Hi1), (clamp0_inside L2 T Hi2).
    rewrite <- HS, <- HT.
    rewrite (clamp0_inside L1 S Hi1), (clamp0_inside L2 T Hi2). split; reflexivity.
Qed.

(** A pair of parameters, each optimal for the other on its segment, is at
    the least distance over the two segments. *)
Lemma clamped_optimum_least (c beta gamma L1 L2 s t s' t' : R) :
  c * c <= 1 -> 0 <= L1 -> 0 <= L2 ->
  s = clamp0 L1 (c * t + gamma) -> t = clamp0 L2 (c * s + beta) ->
  0 <= s' <= L1 -> 0 <= t' <= L2 ->
  gap c beta gamma s t <= gap c beta gamma s' t'.
Proof.
  intros Hc HL1 HL2 Hs Ht Hs' Ht'. unfold gap.
  assert (H1 : 0 <= (s - (c * t + gamma)) * (s' - s)).
  { destruct (clamp0_cases L1 (c * t + gamma))
      as [[H Hv] | [(H & H' & Hv) | (H & Hv)]]; rewrite Hv in Hs.
    - apply Rmult_le_pos; lra.
    - replace ((s - (c * t + gamma)) * (s' - s))
        with ((c * t + gamma - s) * (s - s')) by ring.
      apply Rmult_le_pos; lra.
    - rewrite Hs. replace (c * t + gamma - (c * t + gamma)) with 0 by ring. lra. }
  assert (H2 : 0 <= (t - (c * s + beta)) * (t' - t)).
  { destruct (clamp0_cases L2 (c * s + beta))
      as [[H Hv] | [(H & H' & Hv) | (H & Hv)]]; rewrite Hv in Ht.
    - apply Rmult_le_pos; lra.
    - replace ((t - (c * s + beta)) * (t' - t))
        with ((c * s + beta - t) * (t - t')) by ring.
      apply Rmult_le_pos; lra.
    - rewrite Ht. replace (c * s + beta - (c * s + beta)) with 0 by ring. lra. }
  pose proof (Rsq_nonneg ((s' - s) - c * (t' - t))) as H3.
  assert (H4 : 0 <= (1 - c * c) * ((t' - t) * (t' - t)))
    by (apply Rmult_le_pos; [lra | apply Rsq_nonneg]).
  nra.
Qed.

Lemma Rltb_div (S l : R) : 0 < l -> Rltb (S / l) 0 = Rltb S 0.
Proof.
  intros Hl. unfold Rltb. pose proof (div_neg_iff S l Hl) as H.
  destruct (Rlt_dec (S / l) 0), (Rlt_dec S 0); try reflexivity; tauto.
Qed.

Lemma Rgtb_div (S l : R) : 0 < l -> Rgtb (S / l) 1 = Rgtb S l.
Proof.
  intros Hl. unfold Rgtb. pose proof (div_gt_one_iff S l Hl) as H.
  destruct (Rgt_dec (S / l) 1), (Rgt_dec S l); try reflexivity; tauto.
Qed.

Lemma padd_pscale_zero (p n : point3d) : p [+] n [*] 0 = p.
Proof. apply point3d_ext; unfold padd, pscale; simpl; ring. Qed.

(** The first step of the alpha check: the closest point of a supporting
    line is moved to the nearer end of its segment when it is outside. *)
Lemma clamp_to_segment (line : Line) (n : point3d) (l S : R) :
  0 < l -> end_point line = start_point line [+] n [*] l ->
  (if Rlt_dec (S / l) 0 then start_point line
   else if Rgt_dec (S / l) 1 then end_point line
        else start_point line [+] n [*] S)
  = start_point line [+] n [*] clamp0 l S.
Proof.
  intros Hl He. unfold clamp0.
  pose proof (div_neg_iff S l Hl) as H0. pose proof (div_gt_one_iff S l Hl) as H1.
  destruct (Rlt_dec (S / l) 0), (Rlt_dec S 0); try tauto.
  - symmetry. apply padd_pscale_zero.
  - destruct (Rgt_dec (S / l) 1), (Rgt_dec S l); tauto.
Qed.

(** The alpha check on the closest points of the supporting lines, in terms
    of their parameters [S] and [T]. *)
Lemma clampToLineSegments_steps
    (line1 line2 : Line) (n1 n2 : point3d) (l1 l2 d0 S T : R) :
  norm_sq n1 = 1 -> norm_sq n2 = 1 -> 0 < l1 -> 0 < l2 ->
  end_point line1 = start_point line1 [+] n1 [*] l1 ->
  end_point line2 = start_point line2 [+] n2 [*] l2 ->
  let c := dot n1 n2 in
  let beta := dot n2 (start_point line1 [-] start_point line2) in
  let gamma := dot n1 (start_point line2 [-] start_point line1) in
  let s_a := clamp0 l1 S in
  let t_a := clamp0 l2 T in
  let t_b := if Rltb S 0 || Rgtb S l1 then clamp0 l2 (c * s_a + beta) else t_a in
  let s_b := if Rltb T 0 || Rgtb T l2 then clamp0 l1 (c * t_b + gamma) else s_a in
  clampToLineSegments line1 line2 n1 n2 l1 l2
    (mkClosestPoints d0 (start_point line1 [+] n1 [*] S)
                     (start_point line2 [+] n2 [*] T))
  = mkClosestPoints
      (distance (start_point line1 [+] n1 [*] s_b) (start_point line2 [+] n2 [*] t_b))
      (start_point line1 [+] n1 [*] s_b) (start_point line2 [+] n2 [*] t_b).
Proof.
  intros Hn1 Hn2 Hl1 Hl2 He1 He2 c beta gamma s_a t_a t_b s_b.
  unfold clampToLineSegments. cbn [closest_point1 closest_point2].
  rewrite (dot_line_parameter _ n1 S Hn1), (dot_line_parameter _ n2 T Hn2).
  rewrite (clamp_to_segment line1 n1 l1 S Hl1 He1).
  rewrite (clamp_to_segment line2 n2 l2 T Hl2 He2).
  rewrite (Rltb_div S l1 Hl1), (Rgtb_div S l1 Hl1).
  rewrite (Rltb_div T l2 Hl2), (Rgtb_div T l2 Hl2).
  fold s_a t_a.
  fold (clamp0 l2 (dot n2 (start_point line1 [+] n1 [*] s_a [-] start_point line2))).
  rewrite (dot_line_point n2 (start_point line1) n1 (start_point line2) s_a).
  rewrite (dot_comm n2 n1). fold c beta.
  assert (Hcp2 : (if Rltb S 0 || Rgtb S l1
                  then start_point line2 [+] n2 [*] clamp0 l2 (c * s_a + beta)
                  else start_point line2 [+] n2 [*] t_a)
                 = start_point line2 [+] n2 [*] t_b).
  { unfold t_b. destruct (Rltb S 0 || Rgtb S l1); reflexivity. }
  rewrite Hcp2.
  fold (clamp0 l1 (dot n1 (start_point line2 [+] n2 [*] t_b [-] start_point line1))).
  rewrite (dot_line_point n1 (start_point line2) n2 (start_point line1) t_b).
  fold c gamma.
  assert (Hcp1 : (if Rltb T 0 || Rgtb T l2
                  then start_point line1 [+] n1 [*] clamp0 l1 (c * t_b + gamma)
                  else start_point line1 [+] n1 [*] s_a)
                 = start_point line1 [+] n1 [*] s_b).
  { unfold s_b. destruct (Rltb T 0 || Rgtb T l2); reflexivity. }
  rewrite Hcp1. reflexivity.
Qed.

Lemma path_point_unit (l : Line) (s : R) :
  let v := end_point l [-] start_point l in
  0 < norm v ->
  start_point l [+] v [*] (1 / norm v) [*] s = path_point l (s / norm v).
Proof.
  intros v H. set (L := norm v) in *. clearbody L.
  apply point3d_ext; unfold path_point, v, padd, psub, pscale; simpl; field; lra.
Qed.

Lemma norm_sq_gap (p1 p2 n1 n2 : point3d) (s t : R) :
  norm_sq n1 = 1 -> norm_sq n2 = 1 ->
  norm_sq (p1 [+] n1 [*] s [-] (p2 [+] n2 [*] t))
  = norm_sq (p2 [-] p1)
    + gap (dot n1 n2) (dot n2 (p1 [-] p2)) (dot n1 (p2 [-] p1)) s t.
Proof.
  intros H1 H2.
  replace (norm_sq (p1 [+] n1 [*] s [-] (p2 [+] n2 [*] t)))
    with (norm_sq (p2 [-] p1) + s * s * norm_sq n1 + t * t * norm_sq n2
          - 2 * dot n1 n2 * s * t - 2 * dot n1 (p2 [-] p1) * s
          - 2 * dot n2 (p1 [-] p2) * t)
    by (unfold norm_sq, dot, padd, psub, pscale; simpl; ring).
  rewrite H1, H2. unfold gap. ring.
Qed.

(** X10: for two segments at least as long as a positive
    [SP_EPSILON_FLOAT] and not parallel within it,
    [closestPointsBetweenLineSegments] returns a point of each segment
    (parameters in [[0, 1]]) such that no two points of the two segments
    are nearer to each other, the alpha check included; [dist] is the
    distance between the two points returned. *)
Theorem closestPointsBetweenLineSegments_skew_least
    (SP_EPSILON_FLOAT : R) (line1 line2 : Line) :
  let d1 := distance (start_point line1) (end_point line1) in
  let d2 := distance (start_point line2) (end_point line2) in
  let v1 := end_point line1 [-] start_point line1 in
  let v2 := end_point line2 [-] start_point line2 in
  let n1 := v1 [*] (1 / norm v1) in
  let n2 := v2 [*] (1 / norm v2) in
  0 < SP_EPSILON_FLOAT ->
  ~ d1 < SP_EPSILON_FLOAT -> ~ d2 < SP_EPSILON_FLOAT ->
  ~ norm (cross n1 n2) < SP_EPSILON_FLOAT ->
  exists c,
    closestPointsBetweenLineSegments SP_EPSILON_FLOAT line1 line2 = Some c
    /\ (exists s, 0 <= s <= 1 /\ closest_point1 c = path_point line1 s)
    /\ (exists t, 0 <= t <= 1 /\ closest_point2 c = path_point line2 t)
    /\ dist c = distance (closest_point1 c) (closest_point2 c)
    /\ forall s t, 0 <= s <= 1 -> 0 <= t <= 1 ->
         dist c <= distance (path_point line1 s) (path_point line2 t).
Proof.
  intros d1 d2 v1 v2 n1 n2 Heps H1 H2 Hskew.
  assert (Hl1 : 0 < norm v1)
    by (unfold d1 in H1; rewrite distance_start_end in H1; fold v1 in H1; lra).
  assert (Hl2 : 0 < norm v2)
    by (unfold d2 in H2; rewrite distance_start_end in H2; fold v2 in H2; lra).
  assert (Hn1 : norm_sq n1 = 1) by (apply norm_sq_unit_div; exact Hl1).
  assert (Hn2 : norm_sq n2 = 1) by (apply norm_sq_unit_div; exact Hl2).
  unfold closestPointsBetweenLineSegments. fold d1 d2 v1 v2. cbv zeta. fold n1 n2.
  destruct (Rlt_dec d1 _) as [? | _]; [contradiction|].
  destruct (Rlt_dec d2 _) as [? | _]; [contradiction|].
  destruct (Rlt_dec (norm (cross n1 n2)) _) as [? | _]; [contradiction|].
  destruct (closestPointsBetweenLines_skew SP_EPSILON_FLOAT line1 line2
              Heps Hl1 Hl2 Hskew) as (S & T & Z & Hc & _ & HS & HT & Hcc).
  fold v1 v2 in Hc, HS, HT, Hcc. fold n1 n2 in Hc, HS, HT, Hcc.
  rewrite Hc.
  rewrite (clampToLineSegments_steps line1 line2 n1 n2 _ _ (Rabs Z) S T
             Hn1 Hn2 Hl1 Hl2 (end_point_on_line line1 Hl1) (end_point_on_line line2 Hl2)).
  destruct (clamped_steps_fixed_point S T (dot n1 n2)
              (dot n2 (start_point line1 [-] start_point line2))
              (dot n1 (start_point line2 [-] start_point line1))
              (norm v1) (norm v2) Hcc Hl1 Hl2 HS HT) as [Hfs Hft].
  cbv zeta in Hfs, Hft.
  match type of Hft with ?tt = _ => set (t_b := tt) in * end.
  match type of Hfs with ?ss = _ => set (s_b := ss) in * end.
  assert (Hsr : 0 <= s_b <= norm v1) by (rewrite Hfs; apply clamp0_range; lra).
  assert (Htr : 0 <= t_b <= norm v2) by (rewrite Hft; apply clamp0_range; lra).
  eexists. split; [reflexivity|]. cbn [dist closest_point1 closest_point2].
  split; [|split; [|split]].
  - exists (s_b / norm v1). split.
    + split; [apply Rmult_le_pos; [lra | left; apply Rinv_0_lt_compat; lra]|].
      apply Rmult_le_reg_r with (norm v1); [lra|].
      replace (s_b / norm v1 * norm v1) with s_b by (field; lra). lra.
    + apply (path_point_unit line1 s_b Hl1).
  - exists (t_b / norm v2). split.
    + split; [apply Rmult_le_pos; [lra | left; apply Rinv_0_lt_compat; lra]|].
      apply Rmult_le_reg_r with (norm v2); [lra|].
      replace (t_b / norm v2 * norm v2) with t_b by (field; lra). lra.
    + apply (path_point_unit line2 t_b Hl2).
  - reflexivity.
  - intros s t Hs Ht.
    replace (path_point line1 s) with (start_point line1 [+] n1 [*] (s * norm v1)).
    2:{ unfold n1. rewrite (path_point_unit line1 _ Hl1). fold v1. f_equal. field. lra. }
    replace (path_point line2 t) with (start_point line2 [+] n2 [*] (t * norm v2)).
    2:{ unfold n2. rewrite (path_point_unit line2 _ Hl2). fold v2. f_equal. field. lra. }
    rewrite !distance_norm. apply norm_le_sq.
    rewrite !norm_sq_gap by assumption.
    apply Rplus_le_compat_l.
    apply (clamped_optimum_least _ _ _ (norm v1) (norm v2)); try lra; try assumption.
    + split; [nra|]. nra.
    + split; nra.
Qed.

(** ** Line segments: the parallel branch *)

Lemma unit_parallel (n1 n2 : point3d) :
  norm_sq n1 = 1 -> norm_sq n2 = 1 -> cross n1 n2 = mkPoint3d 0 0 0 ->
  n2 = n1 [*] 1 \/ n2 = n1 [*] (-1).
Proof.
  intros H1 H2 Hc.
  pose proof (lagrange_identity n1 n2) as Hl. rewrite Hc, H1, H2 in Hl.
  replace (norm_sq (mkPoint3d 0 0 0)) with 0 in Hl by (unfold norm_sq; simpl; ring).
  set (c := dot n1 n2) in *.
  assert (Hcc : c = 1 \/ c = -1).
  { assert (H : (c - 1) * (c + 1) = 0) by lra.
    apply Rmult_integral in H. destruct H; [left | right]; lra. }
  assert (Hn : n2 = n1 [*] c).
  { assert (Hz : norm_sq (n2 [-] n1 [*] c) = 0).
    { replace (norm_sq (n2 [-] n1 [*] c))
        with (norm_sq n2 - 2 * c * dot n1 n2 + c * c * norm_sq n1)
        by (unfold norm_sq, dot, psub, pscale; simpl; ring).
      fold c. rewrite H1, H2. lra. }
    assert (Hn : norm (n2 [-] n1 [*] c) = 0) by (unfold norm; rewrite Hz; apply sqrt_0).
    apply norm_zero_iff in Hn. injection Hn as Hx Hy Hz'.
    apply point3d_ext; simpl in *; lra. }
  destruct Hcc as [Hc1 | Hc1]; rewrite Hc1 in Hn; [left | right]; exact Hn.
Qed.

Lemma norm_sq_along (p1 p2 n : point3d) (s u : R) :
  norm_sq n = 1 ->
  let b := dot (p2 [-] p1) n in
  norm_sq (p1 [+] n [*] s [-] (p2 [+] n [*] u))
  = norm_sq (p2 [-] p1) - b * b + (b + u - s) * (b + u - s).
Proof.
  intros Hn b.
  replace (norm_sq (p1 [+] n [*] s [-] (p2 [+] n [*] u)))
    with (norm_sq (p2 [-] p1) - 2 * (s - u) * b + (s - u) * (s - u) * norm_sq n)
    by (unfold b, norm_sq, dot, padd, psub, pscale; simpl; ring).
  rewrite Hn. ring.
Qed.

Lemma closest_points_eq (cp1 cp2 p q : point3d) :
  cp1 = p -> cp2 = q ->
  mkClosestPoints (distance cp1 cp2) cp1 cp2 = mkClosestPoints (distance p q) p q.
Proof. intros -> ->. reflexivity. Qed.

Lemma square_le (u v : R) : 0 <= u <= v \/ v <= u <= 0 -> u * u <= v * v.
Proof. intros [H | H]; nra. Qed.

(** The parallel branch on two segments along the same unit direction [n1],
    the second one in the same sense ([c = 1]) or in the opposite one
    ([c = -1]): the points returned are on the segments, at parameters [s]
    and [t], and no two points of the segments are closer. *)
Lemma parallelLineSegments_least (line1 line2 : Line) (n1 : point3d) (l1 l2 c : R) :
  norm_sq n1 = 1 -> 0 < l1 -> 0 < l2 -> c = 1 \/ c = -1 ->
  end_point line1 = start_point line1 [+] n1 [*] l1 ->
  end_point line2 = start_point line2 [+] n1 [*] (c * l2) ->
  exists s t,
    0 <= s <= l1 /\ 0 <= t <= l2
    /\ parallelLineSegments line1 line2 n1 l1
       = mkClosestPoints
           (distance (start_point line1 [+] n1 [*] s)
                     (start_point line2 [+] n1 [*] (c * t)))
           (start_point line1 [+] n1 [*] s) (start_point line2 [+] n1 [*] (c * t))
    /\ forall s' t', 0 <= s' <= l1 -> 0 <= t' <= l2 ->
         norm_sq (start_point line1 [+] n1 [*] s
                  [-] (start_point line2 [+] n1 [*] (c * t)))
         <= norm_sq (start_point line1 [+] n1 [*] s'
                     [-] (start_point line2 [+] n1 [*] (c * t'))).
Proof.
  intros Hn Hl1 Hl2 Hc He1 He2.
  unfold parallelLineSegments. rewrite He1, He2.
  set (p1 := start_point line1). set (p2 := start_point line2).
  set (b := dot (p2 [-] p1) n1).
  replace (dot (p2 [+] n1 [*] (c * l2) [-] p1) n1) with (b + c * l2).
  2:{ replace (dot (p2 [+] n1 [*] (c * l2) [-] p1) n1)
        with (b + c * l2 * norm_sq n1)
        by (unfold b, norm_sq, dot, padd, psub, pscale; simpl; ring).
      rewrite Hn. ring. }
  assert (Hsq : forall s u,
            norm_sq (p1 [+] n1 [*] s [-] (p2 [+] n1 [*] u))
            = norm_sq (p2 [-] p1) - b * b + (b + u - s) * (b + u - s))
    by (intros s u; apply norm_sq_along; exact Hn).
  assert (Hleast : forall s t s' t',
            (0 <= b + c * t - s <= b + c * t' - s'
             \/ b + c * t' - s' <= b + c * t - s <= 0) ->
            norm_sq (p1 [+] n1 [*] s [-] (p2 [+] n1 [*] (c * t)))
            <= norm_sq (p1 [+] n1 [*] s' [-] (p2 [+] n1 [*] (c * t')))).
  { intros s t s' t' H. rewrite !Hsq. apply square_le in H. lra. }
  destruct Hc as [-> | ->].
  - (* same sense *)
    destruct (Rlt_dec (b + 1 * l2) b) as [H | _]; [exfalso; lra|].
    destruct (Rlt_dec l1 b) as [Hc1 | Hc1];
      [|destruct (Rlt_dec (b + 1 * l2) 0) as [Hc2 | Hc2];
        [|destruct (Rlt_dec b 0) as [Hc3 | Hc3]]].
    + exists l1, 0. split; [lra|]. split; [lra|]. split.
      * apply closest_points_eq; [reflexivity|].
        apply point3d_ext; unfold padd, pscale; simpl; ring.
      * intros s' t' Hs' Ht'. apply Hleast. left. lra.
    + exists 0, l2. split; [lra|]. split; [lra|]. split.
      * apply closest_points_eq; [|reflexivity].
        apply point3d_ext; unfold padd, pscale; simpl; ring.
      * intros s' t' Hs' Ht'. apply Hleast. right. lra.
    + exists 0, (- b). split; [lra|]. split; [lra|]. split.
      * apply closest_points_eq;
          apply point3d_ext; unfold b, dot, padd, psub, pscale; simpl; ring.
      * intros s' t' Hs' Ht'. rewrite !Hsq.
        replace (b + 1 * - b - 0) with 0 by ring.
        pose proof (Rsq_nonneg (b + 1 * t' - s')). lra.
    + exists b, 0. split; [lra|]. split; [lra|]. split.
      * apply closest_points_eq;
          apply point3d_ext; unfold b, dot, padd, psub, pscale; simpl; ring.
      * intros s' t' Hs' Ht'. rewrite !Hsq.
        replace (b + 1 * 0 - b) with 0 by ring.
        pose proof (Rsq_nonneg (b + 1 * t' - s')). lra.
  - (* opposite sense *)
    destruct (Rlt_dec (b + -1 * l2) b) as [_ | H]; [|exfalso; lra].
    destruct (Rlt_dec l1 (b + -1 * l2)) as [Hc1 | Hc1];
      [|destruct (Rlt_dec b 0) as [Hc2 | Hc2];
        [|destruct (Rlt_dec (b + -1 * l2) 0) as [Hc3 | Hc3]]].
    + exists l1, l2. split; [lra|]. split; [lra|]. split.
      * apply closest_points_eq; reflexivity.
      * intros s' t' Hs' Ht'. apply Hleast. left. lra.
    + exists 0, 0. split; [lra|]. split; [lra|]. split.
      * apply closest_points_eq;
          apply point3d_ext; unfold padd, pscale; simpl; ring.
      * intros s' t' Hs' Ht'. apply Hleast. right. lra.
    + exists 0, b. split; [lra|]. split; [lra|]. split.
      * apply closest_points_eq;
          apply point3d_ext; unfold b, dot, padd, psub, pscale; simpl; ring.
      * intros s' t' Hs' Ht'. rewrite !Hsq.
        replace (b + -1 * b - 0) with 0 by ring.
        pose proof (Rsq_nonneg (b + -1 * t' - s')). lra.
    + exists (b + -1 * l2), l2. split; [lra|]. split; [lra|]. split.
      * apply closest_points_eq;
          apply point3d_ext; unfold b, dot, padd, psub, pscale; simpl; ring.
      * intros s' t' Hs' Ht'. rewrite !Hsq.
        replace (b + -1 * l2 - (b + -1 * l2)) with 0 by ring.
        pose proof (Rsq_nonneg (b + -1 * t' - s')). lra.
Qed.

Lemma unit_interval_div (s l : R) : 0 < l -> 0 <= s <= l -> 0 <= s / l <= 1.
Proof.
  intros Hl Hs. split.
  - apply Rmult_le_pos; [lra | left; apply Rinv_0_lt_compat; lra].
  - apply Rmult_le_reg_r with l; [lra|].
    replace (s / l * l) with s by (field; lra). lra.
Qed.

Lemma pscale_pscale (v : point3d) (k1 k2 : R) : v [*] k1 [*] k2 = v [*] (k1 * k2).
Proof. apply point3d_ext; unfold pscale; simpl; ring. Qed.

(** X11: for two segments at least as long as a positive
    [SP_EPSILON_FLOAT] and exactly parallel (the cross product of their
    directions is zero), the parallel branch of
    [closestPointsBetweenLineSegments] returns a point of each segment such
    that no two points of the two segments are nearer to each other; [dist]
    is the distance between the two points returned. *)
Theorem closestPointsBetweenLineSegments_parallel_least
    (SP_EPSILON_FLOAT : R) (line1 line2 : Line) :
  let d1 := distance (start_point line1) (end_point line1) in
  let d2 := distance (start_point line2) (end_point line2) in
  let v1 := end_point line1 [-] start_point line1 in
  let v2 := end_point line2 [-] start_point line2 in
  0 < SP_EPSILON_FLOAT ->
  ~ d1 < SP_EPSILON_FLOAT -> ~ d2 < SP_EPSILON_FLOAT ->
  cross v1 v2 = mkPoint3d 0 0 0 ->
  exists c,
    closestPointsBetweenLineSegments SP_EPSILON_FLOAT line1 line2 = Some c
    /\ (exists s, 0 <= s <= 1 /\ closest_point1 c = path_point line1 s)
    /\ (exists t, 0 <= t <= 1 /\ closest_point2 c = path_point line2 t)
    /\ dist c = distance (closest_point1 c) (closest_point2 c)
    /\ forall s t, 0 <= s <= 1 -> 0 <= t <= 1 ->
         dist c <= distance (path_point line1 s) (path_point line2 t).
Proof.
  intros d1 d2 v1 v2 Heps H1 H2 Hcross.
  set (n1 := v1 [*] (1 / norm v1)). set (n2 := v2 [*] (1 / norm v2)).
  assert (Hl1 : 0 < norm v1)
    by (unfold d1 in H1; rewrite distance_start_end in H1; fold v1 in H1; lra).
  assert (Hl2 : 0 < norm v2)
    by (unfold d2 in H2; rewrite distance_start_end in H2; fold v2 in H2; lra).
  assert (Hn1 : norm_sq n1 = 1) by (apply norm_sq_unit_div; exact Hl1).
  assert (Hn2 : norm_sq n2 = 1) by (apply norm_sq_unit_div; exact Hl2).
  assert (Hcn : cross n1 n2 = mkPoint3d 0 0 0).
  { unfold n1, n2. rewrite cross_pscale, Hcross.
    apply point3d_ext; unfold pscale; simpl; ring. }
  assert (Hpar : norm (cross n1 n2) < SP_EPSILON_FLOAT).
  { rewrite Hcn. replace (norm (mkPoint3d 0 0 0)) with 0; [exact Heps|].
    symmetry. apply norm_zero_iff. reflexivity. }
  unfold closestPointsBetweenLineSegments. fold d1 d2 v1 v2. cbv zeta. fold n1 n2.
  destruct (Rlt_dec d1 _) as [? | _]; [contradiction|].
  destruct (Rlt_dec d2 _) as [? | _]; [contradiction|].
  destruct (Rlt_dec (norm (cross n1 n2)) _) as [_ | ?]; [|contradiction].
  assert (Hc : exists c, (c = 1 \/ c = -1) /\ n2 = n1 [*] c).
  { destruct (unit_parallel n1 n2 Hn1 Hn2 Hcn) as [H | H];
      [exists 1 | exists (-1)]; split; auto. }
  destruct Hc as (c & Hc & Hn2c).
  assert (He1 : end_point line1 = start_point line1 [+] n1 [*] norm v1)
    by apply (end_point_on_line line1 Hl1).
  assert (He2 : end_point line2 = start_point line2 [+] n1 [*] (c * norm v2)).
  { rewrite <- pscale_pscale, <- Hn2c. apply (end_point_on_line line2 Hl2). }
  destruct (parallelLineSegments_least line1 line2 n1 (norm v1) (norm v2) c
              Hn1 Hl1 Hl2 Hc He1 He2) as (s0 & t0 & Hs0 & Ht0 & Heq & Hleast).
  rewrite Heq. eexists. split; [reflexivity|].
  cbn [dist closest_point1 closest_point2].
  assert (HQ : forall t, start_point line2 [+] n1 [*] (c * t)
                         = path_point line2 (t / norm v2)).
  { intros t. rewrite <- pscale_pscale, <- Hn2c. apply (path_point_unit line2 t Hl2). }
  assert (HP : forall s, start_point line1 [+] n1 [*] s
                         = path_point line1 (s / norm v1))
    by (intros s; apply (path_point_unit line1 s Hl1)).
  split; [|split; [|split]].
  - exists (s0 / norm v1). split; [apply unit_interval_div; assumption | apply HP].
  - exists (t0 / norm v2). split; [apply unit_interval_div; assumption | apply HQ].
  - reflexivity.
  - intros s t Hs Ht.
    replace (path_point line1 s) with (start_point line1 [+] n1 [*] (s * norm v1))
      by (rewrite HP; f_equal; field; lra).
    replace (path_point line2 t) with (start_point line2 [+] n1 [*] (c * (t * norm v2)))
      by (rewrite HQ; f_equal; field; lra).
    rewrite !distance_norm. apply norm_le_sq. apply Hleast; split; nra.
Qed.

(** ** Line segments: swapping the arguments, every branch *)







Lemma parallelLineSegments_dist (line1 line2 : Line) (n1 : point3d) (l1 : R) :
  let c := parallelLineSegments line1 line2 n1 l1 in
  dist c = distance (closest_point1 c) (closest_point2 c).
Proof.
  unfold parallelLineSegments.
  repeat match goal with |- context [Rlt_dec ?a ?b] => destruct (Rlt_dec a b) end;
    reflexivity.
Qed.

Lemma clampToLineSegments_dist
    (line1 line2 : Line) (n1 n2 : point3d) (l1 l2 : R) (cp : ClosestPoints) :
  let c := clampToLineSegments line1 line2 n1 n2 l1 l2 cp in
  dist c = distance (closest_point1 c) (closest_point2 c).
Proof. reflexivity. Qed.

(** X12: with a positive [SP_EPSILON_FLOAT],
    [closestPointsBetweenLineSegments] never throws, and in every branch
    [dist] is the distance between the two points returned.  When the first
    segment is shorter than the guard the result is its start point and the
    point of the second segment nearest to it; when only the second is
    shorter, the result is the start point of the second and the point of
    the first segment nearest to it. *)
Theorem closestPointsBetweenLineSegments_returns
    (SP_EPSILON_FLOAT : R) (line1 line2 : Line) :
  0 < SP_EPSILON_FLOAT ->
  let d1 := distance (start_point line1) (end_point line1) in
  let d2 := distance (start_point line2) (end_point line2) in
  exists c,
    closestPointsBetweenLineSegments SP_EPSILON_FLOAT line1 line2 = Some c
    /\ dist c = distance (closest_point1 c) (closest_point2 c)
    /\ (d1 < SP_EPSILON_FLOAT ->
        closest_point1 c = start_point line1
        /\ (exists t, 0 <= t <= 1 /\ closest_point2 c = path_point line2 t)
        /\ forall t, 0 <= t <= 1 ->
             dist c <= distance (start_point line1) (path_point line2 t))
    /\ (~ d1 < SP_EPSILON_FLOAT -> d2 < SP_EPSILON_FLOAT ->
        closest_point2 c = start_point line2
        /\ (exists s, 0 <= s <= 1 /\ closest_point1 c = path_point line1 s)
        /\ forall s, 0 <= s <= 1 ->
             dist c <= distance (path_point line1 s) (start_point line2)).
Proof.
  intros Heps d1 d2.
  unfold closestPointsBetweenLineSegments. fold d1 d2.
  destruct (Rlt_dec d1 SP_EPSILON_FLOAT) as [H1 | H1].
  - destruct (closestPointsBetweenPointAndLineSegment_closest (start_point line1) line2)
      as (t & Ht & Hc & Hleast).
    rewrite Hc. eexists. split; [reflexivity|].
    cbn [dist closest_point1 closest_point2].
    split; [reflexivity|]. split.
    + intros _. split; [reflexivity|].
      split; [exists t; split; [exact Ht | reflexivity] | exact Hleast].
    + intros Hn. contradiction.
  - destruct (Rlt_dec d2 SP_EPSILON_FLOAT) as [H2 | H2].
    + destruct (closestPointsBetweenPointAndLineSegment_closest (start_point line2) line1)
        as (t & Ht & Hc & Hleast).
      rewrite Hc. eexists. split; [reflexivity|]. unfold swap_closest_points.
      cbn [dist closest_point1 closest_point2].
      split; [apply distance_sym|]. split; [intros Hn; contradiction|].
      intros _ _. split; [reflexivity|].
      split; [exists t; split; [exact Ht | reflexivity]|].
      intros s Hs. rewrite (distance_sym (path_point line1 s)). apply Hleast. exact Hs.
    + set (v1 := end_point line1 [-] start_point line1).
      set (v2 := end_point line2 [-] start_point line2).
      assert (Hl1 : 0 < norm v1)
        by (unfold d1 in H1; rewrite distance_start_end in H1; fold v1 in H1; lra).
      assert (Hl2 : 0 < norm v2)
        by (unfold d2 in H2; rewrite distance_start_end in H2; fold v2 in H2; lra).
      cbv zeta.
      destruct (Rlt_dec (norm (cross (v1 [*] (1 / norm v1)) (v2 [*] (1 / norm v2)))) _).
      * eexists. split; [reflexivity|].
        split; [apply parallelLineSegments_dist|]. split; intros; contradiction.
      * unfold closestPointsBetweenLines.
        destruct (point3d_eq_dec (start_point line1) (end_point line1)) as [He | _];
          [exfalso; revert He; apply norm_pos_neq; exact Hl1|].
        destruct (point3d_eq_dec (start_point line2) (end_point line2)) as [He | _];
          [exfalso; revert He; apply norm_pos_neq; exact Hl2|].
        match goal with |- context [if ?b then _ else _] => destruct b end;
          (eexists; split; [reflexivity|]; split; [apply clampToLineSegments_dist|];
           split; intros; contradiction).
Qed.

(** ** Safe distance along a direction *)

Lemma safeDistInDirection_cons (SP_INFINITY : R) (position direction : point3d)
    (obstacles : list (point3d * R)) (radius acc : R) :
  fold_left
    (fun safe_dist (obstacle : point3d * R) =>
       let obs_position := fst obstacle in
       let radius_sum := snd obstacle + radius in
       let closest_points :=
         closestPointsBetweenPointAndRay obs_position position direction in
       let ray_closest_point := closest_point2 closest_points in
       let safe_dist_cand :=
         if Rlt_dec (dist closest_points) radius_sum then
           let dist_to_closest_point := norm (ray_closest_point [-] position) in
           Rmax (dist_to_closest_point
                 - sqrt (radius_sum * radius_sum
                         - dist closest_points * dist closest_points)) 0
         else SP_INFINITY in
       if Rlt_dec safe_dist_cand safe_dist then safe_dist_cand else safe_dist)
    obstacles acc
  = fold_left
      (fun safe_dist obstacle =>
         Rmin safe_dist (safe_dist_candidate SP_INFINITY position direction radius obstacle))
      obstacles acc.
Proof.
  revert acc. induction obstacles as [|o l IH]; intros acc; [reflexivity|].
  cbn [fold_left]. rewrite IH. f_equal.
  fold (safe_dist_candidate SP_INFINITY position direction radius o).
  set (cand := safe_dist_candidate SP_INFINITY position direction radius o).
  unfold Rmin. destruct (Rlt_dec cand acc), (Rle_dec acc cand); lra.
Qed.

Lemma safeDistInDirection_min (SP_INFINITY : R) (position direction : point3d)
    (obstacles : list (point3d * R)) (radius : R) :
  safeDistInDirection SP_INFINITY position direction obstacles radius
  = fold_left
      (fun safe_dist obstacle =>
         Rmin safe_dist (safe_dist_candidate SP_INFINITY position direction radius obstacle))
      obstacles SP_INFINITY.
Proof. apply safeDistInDirection_cons. Qed.

Lemma fold_min_le (f : point3d * R -> R) (l : list (point3d * R)) (acc : R) :
  fold_left (fun a o => Rmin a (f o)) l acc <= acc
  /\ (forall o, In o l -> fold_left (fun a o => Rmin a (f o)) l acc <= f o)
  /\ (fold_left (fun a o => Rmin a (f o)) l acc = acc
      \/ exists o, In o l /\ fold_left (fun a o => Rmin a (f o)) l acc = f o).
Proof.
  revert acc. induction l as [|o l IH]; intros acc; cbn [fold_left].
  - split; [lra|]. split; [intros o []|]. left. reflexivity.
  - destruct (IH (Rmin acc (f o))) as (H1 & H2 & H3).
    pose proof (Rmin_l acc (f o)) as Hl. pose proof (Rmin_r acc (f o)) as Hr.
    split; [lra|]. split.
    + intros o' [<- | Hin]; [lra | apply H2; exact Hin].
    + destruct H3 as [H3 | (o' & Hin & H3)].
      * rewrite H3. unfold Rmin. destruct (Rle_dec acc (f o)).
        -- left. reflexivity.
        -- right. exists o. split; [left; reflexivity | reflexivity].
      * right. exists o'. split; [right; exact Hin | exact H3].
Qed.

Lemma fold_min_acc (f : point3d * R -> R) (l : list (point3d * R)) (a b : R) :
  fold_left (fun a o => Rmin a (f o)) l (Rmin a b)
  = Rmin a (fold_left (fun a o => Rmin a (f o)) l b).
Proof.
  revert a b. induction l as [|o l IH]; intros a b; cbn [fold_left]; [reflexivity|].
  rewrite <- IH. f_equal. symmetry. apply Rmin_assoc.
Qed.

(** X13: [safeDistInDirection] returns the least of [SP_INFINITY] and the
    candidate distances of the obstacles: it is [SP_INFINITY] for no
    obstacle, never above [SP_INFINITY] nor above the candidate of any
    obstacle, equal to one of them, not negative when [SP_INFINITY] is not,
    and the result for two lists of obstacles put together is the smaller
    of the two results, so that it depends neither on the order of the
    obstacles nor on their grouping. *)
Theorem safeDistInDirection_least_candidate
    (SP_INFINITY : R) (position direction : point3d)
    (obstacles : list (point3d * R)) (radius : R) :
  let candidate := safe_dist_candidate SP_INFINITY position direction radius in
  let result := safeDistInDirection SP_INFINITY position direction obstacles radius in
  safeDistInDirection SP_INFINITY position direction [] radius = SP_INFINITY
  /\ result <= SP_INFINITY
  /\ (forall o, In o obstacles -> result <= candidate o)
  /\ (result = SP_INFINITY \/ exists o, In o obstacles /\ result = candidate o)
  /\ (0 <= SP_INFINITY -> 0 <= result)
  /\ forall more,
       safeDistInDirection SP_INFINITY position direction (obstacles ++ more) radius
       = Rmin result (safeDistInDirection SP_INFINITY position direction more radius).
Proof.
  intros candidate result.
  assert (Hmin : forall l,
            safeDistInDirection SP_INFINITY position direction l radius
            = fold_left (fun a o => Rmin a (candidate o)) l SP_INFINITY)
    by (intros l; apply safeDistInDirection_min).
  unfold result. rewrite !Hmin.
  destruct (fold_min_le candidate obstacles SP_INFINITY) as (H1 & H2 & H3).
  split; [reflexivity|]. split; [exact H1|]. split; [exact H2|]. split; [exact H3|].
  split.
  - intros Hinf. destruct H3 as [-> | (o & _ & ->)]; [exact Hinf|].
    unfold candidate, safe_dist_candidate. cbv zeta.
    destruct (Rlt_dec _ _); [apply Rmax_r | exact Hinf].
  - intros more. rewrite !Hmin, fold_left_app.
    set (r0 := fold_left (fun a o => Rmin a (candidate o)) obstacles SP_INFINITY) in *.
    replace r0 with (Rmin r0 SP_INFINITY) at 1 by (apply Rmin_left; exact H1).
    apply fold_min_acc.
Qed.

(** The distance from an obstacle to a point of the ray. *)
Lemma distance_on_ray (position direction obs : point3d) (s : R) :
  norm_sq direction = 1 ->
  let t := dot (obs [-] position) direction in
  norm_sq (position [+] direction [*] s [-] obs)
  = norm_sq (obs [-] position) - t * t + (t - s) * (t - s).
Proof.
  intros Hn t.
  replace (norm_sq (position [+] direction [*] s [-] obs))
    with (norm_sq (obs [-] position) - 2 * s * t + s * s * norm_sq direction)
    by (unfold t, norm_sq, dot, padd, psub, pscale; simpl; ring).
  rewrite Hn. ring.
Qed.

(** The candidate of an obstacle that projects ahead of the position, on a
    ray of unit direction: the distance to the foot of the perpendicular,
    less the half chord of the sphere, when the ray comes within the sum of
    the radii. *)
Lemma safe_dist_candidate_ahead
    (SP_INFINITY : R) (position direction : point3d) (radius : R)
    (obstacle : point3d * R) :
  norm direction = 1 ->
  let t := dot (fst obstacle [-] position) direction in
  let h := sqrt (norm_sq (fst obstacle [-] position) - t * t) in
  let radius_sum := snd obstacle + radius in
  0 <= t ->
  0 <= norm_sq (fst obstacle [-] position) - t * t
  /\ safe_dist_candidate SP_INFINITY position direction radius obstacle
     = if Rlt_dec h radius_sum
       then Rmax (t - sqrt (radius_sum * radius_sum - h * h)) 0
       else SP_INFINITY.
Proof.
  intros Hn t h radius_sum Ht. pose proof (norm_one_sq _ Hn) as Hn2.
  assert (Hnot : ~ dot (fst obstacle [-] position) direction < 0) by (fold t; lra).
  destruct (closestPointsBetweenPointAndRay_ahead (fst obstacle) position direction Hnot)
    as [_ Hcp].
  fold t in Hcp.
  assert (Hperp : 0 <= norm_sq (fst obstacle [-] position) - t * t).
  { pose proof (lagrange_identity (fst obstacle [-] position) direction) as Hl.
    rewrite Hn2 in Hl. fold t in Hl.
    pose proof (norm_sq_nonneg (cross (fst obstacle [-] position) direction)). lra. }
  split; [exact Hperp|].
  assert (Hdist : dist (closestPointsBetweenPointAndRay (fst obstacle) position direction)
                  = h).
  { unfold closestPointsBetweenPointAndRay. fold t.
    destruct (Rlt_dec t 0); [lra|]. cbn [dist closestPointsBetweenPointAndLine].
    unfold h, norm. f_equal.
    replace (norm_sq (position [-] fst obstacle
                      [-] direction [*] dot (position [-] fst obstacle) direction))
      with (norm_sq (fst obstacle [-] position) - 2 * t * t + t * t * norm_sq direction)
      by (unfold t, norm_sq, dot, padd, psub, pscale; simpl; ring).
    rewrite Hn2. ring. }
  unfold safe_dist_candidate. cbv zeta. rewrite Hdist, Hcp. fold radius_sum.
  destruct (Rlt_dec h radius_sum); [|reflexivity].
  f_equal. f_equal.
  replace (position [+] direction [*] t [-] position) with (direction [*] t)
    by (apply point3d_ext; unfold padd, psub, pscale; simpl; ring).
  rewrite (norm_pscale_unit direction t Hn2). apply Rabs_right. lra.
Qed.

(** X14: along a direction of unit length, when every obstacle either
    projects ahead of the position or is at least the sum of the radii away
    from it, every point of the ray nearer to the position than the
    distance [safeDistInDirection] returns is at least the sum of the radii
    away from every obstacle. *)
Theorem safeDistInDirection_safe
    (SP_INFINITY : R) (position direction : point3d)
    (obstacles : list (point3d * R)) (radius s : R) (o : point3d * R) :
  norm direction = 1 ->
  (forall o', In o' obstacles ->
     0 <= dot (fst o' [-] position) direction
     \/ snd o' + radius <= distance (fst o') position) ->
  0 <= s < safeDistInDirection SP_INFINITY position direction obstacles radius ->
  In o obstacles ->
  snd o + radius <= distance (position [+] direction [*] s) (fst o).
Proof.
  intros Hn Hahead [Hs0 Hs] Hin. pose proof (norm_one_sq _ Hn) as Hn2.
  rewrite safeDistInDirection_min in Hs.
  destruct (fold_min_le (safe_dist_candidate SP_INFINITY position direction radius)
              obstacles SP_INFINITY) as (_ & Hle & _).
  specialize (Hle o Hin).
  assert (Hcand : s < safe_dist_candidate SP_INFINITY position direction radius o)
    by lra.
  clear Hle Hs.
  set (R0 := snd o + radius) in *.
  pose proof (closestPointsBetweenPointAndRay_dist_least
                (fst o) position direction s Hn2 Hs0) as Hleast.
  rewrite <- distance_norm in Hleast.
  (* the least distance from the obstacle to the ray *)
  set (cp := closestPointsBetweenPointAndRay (fst o) position direction) in *.
  destruct (Rlt_dec (dist cp) R0) as [Hnear | Hfar].
  2:{ rewrite distance_sym. lra. }
  assert (Ht : 0 <= dot (fst o [-] position) direction).
  { destruct (Rlt_dec (dot (fst o [-] position) direction) 0) as [Hb | Hb]; [|lra].
    destruct (Hahead o Hin) as [H | H]; [exact H | exfalso].
    unfold cp in Hnear.
    rewrite (closestPointsBetweenPointAndRay_behind _ _ _ Hb) in Hnear.
    cbn [dist] in Hnear. rewrite distance_norm in H. fold R0 in H. lra. }
  destruct (safe_dist_candidate_ahead SP_INFINITY position direction radius o Hn Ht)
    as [Hperp Hc].
  cbv zeta in Hc. fold R0 in Hc. rewrite Hc in Hcand. clear Hc.
  set (t := dot (fst o [-] position) direction) in *.
  set (A := norm_sq (fst o [-] position)) in *.
  set (h := sqrt (A - t * t)) in *.
  assert (Hh0 : 0 <= h) by apply sqrt_pos.
  assert (Hhh : h * h = A - t * t) by (apply sqrt_sqrt; exact Hperp).
  destruct (Rlt_dec h R0) as [HhR | HhR].
  - assert (Hw0 : 0 <= sqrt (R0 * R0 - h * h)) by apply sqrt_pos.
    assert (Hww : sqrt (R0 * R0 - h * h) * sqrt (R0 * R0 - h * h) = R0 * R0 - h * h)
      by (apply sqrt_sqrt; nra).
    set (w := sqrt (R0 * R0 - h * h)) in *.
    assert (Hts : w < t - s).
    { unfold Rmax in Hcand. destruct (Rle_dec (t - w) 0); lra. }
    left. rewrite distance_norm. apply radius_lt_norm; [lra|].
    rewrite (distance_on_ray position direction (fst o) s Hn2). fold t A. nra.
  - rewrite distance_sym.
    assert (Hd : dist cp = h).
    { unfold cp, closestPointsBetweenPointAndRay. fold t.
      destruct (Rlt_dec t 0); [lra|]. cbn [dist closestPointsBetweenPointAndLine].
      unfold h, norm. f_equal.
      replace (norm_sq (position [-] fst o
                        [-] direction [*] dot (position [-] fst o) direction))
        with (norm_sq (fst o [-] position) - 2 * t * t + t * t * norm_sq direction)
        by (unfold t, norm_sq, dot, padd, psub, pscale; simpl; ring).
      rewrite Hn2. fold A. ring. }
    lra.
Qed.

(** X15: for a single obstacle that projects behind the position and is
    nearer to it than the sum of the radii, [safeDistInDirection] takes the
    second point of [closestPointsBetweenPointAndRay], the zero vector, for
    the nearest point of the ray: the candidate is the distance of the
    position from the origin of the frame, less the half chord, and the
    result is positive whenever that distance exceeds the half chord,
    although the position is already within the sum of the radii. *)
Theorem safeDistInDirection_obstacle_behind
    (SP_INFINITY : R) (position direction obs_position : point3d)
    (obs_radius radius : R) :
  let radius_sum := obs_radius + radius in
  let d0 := distance obs_position position in
  dot (obs_position [-] position) direction < 0 ->
  d0 < radius_sum ->
  let result :=
    safeDistInDirection SP_INFINITY position direction
                        [(obs_position, obs_radius)] radius in
  result = Rmin SP_INFINITY
                (Rmax (norm position - sqrt (radius_sum * radius_sum - d0 * d0)) 0)
  /\ (sqrt (radius_sum * radius_sum - d0 * d0) < norm position ->
      0 < SP_INFINITY -> 0 < result).
Proof.
  intros radius_sum d0 Hb Hd result.
  assert (Hres : result
                 = Rmin SP_INFINITY
                     (Rmax (norm position
                            - sqrt (radius_sum * radius_sum - d0 * d0)) 0)).
  { unfold result. rewrite safeDistInDirection_min. cbn [fold_left]. f_equal.
    unfold safe_dist_candidate. cbn [fst snd].
    rewrite (closestPointsBetweenPointAndRay_behind _ _ _ Hb).
    cbn [dist closest_point2]. fold radius_sum. rewrite <- distance_norm. fold d0.
    destruct (Rlt_dec d0 radius_sum); [|contradiction].
    unfold point3d_default.
    replace (mkPoint3d 0 0 0 [-] position) with (pneg position)
      by (apply point3d_ext; unfold psub, pneg; simpl; ring).
    rewrite norm_pneg. reflexivity. }
  split; [exact Hres|].
  intros Hpos Hinf. rewrite Hres.
  apply Rmin_glb_lt; [exact Hinf|].
  eapply Rlt_le_trans; [|apply Rmax_l]. lra.
Qed.

(** ** Runs of the further properties *)

Lemma normalized_unit (v : point3d) : norm v = 1 -> normalized v = v.
Proof.
  intros H. unfold normalized. rewrite H.
  destruct (Rgt_dec 1 0); [|reflexivity].
  apply point3d_ext; simpl; field.
Qed.

Lemma one_le_distance (a b : point3d) :
  1 <= norm_sq (a [-] b) -> 1 <= distance a b.
Proof.
  intros H. rewrite distance_norm. unfold norm. rewrite <- sqrt_1.
  apply sqrt_le_1_alt. exact H.
Qed.

Lemma seg_a_direction :
  normalized (end_point seg_a [-] start_point seg_a) = mkPoint3d 1 0 0.
Proof.
  rewrite normalized_unit.
  - apply point3d_ext; simpl; ring.
  - apply norm_eval; [lra | unfold norm_sq; simpl; ring].
Qed.

Lemma seg_v_direction :
  normalized (end_point seg_v [-] start_point seg_v) = mkPoint3d 0 1 0.
Proof.
  rewrite normalized_unit.
  - apply point3d_ext; simpl; ring.
  - apply norm_eval; [lra | unfold norm_sq; simpl; ring].
Qed.

Lemma seg_w_direction :
  normalized (end_point seg_w [-] start_point seg_w) = mkPoint3d 1 0 0.
Proof.
  rewrite normalized_unit.
  - apply point3d_ext; simpl; ring.
  - apply norm_eval; [lra | unfold norm_sq; simpl; ring].
Qed.

Lemma closestPointsBetweenPointAndLine_foot_witness :
  let point := mkPoint3d 2 1 0 in
  let line_point := mkPoint3d 0 0 0 in
  let c := closestPointsBetweenPointAndLine point line_point axis_x in
  closest_point1 c = point
  /\ closest_point2 c = line_point [+] axis_x [*] dot (point [-] line_point) axis_x
  /\ dot (closest_point2 c [-] point) axis_x = 0
  /\ dist c = distance point (closest_point2 c)
  /\ forall s, dist c <= distance point (line_point [+] axis_x [*] s).
Proof.
  exact (closestPointsBetweenPointAndLine_foot
           (mkPoint3d 2 1 0) (mkPoint3d 0 0 0) axis_x norm_unit_axis).
Defined.

Lemma closestPointsBetweenPointAndRay_least_distance_witness :
  let point := mkPoint3d 3 4 0 in
  let ray_start := mkPoint3d 0 0 0 in
  let c := closestPointsBetweenPointAndRay point ray_start axis_x in
  let t := dot (point [-] ray_start) axis_x in
  closest_point1 c = point
  /\ dist c = distance point (ray_start [+] axis_x [*] Rmax t 0)
  /\ (forall s, 0 <= s -> dist c <= distance point (ray_start [+] axis_x [*] s))
  /\ (0 <= t ->
      closest_point2 c = ray_start [+] axis_x [*] t
      /\ dist c = distance (closest_point1 c) (closest_point2 c)).
Proof.
  exact (closestPointsBetweenPointAndRay_least_distance
           (mkPoint3d 3 4 0) (mkPoint3d 0 0 0) axis_x norm_unit_axis).
Defined.

Lemma computeCollisionTime_no_earlier_collision_witness :
  let rel := relative_position path_at_rest path_through in
  let result :=
    computeCollisionTime 1000000000 true path_at_rest path_through 1 4 in
  (result = 1000000000 \/ result <= 4)
  /\ (forall alpha, 0 <= alpha <= 1 -> alpha * 4 < result -> 1 < norm (rel alpha))
  /\ (true = false
      \/ (exists alpha, 0 <= alpha < 1 /\ norm (rel alpha) <= norm (rel 1)) ->
      (result = 1000000000 \/ 0 <= result <= 4)
      /\ ((exists alpha, 0 <= alpha <= 1 /\ norm (rel alpha) <= 1) ->
          0 <= result <= 4 /\ norm (rel (result / 4)) <= 1)).
Proof.
  apply (computeCollisionTime_no_earlier_collision
           1000000000 true path_at_rest path_through 1 4).
  lra.
Defined.

Lemma closestPointsBetweenLines_common_perpendicular_witness :
  let n1 := normalized (end_point seg_a [-] start_point seg_a) in
  let n2 := normalized (end_point seg_v [-] start_point seg_v) in
  exists c,
    closestPointsBetweenLines SP_EPSILON_FLOAT_spec seg_a seg_v = Some c
    /\ (exists S, closest_point1 c = start_point seg_a [+] n1 [*] S)
    /\ (exists T, closest_point2 c = start_point seg_v [+] n2 [*] T)
    /\ dot (closest_point2 c [-] closest_point1 c) n1 = 0
    /\ dot (closest_point2 c [-] closest_point1 c) n2 = 0
    /\ dist c = distance (closest_point1 c) (closest_point2 c)
    /\ forall s t,
         dist c <= distance (start_point seg_a [+] n1 [*] s)
                            (start_point seg_v [+] n2 [*] t).
Proof.
  apply (closestPointsBetweenLines_common_perpendicular SP_EPSILON_FLOAT_spec seg_a seg_v).
  - unfold SP_EPSILON_FLOAT_spec. lra.
  - simpl. intros H. injection H as H. lra.
  - simpl. intros H. injection H as H. lra.
  - rewrite seg_a_direction, seg_v_direction. unfold SP_EPSILON_FLOAT_spec.
    assert (H : 1 <= distance (mkPoint3d 1 0 0) (mkPoint3d 0 1 0))
      by (apply one_le_distance; unfold norm_sq; simpl; lra).
    lra.
  - rewrite seg_a_direction, seg_v_direction. unfold SP_EPSILON_FLOAT_spec.
    assert (H : 1 <= distance (mkPoint3d 1 0 0) (pneg (mkPoint3d 0 1 0)))
      by (apply one_le_distance; unfold norm_sq; simpl; lra).
    lra.
Defined.

Lemma closestPointsBetweenLines_parallel_witness :
  let n1 := normalized (end_point seg_a [-] start_point seg_a) in
  let n2 := normalized (end_point seg_w [-] start_point seg_w) in
  exists c,
    closestPointsBetweenLines SP_EPSILON_FLOAT_spec seg_a seg_w = Some c
    /\ closest_point1 c = start_point seg_a
    /\ (exists T, closest_point2 c = start_point seg_w [+] n2 [*] T)
    /\ dot (closest_point2 c [-] closest_point1 c) n1 = 0
    /\ dist c = distance (closest_point1 c) (closest_point2 c)
    /\ forall s t,
         dist c <= distance (start_point seg_a [+] n1 [*] s)
                            (start_point seg_w [+] n2 [*] t).
Proof.
  destruct (closestPointsBetweenLines_parallel SP_EPSILON_FLOAT_spec seg_a seg_w)
    as [_ H].
  apply H.
  - unfold SP_EPSILON_FLOAT_spec. lra.
  - simpl. intros He. injection He as He. lra.
  - simpl. intros He. injection He as He. lra.
  - left. rewrite seg_a_direction, seg_w_direction. reflexivity.
Defined.

Lemma closestPointsBetweenLineSegments_returns_witness :
  let d1 := distance (start_point seg_a) (end_point seg_a) in
  let d2 := distance (start_point seg_b) (end_point seg_b) in
  exists c,
    closestPointsBetweenLineSegments SP_EPSILON_FLOAT_spec seg_a seg_b = Some c
    /\ dist c = distance (closest_point1 c) (closest_point2 c)
    /\ (d1 < SP_EPSILON_FLOAT_spec ->
        closest_point1 c = start_point seg_a
        /\ (exists t, 0 <= t <= 1 /\ closest_point2 c = path_point seg_b t)
        /\ forall t, 0 <= t <= 1 ->
             dist c <= distance (start_point seg_a) (path_point seg_b t))
    /\ (~ d1 < SP_EPSILON_FLOAT_spec -> d2 < SP_EPSILON_FLOAT_spec ->
        closest_point2 c = start_point seg_b
        /\ (exists s, 0 <= s <= 1 /\ closest_point1 c = path_point seg_a s)
        /\ forall s, 0 <= s <= 1 ->
             dist c <= distance (path_point seg_a s) (start_point seg_b)).
Proof.
  apply (closestPointsBetweenLineSegments_returns SP_EPSILON_FLOAT_spec seg_a seg_b).
  unfold SP_EPSILON_FLOAT_spec. lra.
Defined.

Lemma closestPointsBetweenLineSegments_skew_least_witness :
  exists c,
    closestPointsBetweenLineSegments SP_EPSILON_FLOAT_spec seg_x seg_y = Some c
    /\ (exists s, 0 <= s <= 1 /\ closest_point1 c = path_point seg_x s)
    /\ (exists t, 0 <= t <= 1 /\ closest_point2 c = path_point seg_y t)
    /\ dist c = distance (closest_point1 c) (closest_point2 c)
    /\ forall s t, 0 <= s <= 1 -> 0 <= t <= 1 ->
         dist c <= distance (path_point seg_x s) (path_point seg_y t).
Proof.
  apply (closestPointsBetweenLineSegments_skew_least SP_EPSILON_FLOAT_spec seg_x seg_y).
  - unfold SP_EPSILON_FLOAT_spec. lra.
  - unfold SP_EPSILON_FLOAT_spec. unfold_p3. sqrt_is 2. lra.
  - unfold SP_EPSILON_FLOAT_spec. unfold_p3. sqrt_is 2. lra.
  - unfold SP_EPSILON_FLOAT_spec. unfold_p3. sqrt_is 2. sqrt_is 2. sqrt_is 1. lra.
Defined.

Lemma closestPointsBetweenLineSegments_parallel_least_witness :
  exists c,
    closestPointsBetweenLineSegments SP_EPSILON_FLOAT_spec seg_a seg_b = Some c
    /\ (exists s, 0 <= s <= 1 /\ closest_point1 c = path_point seg_a s)
    /\ (exists t, 0 <= t <= 1 /\ closest_point2 c = path_point seg_b t)
    /\ dist c = distance (closest_point1 c) (closest_point2 c)
    /\ forall s t, 0 <= s <= 1 -> 0 <= t <= 1 ->
         dist c <= distance (path_point seg_a s) (path_point seg_b t).
Proof.
  apply (closestPointsBetweenLineSegments_parallel_least
           SP_EPSILON_FLOAT_spec seg_a seg_b).
  - unfold SP_EPSILON_FLOAT_spec. lra.
  - unfold SP_EPSILON_FLOAT_spec. unfold_p3. sqrt_is 1. lra.
  - unfold SP_EPSILON_FLOAT_spec. unfold_p3. sqrt_is 2. lra.
  - apply point3d_ext; unfold_p3; ring.
Defined.

(** The obstacle of radius 1/2 five ahead on the first axis, for an agent
    of radius 1/2 at the origin: the agent can move 4 before the two
    spheres touch. *)
Lemma safeDistInDirection_run :
  safeDistInDirection 1000 (mkPoint3d 0 0 0) axis_x [obstacle_ahead] (1 / 2) = 4.
Proof.
  rewrite safeDistInDirection_min. cbn [fold_left].
  destruct (safe_dist_candidate_ahead 1000 (mkPoint3d 0 0 0) axis_x (1 / 2)
              obstacle_ahead norm_unit_axis) as [_ Hc].
  { unfold_p3. lra. }
  rewrite Hc. clear Hc. unfold obstacle_ahead, axis_x. unfold_p3.
  replace ((5 - 0) * (5 - 0) + (0 - 0) * (0 - 0) + (0 - 0) * (0 - 0)
           - ((5 - 0) * 1 + (0 - 0) * 0 + (0 - 0) * 0)
             * ((5 - 0) * 1 + (0 - 0) * 0 + (0 - 0) * 0)) with 0 by ring.
  rewrite sqrt_0.
  destruct (Rlt_dec 0 (1 / 2 + 1 / 2)) as [_ | H]; [|exfalso; lra].
  replace ((1 / 2 + 1 / 2) * (1 / 2 + 1 / 2) - 0 * 0) with 1 by field.
  rewrite sqrt_1.
  rewrite Rmax_left by lra. rewrite Rmin_right by lra. ring.
Qed.

Lemma safeDistInDirection_safe_witness :
  snd obstacle_ahead + 1 / 2
  <= distance (mkPoint3d 0 0 0 [+] axis_x [*] 3) (fst obstacle_ahead).
Proof.
  apply (safeDistInDirection_safe 1000 (mkPoint3d 0 0 0) axis_x [obstacle_ahead]
           (1 / 2) 3 obstacle_ahead).
  - exact norm_unit_axis.
  - intros o' [<- | []]. left. unfold_p3. lra.
  - rewrite safeDistInDirection_run. lra.
  - left. reflexivity.
Defined.

Lemma safeDistInDirection_obstacle_behind_witness :
  let position := mkPoint3d 10 0 0 in
  let obs_position := mkPoint3d (19 / 2) 0 0 in
  let radius_sum := 1 / 2 + 1 / 2 in
  let d0 := distance obs_position position in
  let result :=
    safeDistInDirection 1000 position axis_x [(obs_position, 1 / 2)] (1 / 2) in
  result = Rmin 1000 (Rmax (norm position - sqrt (radius_sum * radius_sum - d0 * d0)) 0)
  /\ (sqrt (radius_sum * radius_sum - d0 * d0) < norm position ->
      0 < 1000 -> 0 < result).
Proof.
  apply (safeDistInDirection_obstacle_behind 1000 (mkPoint3d 10 0 0) axis_x
           (mkPoint3d (19 / 2) 0 0) (1 / 2) (1 / 2)).
  - unfold_p3. lra.
  - unfold distance; simpl. sqrt_is (1 / 2). lra.
Defined.

Lemma relative_position_closing (alpha : R) :
  alpha <= 1 ->
  norm (relative_position path_at_rest path_closing alpha) = 1 - 9 / 10 * alpha.
Proof.
  intros Ha. apply norm_eval; [lra|].
  unfold norm_sq, relative_position, path_point, padd, psub, pscale; simpl. field.
Qed.

Lemma computeCollisionTime_end_of_path_rounded_witness :
  let rel := relative_position path_at_rest path_closing in
  let alpha_end :=
    1 - sqrt (1 / 2 * (1 / 2) - norm (rel 1) * norm (rel 1)) / norm (rel 1 [-] rel 0) in
  computeCollisionTime 1000000000 true path_at_rest path_closing (1 / 2) 1
  = alpha_end * 1
  /\ exists alpha_entry,
       0 < alpha_entry <= 1
       /\ norm (rel alpha_entry) = 1 / 2
       /\ computeCollisionTime 1000000000 false path_at_rest path_closing (1 / 2) 1
          = alpha_entry * 1
       /\ alpha_end <= alpha_entry
       /\ (norm (rel 1) < 1 / 2 ->
           dot (rel 1) (rel 1 [-] rel 0) < 0 ->
           alpha_end < alpha_entry /\ 1 / 2 < norm (rel alpha_end)).
Proof.
  apply (computeCollisionTime_end_of_path_rounded
           1000000000 path_at_rest path_closing (1 / 2) 1).
  - rewrite relative_position_closing by lra. lra.
  - rewrite relative_position_closing by lra. lra.
  - intros alpha Ha. rewrite !relative_position_closing by lra. lra.
Defined.

(** The agent of [path_closing]: the time of entry is 5/9, and with the
    comparison spoiled the time returned is about 0.4557, at which the agent
    is still 0.59 away. *)
Lemma computeCollisionTime_end_of_path_run :
  computeCollisionTime 1000000000 true path_at_rest path_closing (1 / 2) 1
  = 1 - sqrt (6 / 25) / (9 / 10)
  /\ computeCollisionTime 1000000000 false path_at_rest path_closing (1 / 2) 1 = 5 / 9
  /\ 1 - sqrt (6 / 25) / (9 / 10) < 5 / 9
  /\ 1 / 2 < norm (relative_position path_at_rest path_closing
                     (1 - sqrt (6 / 25) / (9 / 10))).
Proof.
  assert (Hstart : 1 / 2 < norm (relative_position path_at_rest path_closing 0))
    by (rewrite relative_position_closing by lra; lra).
  assert (Hreach : exists alpha,
            0 <= alpha <= 1
            /\ norm (relative_position path_at_rest path_closing alpha) <= 1 / 2).
  { exists 1. split; [lra|]. rewrite relative_position_closing by lra. lra. }
  assert (Hmin : forall alpha, 0 <= alpha < 1 ->
            norm (relative_position path_at_rest path_closing 1)
            < norm (relative_position path_at_rest path_closing alpha)).
  { intros alpha Hal. rewrite !relative_position_closing by lra. lra. }
  assert (Hd : norm (relative_position path_at_rest path_closing 1
                     [-] relative_position path_at_rest path_closing 0) = 9 / 10).
  { apply norm_eval; [lra|].
    unfold norm_sq, relative_position, path_point, padd, psub, pscale; simpl. field. }
  pose proof (computeCollisionTime_entry 1000000000 true path_at_rest path_closing
                (1 / 2) 1) as Ht.
  pose proof (computeCollisionTime_entry 1000000000 false path_at_rest path_closing
                (1 / 2) 1) as Hf.
  cbv zeta in Ht, Hf.
  destruct (Ht Hstart Hreach) as (a & Ha & Hat & Hbefore & _ & _ & Hslip & _).
  destruct (Hf Hstart Hreach) as (a' & Ha' & Hat' & _ & _ & Hgood & _).
  rewrite relative_position_closing in Hat, Hat' by lra.
  assert (Ha59 : a = 5 / 9) by lra. assert (Ha59' : a' = 5 / 9) by lra. subst a a'.
  destruct (Hslip eq_refl Hmin) as (Hres & _ & Hlt).
  rewrite Hd, (relative_position_closing 1) in Hres, Hlt by lra.
  replace (1 / 2 * (1 / 2) - (1 - 9 / 10 * 1) * (1 - 9 / 10 * 1)) with (6 / 25)
    in Hres, Hlt by field.
  assert (Hearly : 1 - sqrt (6 / 25) / (9 / 10) < 5 / 9).
  { apply Hlt; [lra|].
    unfold dot, relative_position, path_point, padd, psub, pscale; simpl. lra. }
  split; [rewrite Hres; ring|].
  split; [rewrite (Hgood (or_introl eq_refl)); ring|].
  split; [exact Hearly|]. apply Hbefore. exact Hearly.
Qed.

(** C5 as stated also fails on two segments shorter than the guard: the
    two orders measure from different start points, and the distances
    differ. *)
Lemma closestPointsBetweenLineSegments_run_short :
  closestPointsBetweenLineSegments SP_EPSILON_FLOAT_spec seg_s seg_s'
  = Some (mkClosestPoints 1 (mkPoint3d 0 0 0) (mkPoint3d 1 0 0))
  /\ closestPointsBetweenLineSegments SP_EPSILON_FLOAT_spec seg_s' seg_s
     = Some (mkClosestPoints (199999 / 200000) (mkPoint3d 1 0 0)
                             (mkPoint3d (1 / 200000) 0 0)).
Proof.
  assert (Hd : forall u v, 0 <= v - u ->
             distance (mkPoint3d u 0 0) (mkPoint3d v 0 0) = v - u).
  { intros u v H. rewrite distance_sym, distance_norm. apply norm_eval; [exact H|].
    unfold norm_sq, psub; simpl. ring. }
  assert (Hd' : forall u v, 0 <= u - v ->
             distance (mkPoint3d u 0 0) (mkPoint3d v 0 0) = u - v).
  { intros u v H. rewrite distance_norm. apply norm_eval; [exact H|].
    unfold norm_sq, psub; simpl. ring. }
  unfold closestPointsBetweenLineSegments, seg_s, seg_s', SP_EPSILON_FLOAT_spec.
  cbn [start_point end_point]. rewrite !Hd by lra.
  destruct (Rlt_dec (1 / 200000 - 0) (1 / 100000)) as [_ | H]; [|exfalso; lra].
  destruct (Rlt_dec (1 + 1 / 200000 - 1) (1 / 100000)) as [_ | H]; [|exfalso; lra].
  split; f_equal.
  - destruct (closestPointsBetweenPointAndLineSegment_closest
                (mkPoint3d 0 0 0) (mkLine (mkPoint3d 1 0 0) (mkPoint3d (1 + 1 / 200000) 0 0)))
      as (t & Ht & -> & Hleast).
    assert (Hp : forall s, path_point (mkLine (mkPoint3d 1 0 0)
                                              (mkPoint3d (1 + 1 / 200000) 0 0)) s
                           = mkPoint3d (1 + s / 200000) 0 0).
    { intros s. apply point3d_ext; unfold path_point, padd, psub, pscale; simpl; lra. }
    specialize (Hleast 0). rewrite !Hp in *. rewrite !Hd in Hleast by lra.
    assert (Ht0 : t = 0) by lra. subst t.
    rewrite Hd by lra. apply ClosestPoints_ext; simpl; lra.
  - destruct (closestPointsBetweenPointAndLineSegment_closest
                (mkPoint3d 1 0 0) (mkLine (mkPoint3d 0 0 0) (mkPoint3d (1 / 200000) 0 0)))
      as (t & Ht & -> & Hleast).
    assert (Hp : forall s, path_point (mkLine (mkPoint3d 0 0 0)
                                              (mkPoint3d (1 / 200000) 0 0)) s
                           = mkPoint3d (s / 200000) 0 0).
    { intros s. apply point3d_ext; unfold path_point, padd, psub, pscale; simpl; lra. }
    specialize (Hleast 1). rewrite !Hp in *. rewrite !Hd' in Hleast by lra.
    assert (Ht1 : t = 1) by lra. subst t.
    rewrite Hd' by lra. apply ClosestPoints_ext; simpl; lra.
Qed.

(** And it fails on two segments that are parallel within the guard without
    being exactly parallel: the first order returns the distance 1/8, with a
    first point that is not on the first segment, and the second order a
    distance above 1. *)
Lemma closestPointsBetweenLineSegments_run_tilted :
  cross (end_point seg_l [-] start_point seg_l) (end_point seg_t [-] start_point seg_t)
  <> mkPoint3d 0 0 0
  /\ closestPointsBetweenLineSegments SP_EPSILON_FLOAT_spec seg_l seg_t
     = Some (mkClosestPoints (1 / 8) (mkPoint3d (1 / 524288) 1 0)
                             (mkPoint3d (1 / 524288) (9 / 8) 0))
  /\ exists c',
       closestPointsBetweenLineSegments SP_EPSILON_FLOAT_spec seg_t seg_l = Some c'
       /\ closest_point1 c' = start_point seg_t
       /\ 1 < dist c'.
Proof.
  split.
  { unfold seg_l, seg_t, cross, psub. simpl. intros H. injection H as _ _ H. lra. }
  assert (Hl : norm (end_point seg_l [-] start_point seg_l) = 131072).
  { apply norm_eval; [lra|]. unfold norm_sq, psub, seg_l; simpl. lra. }
  assert (Ht : norm (end_point seg_t [-] start_point seg_t) = 68719476737 / 524288).
  { apply norm_eval; [lra|]. unfold norm_sq, psub, seg_t; simpl. lra. }
  unfold closestPointsBetweenLineSegments, SP_EPSILON_FLOAT_spec.
  rewrite !distance_start_end, Hl, Ht.
  destruct (Rlt_dec 131072 (1 / 100000)) as [H | _]; [exfalso; lra|].
  destruct (Rlt_dec (68719476737 / 524288) (1 / 100000)) as [H | _]; [exfalso; lra|].
  assert (Hn1 : (end_point seg_l [-] start_point seg_l) [*] (1 / 131072)
                = mkPoint3d 1 0 0)
    by (apply point3d_ext; unfold seg_l, psub, pscale; simpl; lra).
  assert (Hn2 : (end_point seg_t [-] start_point seg_t) [*] (1 / (68719476737 / 524288))
                = mkPoint3d (- 68719476735 / 68719476737) (524288 / 68719476737) 0)
    by (apply point3d_ext; unfold seg_t, psub, pscale; simpl; lra).
  rewrite Hn1, Hn2.
  assert (Hc12 : norm (cross (mkPoint3d 1 0 0)
                             (mkPoint3d (- 68719476735 / 68719476737)
                                        (524288 / 68719476737) 0))
                 = 524288 / 68719476737)
    by (apply norm_eval; [lra | unfold norm_sq, cross; simpl; lra]).
  assert (Hc21 : norm (cross (mkPoint3d (- 68719476735 / 68719476737)
                                        (524288 / 68719476737) 0)
                             (mkPoint3d 1 0 0))
                 = 524288 / 68719476737)
    by (apply norm_eval; [lra | unfold norm_sq, cross; simpl; lra]).
  rewrite Hc12, Hc21.
  destruct (Rlt_dec (524288 / 68719476737) (1 / 100000)) as [_ | H]; [|exfalso; lra].
  split.
  - f_equal. unfold parallelLineSegments, seg_l, seg_t. unfold_p3.
    repeat decide_Rlt.
    apply ClosestPoints_ext; simpl; try lra.
    sqrt_is (1 / 8). reflexivity.
  - eexists. split; [reflexivity|].
    unfold parallelLineSegments, seg_l, seg_t. unfold_p3.
    repeat decide_Rlt. cbn [dist closest_point1].
    split; [reflexivity|].
    match goal with
    | |- 1 < sqrt ?e =>
        assert (H1 : sqrt 1 < sqrt e) by (apply sqrt_lt_1_alt; simpl; lra);
        rewrite sqrt_1 in H1; exact H1
    end.
Qed.


(** * Further properties of the agent manager *)

Section ManagerCoverage.

Import Geometry.
Import Agent_manager.

Context {C : Collaborators}.

(** ** The mission entries *)

Lemma list_update_nth {A : Type} (l : list A) (n : nat) (f : A -> A) (a : A) :
  nth_error l n = Some a ->
  exists l', list_update l n f = Some l'
             /\ nth_error l' n = Some (f a)
             /\ forall k, k <> n -> nth_error l' k = nth_error l k.
Proof.
  revert n. induction l as [|b l IH]; intros [|n] H; simpl in *; try discriminate.
  - injection H as ->. eexists. split; [reflexivity|]. split; [reflexivity|].
    intros [|k] Hk; [contradiction | reflexivity].
  - destruct (IH n H) as (l' & -> & Hn & Hother).
    eexists. split; [reflexivity|]. split; [exact Hn|].
    intros [|k] Hk; [reflexivity|]. simpl. apply Hother. congruence.
Qed.

Lemma agents_update_at (mi : Mission) (i : Z) (f : Agent -> Agent) (a : Agent) :
  agents_at mi i = Some a ->
  exists mi', agents_update mi i f = Some mi'
              /\ agents_at mi' i = Some (f a)
              /\ forall j, j <> i -> agents_at mi' j = agents_at mi j.
Proof.
  unfold agents_at, agents_update. intros H.
  destruct (i <? 0)%Z eqn:Hi; [discriminate|].
  destruct (list_update_nth (agents mi) (Z.to_nat i) f a H) as (l' & -> & Hn & Ho).
  eexists. split; [reflexivity|]. cbn [agents]. split; [exact Hn|].
  intros j Hj. destruct (j <? 0)%Z eqn:Hj0; [reflexivity|].
  apply Ho. intros He. apply Hj.
  apply Z.ltb_ge in Hi. apply Z.ltb_ge in Hj0.
  rewrite <- (Z2Nat.id j), <- (Z2Nat.id i) by assumption. congruence.
Qed.

(** ** Setters and the state transition *)

Lemma setDesiredGoal_total (m : AgentManager) (g : point3d) :
  well_formed m ->
  exists m' a,
    agents_at (mission m) (id (agent m)) = Some a
    /\ setDesiredGoal m g = Some m'
    /\ agent m' = set_desired_goal_point (agent m) g
    /\ agents_at (mission m') (id (agent m)) = Some (set_desired_goal_point a g)
    /\ (forall j, j <> id (agent m) -> agents_at (mission m') j = agents_at (mission m) j)
    /\ param m' = param m /\ cmd_publisher m' = cmd_publisher m
    /\ planner_state m' = planner_state m
    /\ has_obstacles m' = has_obstacles m
    /\ has_current_state m' = has_current_state m
    /\ well_formed m'.
Proof.
  intros [Hcp Hidx].
  destruct (agents_at (mission m) (id (agent m))) as [a|] eqn:Ha; [|congruence].
  destruct (agents_update_at (mission m) (id (agent m))
              (fun a => set_desired_goal_point a g) a Ha) as (mi' & Hu & Hat & Ho).
  unfold setDesiredGoal. rewrite Hu.
  eexists. exists a. split; [reflexivity|]. split; [reflexivity|]. simpl.
  split; [reflexivity|]. split; [exact Hat|]. split; [exact Ho|].
  do 5 (split; [reflexivity|]).
  split; simpl; [exact Hcp | rewrite Hat; discriminate].
Qed.

Lemma setStartPosition_total (m : AgentManager) (p : point3d) :
  well_formed m ->
  exists m' a,
    agents_at (mission m) (id (agent m)) = Some a
    /\ setStartPosition m p = Some m'
    /\ agent m' = set_start_point (agent m) p
    /\ agents_at (mission m') (id (agent m)) = Some (set_start_point a p)
    /\ (forall j, j <> id (agent m) -> agents_at (mission m') j = agents_at (mission m) j)
    /\ param m' = param m /\ cmd_publisher m' = cmd_publisher m
    /\ planner_state m' = planner_state m
    /\ has_obstacles m' = has_obstacles m
    /\ has_current_state m' = has_current_state m
    /\ well_formed m'.
Proof.
  intros [Hcp Hidx].
  destruct (agents_at (mission m) (id (agent m))) as [a|] eqn:Ha; [|congruence].
  destruct (agents_update_at (mission m) (id (agent m))
              (fun a => set_start_point a p) a Ha) as (mi' & Hu & Hat & Ho).
  unfold setStartPosition. rewrite Hu.
  eexists. exists a. split; [reflexivity|]. split; [reflexivity|]. simpl.
  split; [reflexivity|]. split; [exact Hat|]. split; [exact Ho|].
  do 5 (split; [reflexivity|]).
  split; simpl; [exact Hcp | rewrite Hat; discriminate].
Qed.

(** X16: [setDesiredGoal] and [setStartPosition] write the point both in
    the agent and in the entry of the agent in the mission, which is where
    the state transition run before planning reads it: after
    [setDesiredGoal p] the desired goal is [p] and stays [p] through the
    transition in state [GOTO]; after [setStartPosition p] the start point
    is [p] and the transition in state [GOBACK] makes [p] the desired
    goal. *)
Theorem setters_write_through_to_mission (m : AgentManager) (p : point3d) :
  well_formed m ->
  (exists m1,
     setDesiredGoal m p = Some m1
     /\ getDesiredGoalPoint m1 = p
     /\ getStartPoint m1 = getStartPoint m
     /\ (planner_state m = GOTO ->
         exists m2, planningStateTransition m1 = Some m2
                    /\ getDesiredGoalPoint m2 = p))
  /\ (exists m1,
        setStartPosition m p = Some m1
        /\ getStartPoint m1 = p
        /\ getDesiredGoalPoint m1 = getDesiredGoalPoint m
        /\ (planner_state m = GOBACK ->
            exists m2, planningStateTransition m1 = Some m2
                       /\ getDesiredGoalPoint m2 = p
                       /\ getStartPoint m2 = p)).
Proof.
  intros Hwf. split.
  - destruct (setDesiredGoal_total m p Hwf)
      as (m1 & a & Ha & Hs & Hag & Hat & _ & _ & _ & Hst & _).
    exists m1. split; [exact Hs|].
    unfold getDesiredGoalPoint, getStartPoint. rewrite Hag.
    split; [reflexivity|]. split; [reflexivity|].
    intros Hgoto. unfold planningStateTransition. rewrite Hst, Hgoto, Hag.
    cbn [PlannerState_eqb id set_desired_goal_point]. rewrite Hat.
    eexists. split; reflexivity.
  - destruct (setStartPosition_total m p Hwf)
      as (m1 & a & Ha & Hs & Hag & Hat & _ & _ & _ & Hst & _).
    exists m1. split; [exact Hs|].
    unfold getDesiredGoalPoint, getStartPoint. rewrite Hag.
    split; [reflexivity|]. split; [reflexivity|].
    intros Hback. unfold planningStateTransition. rewrite Hst, Hback, Hag.
    cbn [PlannerState_eqb id set_start_point andb]. rewrite Hat.
    eexists. split; [reflexivity|]. split; reflexivity.
Qed.

(** What [planningStateTransition] keeps and what it writes. *)
Lemma planningStateTransition_keeps (m m' : AgentManager) :
  planningStateTransition m = Some m' ->
  param m' = param m /\ mission m' = mission m
  /\ planner_state m' = planner_state m
  /\ id (agent m') = id (agent m)
  /\ current_state (agent m') = current_state (agent m)
  /\ current_goal_point (agent m') = current_goal_point (agent m)
  /\ next_waypoint (agent m') = next_waypoint (agent m)
  /\ has_obstacles m' = has_obstacles m
  /\ has_current_state m' = has_current_state m
  /\ desired_traj m' = desired_traj m
  /\ traj_planner m' = traj_planner m
  /\ (planner_state m <> PATROL -> start_point (agent m') = start_point (agent m))
  /\ (planner_state m = WAIT \/ planner_state m = LAND -> m' = m)
  /\ (planner_state m = GOTO ->
      forall a, agents_at (mission m) (id (agent m)) = Some a ->
        desired_goal_point (agent m') = desired_goal_point a)
  /\ (planner_state m = GOBACK ->
      forall a, agents_at (mission m) (id (agent m)) = Some a ->
        desired_goal_point (agent m') = start_point a).
Proof.
  unfold planningStateTransition.
  destruct (planner_state m) eqn:Hst; cbn [PlannerState_eqb andb];
    try (destruct (agents_at (mission m) (id (agent m))) as [a|]; [|discriminate]);
    try destruct (Rltb _ _);
    intros H; injection H as <-; simpl;
    repeat split;
    first [ reflexivity | assumption | congruence | (intros; congruence)
          | (intros [? | ?]; congruence) ].
Qed.

(** X17: the state transition run before planning returns on a well-formed
    manager and is local to the agent: it changes neither the mission, the
    parameters, the planner state, the current state of the agent, its
    current goal and next waypoint, the input flags, nor the trajectory and
    its planner.  It leaves the manager as it is in states [WAIT] and
    [LAND], writes the desired goal from the mission entry in state [GOTO]
    and from its start point in state [GOBACK], and only in state [PATROL]
    can it change the start point of the agent. *)
Theorem planningStateTransition_local (m : AgentManager) :
  well_formed m ->
  exists m',
    planningStateTransition m = Some m'
    /\ param m' = param m /\ mission m' = mission m
    /\ planner_state m' = planner_state m
    /\ getCurrentStateMsg m' = getCurrentStateMsg m
    /\ current_goal_point (agent m') = current_goal_point (agent m)
    /\ getNextWaypoint m' = getNextWaypoint m
    /\ has_obstacles m' = has_obstacles m
    /\ has_current_state m' = has_current_state m
    /\ getTraj m' = getTraj m
    /\ traj_planner m' = traj_planner m
    /\ (planner_state m <> PATROL -> getStartPoint m' = getStartPoint m)
    /\ (planner_state m = WAIT \/ planner_state m = LAND -> m' = m)
    /\ (planner_state m = GOTO ->
        forall a, agents_at (mission m) (id (agent m)) = Some a ->
          getDesiredGoalPoint m' = desired_goal_point a)
    /\ (planner_state m = GOBACK ->
        forall a, agents_at (mission m) (id (agent m)) = Some a ->
          getDesiredGoalPoint m' = start_point a).
Proof.
  intros Hwf.
  destruct (planningStateTransition_total m Hwf) as (m' & Hpst & _).
  destruct (planningStateTransition_keeps m m' Hpst)
    as (H1 & H2 & H3 & _ & H5 & H6 & H7 & H8 & H9 & H10 & H11 & H12 & H13 & H14 & H15).
  exists m'. split; [exact Hpst|].
  unfold getCurrentStateMsg, getNextWaypoint, getTraj, getStartPoint,
    getDesiredGoalPoint.
  rewrite H5. repeat (split; [first [reflexivity | assumption]|]). assumption.
Qed.

(** ** The constructor *)

(** X18: the constructor is undefined when the mission has no agent at
    index [agent_id]; otherwise it builds a manager whose agent is at the
    start point of that mission entry, with current goal and next waypoint
    there and the desired goal of the entry, in state [WAIT], with each of
    the five flags ([has_current_state], [has_obstacles], [has_local_map],
    [is_disturbed], [collision_alert]) down, with a command publisher
    exactly when [multisim_experiment] is set; planning on it reports
    [WAITFORROSMSG] and leaves it as it is, and it satisfies the invariant
    of the member functions when the entry carries its own index as id. *)
Theorem AgentManager_new_initial_state
    (_param : Param) (_mission : Mission) (agent_id : Z)
    (tp : TrajPlanner) (mm : MapManager) (cp : CmdPublisher) (traj : traj_t) :
  (agents_at _mission agent_id = None ->
   AgentManager_new _param _mission agent_id tp mm cp traj = None)
  /\ forall a, agents_at _mission agent_id = Some a ->
       exists m,
         AgentManager_new _param _mission agent_id tp mm cp traj = Some m
         /\ getCurrentPosition m = start_point a
         /\ getStartPoint m = start_point a
         /\ current_goal_point (agent m) = start_point a
         /\ getNextWaypoint m = start_point a
         /\ getDesiredGoalPoint m = desired_goal_point a
         /\ planner_state m = WAIT
         /\ has_current_state m = false /\ has_obstacles m = false
         /\ has_local_map m = false
         /\ is_disturbed m = false /\ collision_alert m = false
         /\ (cmd_publisher m = None <-> multisim_experiment _param = false)
         /\ (forall t, plan m t = Some (WAITFORROSMSG, m))
         /\ (id a = agent_id -> well_formed m).
Proof.
  unfold AgentManager_new. split.
  - intros ->. reflexivity.
  - intros a Ha. rewrite Ha. eexists. split; [reflexivity|]. simpl.
    do 11 (split; [reflexivity|]).
    split; [destruct (multisim_experiment _param); split; congruence|].
    split; [reflexivity|].
    intros Hid. split; simpl.
    + intros ->. discriminate.
    + rewrite Hid, Ha. discriminate.
Qed.

(** ** Sequences of calls *)

Lemma setPlannerState_total (m : AgentManager) (st : PlannerState) :
  well_formed m -> exists m', setPlannerState m st = Some m'.
Proof.
  intros [Hcp _]. unfold setPlannerState.
  destruct (multisim_experiment (param m)) eqn:Hm; simpl.
  - specialize (Hcp eq_refl). destruct (cmd_publisher m); [|congruence].
    destruct (PlannerState_eqb (planner_state m) LAND);
      [destruct (negb _)|]; eexists; reflexivity.
  - eexists; reflexivity.
Qed.

Lemma plan_total (m : AgentManager) (t : Time) :
  well_formed m -> exists r m', plan m t = Some (r, m').
Proof.
  intros Hwf.
  destruct (has_obstacles m) eqn:Ho; [destruct (has_current_state m) eqn:Hs|].
  - destruct (plan_inputs_complete m t Hwf Ho Hs) as (m' & Hp & _). eauto.
  - exists WAITFORROSMSG, m. apply plan_inputs_incomplete. auto.
  - exists WAITFORROSMSG, m. apply plan_inputs_incomplete. auto.
Qed.

Lemma isInitialStateValid_total (m : AgentManager) :
  well_formed m -> exists b, isInitialStateValid m = Some b.
Proof.
  intros [Hcp _]. unfold isInitialStateValid.
  destruct (multisim_experiment (param m)); [|eexists; reflexivity].
  specialize (Hcp eq_refl). destruct (cmd_publisher m) as [cp|]; [|congruence].
  destruct (isAgentPoseUpdated cp); eexists; reflexivity.
Qed.

(** What every call keeps: the parameters, the id of the agent and whether
    there is a command publisher. *)
Lemma call_defined (m : AgentManager) (c : Call) :
  well_formed m ->
  exists m',
    call m c = Some m' /\ well_formed m'
    /\ param m' = param m /\ id (agent m') = id (agent m)
    /\ (cmd_publisher m' = None <-> cmd_publisher m = None).
Proof.
  intros Hwf.
  assert (Hframe : forall m', same_frame m m' ->
            well_formed m' /\ param m' = param m /\ id (agent m') = id (agent m)
            /\ (cmd_publisher m' = None <-> cmd_publisher m = None)).
  { intros m' Hf. split; [eapply same_frame_well_formed; eassumption|].
    destruct Hf as (Hp & _ & Hi & Hc). auto. }
  destruct c; cbn [call].
  - destruct (doStep_total m time_step Hwf) as (m' & Hd & _).
    exists m'. split; [exact Hd|]. apply Hframe. eapply doStep_frame; exact Hd.
  - destruct (plan_total m sim_current_time Hwf) as (r & m' & Hp). rewrite Hp.
    exists m'. split; [reflexivity|]. apply Hframe. eapply plan_frame; exact Hp.
  - destruct (obstacleCallback_total m _msg_obstacles Hwf) as (m' & Hd & _).
    exists m'. split; [exact Hd|]. apply Hframe.
    eapply obstacleCallback_frame; exact Hd.
  - eexists. split; [reflexivity|]. apply Hframe. apply setCurrentState_frame.
  - destruct (setPlannerState_total m new_planner_state Hwf) as (m' & Hd).
    exists m'. split; [exact Hd|]. apply Hframe.
    eapply setPlannerState_frame; exact Hd.
  - destruct (setStartPosition_total m _start_position Hwf)
      as (m' & a & _ & Hs & Hag & _ & _ & Hp & Hc & _ & _ & _ & Hwf').
    exists m'. split; [exact Hs|]. split; [exact Hwf'|]. split; [exact Hp|].
    rewrite Hag, Hc. split; [reflexivity | tauto].
  - destruct (setDesiredGoal_total m new_desired_goal_position Hwf)
      as (m' & a & _ & Hs & Hag & _ & _ & Hp & Hc & _ & _ & _ & Hwf').
    exists m'. split; [exact Hs|]. split; [exact Hwf'|]. split; [exact Hp|].
    rewrite Hag, Hc. split; [reflexivity | tauto].
  - eexists. split; [reflexivity|]. apply Hframe. repeat split; simpl; auto.
Qed.

(** X19: on a well-formed manager every sequence of state-changing calls
    ([doStep], [plan], [obstacleCallback], [setCurrentState],
    [setPlannerState], [setStartPosition], [setDesiredGoal],
    [setNextWaypoint]) is defined, that is no call dereferences a missing
    command publisher or indexes the mission out of bounds; the manager
    reached is well-formed, has the same parameters and agent id,
    [isInitialStateValid] is defined on it, and
    [getObservedAgentPosition] is undefined on it exactly when the manager
    started with had no command publisher. *)
Theorem calls_defined (m : AgentManager) (l : list Call) :
  well_formed m ->
  exists m',
    calls m l = Some m'
    /\ well_formed m'
    /\ param m' = param m
    /\ id (agent m') = id (agent m)
    /\ (exists b, isInitialStateValid m' = Some b)
    /\ (AgentManager_getObservedAgentPosition m' = None <-> cmd_publisher m = None).
Proof.
  intros Hwf.
  assert (Hinv : exists m',
            calls m l = Some m' /\ well_formed m'
            /\ param m' = param m /\ id (agent m') = id (agent m)
            /\ (cmd_publisher m' = None <-> cmd_publisher m = None)).
  { revert m Hwf. induction l as [|c l IH]; intros m Hwf; cbn [calls].
    - exists m. split; [reflexivity|]. split; [exact Hwf|]. tauto.
    - destruct (call_defined m c Hwf) as (m1 & -> & Hwf1 & Hp1 & Hi1 & Hc1).
      destruct (IH m1 Hwf1) as (m' & Hc & Hwf' & Hp & Hi & Hcp).
      exists m'. split; [exact Hc|]. split; [exact Hwf'|].
      split; [congruence|]. split; [congruence|]. tauto. }
  destruct Hinv as (m' & Hc & Hwf' & Hp & Hi & Hcp).
  exists m'. split; [exact Hc|]. split; [exact Hwf'|]. split; [exact Hp|].
  split; [exact Hi|]. split; [apply isInitialStateValid_total; exact Hwf'|].
  unfold AgentManager_getObservedAgentPosition.
  destruct (cmd_publisher m') as [cp'|].
  - split; [discriminate|]. intros Hnone. apply Hcp in Hnone. discriminate.
  - split; [intros _; apply Hcp; reflexivity | reflexivity].
Qed.

(** ** The step without disturbance *)

(** X20: when no disturbance is reported (or the coupling with the command
    executor is off), [doStep] takes position, velocity and acceleration
    from the desired trajectory at [time_step], the height of the position
    replaced by [world_z_2d] in a two-dimensional world; the virtual local
    map is updated at that final position unless the global map is used;
    the current-state flag is raised, the disturbance flag is lowered under
    the coupling and left alone without it, and the trajectory, the planner
    state, the obstacle flag and the mission are unchanged. *)
Theorem doStep_follows_trajectory (m : AgentManager) (time_step : R) :
  well_formed m ->
  (forall cp, multisim_experiment (param m) = true ->
              cmd_publisher m = Some cp -> isDisturbed cp = false) ->
  let ideal := getFutureStateMsg m time_step in
  let p := if (world_dimension (param m) =? 2)%Z
           then mkPoint3d (x (position ideal)) (y (position ideal)) (world_z_2d (param m))
           else position ideal in
  exists m',
    doStep m time_step = Some m'
    /\ getCurrentStateMsg m' = mkState p (velocity ideal) (acceleration ideal)
    /\ map_manager m'
       = (if world_use_global_map (param m) then map_manager m
          else updateVirtualLocalMap (map_manager m) p)
    /\ has_current_state m' = true
    /\ is_disturbed m'
       = (if multisim_experiment (param m) then false else is_disturbed m)
    /\ getTraj m' = getTraj m
    /\ planner_state m' = planner_state m
    /\ has_obstacles m' = has_obstacles m
    /\ mission m' = mission m.
Proof.
  intros [Hcp _] Hcalm ideal p. unfold doStep, p, ideal, getFutureStateMsg.
  destruct (multisim_experiment (param m)) eqn:Hmulti.
  - specialize (Hcp eq_refl).
    destruct (cmd_publisher m) as [cp|] eqn:Hpub; [|congruence].
    cbn [is_disturbed set_is_disturbed]. rewrite (Hcalm cp eq_refl eq_refl).
    cbn -[Z.eqb].
    destruct (world_dimension (param m) =? 2)%Z; cbn -[Z.eqb];
      destruct (world_use_global_map (param m)); cbn -[Z.eqb];
      eexists; (split; [reflexivity|]); repeat split; reflexivity.
  - cbn -[Z.eqb].
    destruct (world_dimension (param m) =? 2)%Z; cbn -[Z.eqb];
      destruct (world_use_global_map (param m)); cbn -[Z.eqb];
      eexists; (split; [reflexivity|]); repeat split; reflexivity.
Qed.

(** ** Planning: the two branches *)

(** X21: with both inputs present, [plan] reports [SUCCESS], lowers both
    input flags and keeps the planner state and the current state.  Under
    the coupling, in state [LAND], it only forwards to the landing callback
    of the command publisher: agent, trajectory, trajectory planner and
    collision alert are unchanged.  In every other situation, state [LAND]
    without the coupling included, it runs the state transition and then
    the trajectory planner on the agent so obtained: trajectory and planner
    are the ones returned, the current goal of the agent is the one the
    planner reports, the collision alert is the planner's, and the command
    publisher receives the trajectory exactly under the coupling. *)
Theorem plan_landing_or_planning (m : AgentManager) (t : Time) :
  well_formed m ->
  has_obstacles m = true -> has_current_state m = true ->
  exists m',
    plan m t = Some (SUCCESS, m')
    /\ has_obstacles m' = false /\ has_current_state m' = false
    /\ planner_state m' = planner_state m
    /\ getCurrentStateMsg m' = getCurrentStateMsg m
    /\ (multisim_experiment (param m) = true -> planner_state m = LAND ->
        agent m' = agent m
        /\ getTraj m' = getTraj m
        /\ traj_planner m' = traj_planner m
        /\ collision_alert m' = collision_alert m
        /\ exists cp, cmd_publisher m = Some cp
                      /\ cmd_publisher m' = Some (landingCallback cp))
    /\ (multisim_experiment (param m) = false \/ planner_state m <> LAND ->
        exists m1,
          planningStateTransition m = Some m1
          /\ let r := TrajPlanner_plan (traj_planner m) (agent m1) (map_manager m)
                                       t (is_disturbed m) in
             getTraj m' = fst r
             /\ traj_planner m' = snd r
             /\ current_goal_point (agent m') = getCurrentGoalPoint m'
             /\ collision_alert m' = getCollisionAlert (snd r)
             /\ getDesiredGoalPoint m' = getDesiredGoalPoint m1
             /\ getStartPoint m' = getStartPoint m1
             /\ (multisim_experiment (param m) = true ->
                 exists cp, cmd_publisher m = Some cp
                            /\ cmd_publisher m' = Some (updateTraj cp (fst r) t))
             /\ (multisim_experiment (param m) = false ->
                 cmd_publisher m' = cmd_publisher m)).
Proof.
  intros Hwf Ho Hs. unfold plan. rewrite Ho, Hs. cbn [negb orb].
  destruct (multisim_experiment (param m) && PlannerState_eqb (planner_state m) LAND)
    eqn:Hland.
  - apply andb_prop in Hland as [Hmulti Hst]. apply PlannerState_eqb_eq in Hst.
    destruct Hwf as [Hcp _]. specialize (Hcp Hmulti).
    destruct (cmd_publisher m) as [cp|]; [|congruence].
    eexists. split; [reflexivity|]. cbn.
    do 4 (split; [reflexivity|]). split.
    + intros _ _. do 4 (split; [reflexivity|]). exists cp. split; reflexivity.
    + intros [H | H]; congruence.
  - destruct (planningStateTransition_total m Hwf) as (m1 & Hpst & Hp & Hc).
    destruct (planningStateTransition_keeps m m1 Hpst)
      as (_ & _ & Hst1 & _ & Hcs1 & _ & _ & _ & _ & _ & Htp1 & _).
    assert (Hmm : map_manager m1 = map_manager m /\ is_disturbed m1 = is_disturbed m).
    { revert Hpst. unfold planningStateTransition.
      destruct (PlannerState_eqb (planner_state m) GOTO);
        [destruct (agents_at _ _); [|discriminate]|
         destruct (PlannerState_eqb (planner_state m) PATROL && _);
           [|destruct (PlannerState_eqb (planner_state m) GOBACK);
              [destruct (agents_at _ _); [|discriminate]|]]];
        intros H; injection H as <-; split; reflexivity. }
    destruct Hmm as [Hmm Hdis].
    rewrite Hpst, Htp1, Hmm, Hdis.
    destruct (TrajPlanner_plan (traj_planner m) (agent m1) (map_manager m) t
                               (is_disturbed m)) as [traj tp] eqn:Hplan.
    cbn. rewrite Hp.
    assert (Hnot : multisim_experiment (param m) = true -> planner_state m = LAND -> False).
    { intros Hmulti Hst. rewrite Hmulti, Hst in Hland. discriminate. }
    destruct (multisim_experiment (param m)) eqn:Hmulti.
    + destruct Hwf as [Hcp _]. specialize (Hcp Hmulti). rewrite Hc.
      destruct (cmd_publisher m) as [cp|]; [|congruence].
      eexists. split; [reflexivity|]. cbn.
      do 2 (split; [reflexivity|]). split; [exact Hst1|].
      split; [unfold getCurrentStateMsg; cbn; rewrite Hcs1; reflexivity|].
      split; [intros _ Hst; exfalso; apply Hnot; auto|].
      intros _. exists m1. split; [reflexivity|]. cbv zeta. rewrite Hplan. cbn.
      do 6 (split; [reflexivity|]).
      split; [intros _; exists cp; split; reflexivity | discriminate].
    + eexists. split; [reflexivity|]. cbn.
      do 2 (split; [reflexivity|]). split; [exact Hst1|].
      split; [unfold getCurrentStateMsg; cbn; rewrite Hcs1; reflexivity|].
      split; [discriminate|].
      intros _. exists m1. split; [reflexivity|]. cbv zeta. rewrite Hplan. cbn.
      do 6 (split; [reflexivity|]).
      split; [discriminate | intros _; exact Hc].
Qed.

(** ** Obstacles *)

(** X22: [obstacleCallback] hands the trajectory planner a list with the
    same ids and types, in the same order, and raises the obstacle flag,
    leaving the agent and the current-state flag alone.  Without the
    coupling the list is passed unchanged; under it, exactly the dynamic
    obstacles whose pose the command publisher has observed get the
    observed pose and velocity, and every other obstacle is passed
    unchanged. *)
Theorem obstacleCallback_observed_obstacles
    (m : AgentManager) (_msg_obstacles : list (Obstacle Pose Twist)) :
  well_formed m ->
  exists m' msg_obstacles,
    obstacleCallback m _msg_obstacles = Some m'
    /\ traj_planner m' = setObstacles (traj_planner m) msg_obstacles
    /\ has_obstacles m' = true
    /\ has_current_state m' = has_current_state m
    /\ agent m' = agent m
    /\ map obs_id msg_obstacles = map obs_id _msg_obstacles
    /\ map obs_type msg_obstacles = map obs_type _msg_obstacles
    /\ (multisim_experiment (param m) = false -> msg_obstacles = _msg_obstacles)
    /\ (forall cp i obstacle,
          multisim_experiment (param m) = true -> cmd_publisher m = Some cp ->
          nth_error _msg_obstacles i = Some obstacle ->
          nth_error msg_obstacles i
          = Some (if ObstacleType_eqb (obs_type obstacle) DYNAMICOBSTACLE
                     && isObsPoseUpdated cp (obs_id obstacle)
                  then mkObstacle (obs_id obstacle) (obs_type obstacle)
                                  (fst (getObsOdometry cp (obs_id obstacle)))
                                  (snd (getObsOdometry cp (obs_id obstacle)))
                  else obstacle)).
Proof.
  intros [Hcp _]. unfold obstacleCallback.
  destruct (multisim_experiment (param m)) eqn:Hmulti.
  - specialize (Hcp eq_refl). destruct (cmd_publisher m) as [cp|]; [|congruence].
    eexists. eexists. split; [reflexivity|]. cbn.
    do 4 (split; [reflexivity|]).
    split; [|split; [|split; [discriminate|]]].
    + rewrite map_map. apply map_ext. intros ob.
      destruct (ObstacleType_eqb _ _ && _); reflexivity.
    + rewrite map_map. apply map_ext. intros ob.
      destruct (ObstacleType_eqb _ _ && _); reflexivity.
    + intros cp' i ob _ Hpub Hnth. injection Hpub as <-.
      rewrite nth_error_map, Hnth. reflexivity.
  - eexists. eexists. split; [reflexivity|]. cbn.
    do 6 (split; [reflexivity|]). split; [reflexivity|].
    intros; discriminate.
Qed.

(** ** The plane of a two-dimensional world *)

Lemma plan_current_state (m m' : AgentManager) (t : Time) (r : PlanningReport) :
  plan m t = Some (r, m') -> current_state (agent m') = current_state (agent m).
Proof.
  unfold plan.
  destruct (negb (has_obstacles m) || negb (has_current_state m)).
  - intros H; injection H as _ <-. reflexivity.
  - destruct (multisim_experiment (param m) && PlannerState_eqb (planner_state m) LAND).
    + destruct (cmd_publisher m) as [cp|]; [|discriminate].
      intros H; injection H as _ <-. reflexivity.
    + destruct (planningStateTransition m) as [m1|] eqn:Hpst; [|discriminate].
      destruct (planningStateTransition_keeps m m1 Hpst)
        as (_ & _ & _ & _ & Hcs & _).
      destruct (TrajPlanner_plan _ _ _ _ _) as [traj tp]. cbn.
      destruct (multisim_experiment (param m1)).
      * destruct (cmd_publisher m1) as [cp|]; [|discriminate].
        intros H; injection H as _ <-. exact Hcs.
      * intros H; injection H as _ <-. exact Hcs.
Qed.

Lemma doStep_height (m m' : AgentManager) (time_step : R) :
  world_dimension (param m) = 2%Z ->
  doStep m time_step = Some m' ->
  z (getCurrentPosition m') = world_z_2d (param m).
Proof.
  intros Hdim. unfold doStep, getCurrentPosition.
  destruct (multisim_experiment (param m)).
  - destruct (cmd_publisher m) as [cp|]; [|discriminate]. cbn -[Z.eqb].
    destruct (isDisturbed cp); cbn -[Z.eqb]; rewrite Hdim; cbn;
      destruct (world_use_global_map (param m)); cbn;
      intros H; injection H as <-; reflexivity.
  - cbn -[Z.eqb]. rewrite Hdim. cbn.
    destruct (world_use_global_map (param m)); cbn;
      intros H; injection H as <-; reflexivity.
Qed.

Lemma call_height (m m' : AgentManager) (c : Call) :
  world_dimension (param m) = 2%Z ->
  call m c = Some m' ->
  param m' = param m
  /\ (current_state (agent m') = current_state (agent m)
      \/ z (getCurrentPosition m') = world_z_2d (param m)).
Proof.
  intros Hdim. destruct c; cbn [call].
  - intros H. split; [apply (doStep_frame _ _ _ H)|]. right.
    eapply doStep_height; eassumption.
  - destruct (plan m sim_current_time) as [[r m1]|] eqn:Hp; [|discriminate].
    intros H; injection H as <-. cbn [snd].
    split; [apply (plan_frame _ _ _ _ Hp)|]. left.
    eapply plan_current_state; exact Hp.
  - intros H. split; [apply (obstacleCallback_frame _ _ _ H)|]. left.
    revert H. unfold obstacleCallback.
    destruct (multisim_experiment (param m));
      [destruct (cmd_publisher m); [|discriminate]|];
      intros H; injection H as <-; reflexivity.
  - intros H; injection H as <-. split; [reflexivity|]. right.
    unfold setCurrentState, getCurrentPosition. rewrite Hdim. reflexivity.
  - intros H. split; [apply (setPlannerState_frame _ _ _ H)|]. left.
    revert H. unfold setPlannerState.
    destruct (multisim_experiment (param m) && _);
      [destruct (cmd_publisher m); [|discriminate]; destruct (negb _)|];
      intros H; injection H as <-; reflexivity.
  - unfold setStartPosition. destruct (agents_update _ _ _); [|discriminate].
    intros H; injection H as <-. split; [reflexivity | left; reflexivity].
  - unfold setDesiredGoal. destruct (agents_update _ _ _); [|discriminate].
    intros H; injection H as <-. split; [reflexivity | left; reflexivity].
  - intros H; injection H as <-. split; [reflexivity | left; reflexivity].
Qed.

(** X23: in a two-dimensional world, [setCurrentState] and [doStep] leave
    the agent at height [world_z_2d], whatever the message or the branch of
    the step; reading the state back and setting it again changes nothing;
    and once the agent is at that height it stays there through every
    sequence of calls. *)
Theorem planar_world_height (m : AgentManager) :
  world_dimension (param m) = 2%Z ->
  (forall msg_current_state,
     z (getCurrentPosition (setCurrentState m msg_current_state)) = world_z_2d (param m)
     /\ setCurrentState m (getCurrentStateMsg (setCurrentState m msg_current_state))
        = setCurrentState m msg_current_state)
  /\ (forall time_step m',
        doStep m time_step = Some m' ->
        z (getCurrentPosition m') = world_z_2d (param m))
  /\ (forall l m',
        z (getCurrentPosition m) = world_z_2d (param m) ->
        calls m l = Some m' ->
        z (getCurrentPosition m') = world_z_2d (param m)).
Proof.
  intros Hdim. split; [|split].
  - intros s. unfold setCurrentState, getCurrentPosition, getCurrentStateMsg.
    rewrite Hdim. split; reflexivity.
  - intros time_step m' H. eapply doStep_height; eassumption.
  - intros l. revert m Hdim. induction l as [|c l IH]; intros m Hdim m' Hz; cbn [calls].
    + intros H; injection H as <-. exact Hz.
    + destruct (call m c) as [m1|] eqn:Hc; [|discriminate].
      destruct (call_height m m1 c Hdim Hc) as [Hp Hh].
      intros H. rewrite <- Hp. apply (IH m1); [rewrite Hp; exact Hdim | | exact H].
      rewrite Hp. destruct Hh as [Hcs | Hz1]; [|exact Hz1].
      unfold getCurrentPosition in *. rewrite Hcs. exact Hz.
Qed.

(** ** The initial state after an override *)

(** X24: in a world that is not two-dimensional, with a positive
    [reset_threshold], after a step on which the command executor reports a
    disturbance [isInitialStateValid] answers true: the step has put the
    agent at the observed position. *)
Theorem isInitialStateValid_after_override
    (m : AgentManager) (time_step : R) (cp : CmdPublisher) :
  multisim_experiment (param m) = true ->
  cmd_publisher m = Some cp ->
  isDisturbed cp = true ->
  world_dimension (param m) <> 2%Z ->
  0 < reset_threshold (param m) ->
  exists m',
    doStep m time_step = Some m'
    /\ getCurrentPosition m' = getObservedAgentPosition cp
    /\ isInitialStateValid m' = Some true.
Proof.
  intros Hmulti Hcp Hdist Hdim Hth.
  apply Z.eqb_neq in Hdim.
  assert (Hzero : forall p, distance p p = 0).
  { intros p. unfold distance.
    replace ((x p - x p) * (x p - x p) + (y p - y p) * (y p - y p)
             + (z p - z p) * (z p - z p)) with 0 by ring.
    apply sqrt_0. }
  unfold doStep. rewrite Hmulti, Hcp. cbn -[Z.eqb]. rewrite Hdist. cbn -[Z.eqb].
  rewrite Hdim. unfold set_agent at 1, set_is_disturbed at 1. cbn [param].
  destruct (world_use_global_map (param m)); cbn;
    (eexists; split; [reflexivity|]; split; [reflexivity|]);
    unfold isInitialStateValid; cbn; rewrite Hmulti, Hcp;
    (destruct (isAgentPoseUpdated cp); [|reflexivity]);
    rewrite Hzero; unfold Rltb;
    (destruct (Rlt_dec 0 (reset_threshold (param m))); [reflexivity | contradiction]).
Qed.

End ManagerCoverage.

(** ** Further runs of the manager on the test double *)

Section ManagerCoverageRuns.

Import Geometry.
Import Agent_manager.

Lemma calls_defined_witness :
  let m := m_coupled 3 GOTO false false in
  exists m',
    calls m round_of_calls = Some m'
    /\ well_formed m'
    /\ param m' = param m
    /\ id (agent m') = id (agent m)
    /\ (exists b, isInitialStateValid m' = Some b)
    /\ (AgentManager_getObservedAgentPosition m' = None <-> cmd_publisher m = None).
Proof.
  intros m. apply (calls_defined m round_of_calls).
  split; [intros _; simpl; discriminate | simpl; discriminate].
Defined.

Lemma setters_write_through_to_mission_witness :
  let m := m_plain GOTO origin origin origin in
  let p := mkPoint3d 3 0 2 in
  (exists m1,
     setDesiredGoal m p = Some m1
     /\ getDesiredGoalPoint m1 = p
     /\ getStartPoint m1 = getStartPoint m
     /\ (planner_state m = GOTO ->
         exists m2, planningStateTransition m1 = Some m2
                    /\ getDesiredGoalPoint m2 = p))
  /\ (exists m1,
        setStartPosition m p = Some m1
        /\ getStartPoint m1 = p
        /\ getDesiredGoalPoint m1 = getDesiredGoalPoint m
        /\ (planner_state m = GOBACK ->
            exists m2, planningStateTransition m1 = Some m2
                       /\ getDesiredGoalPoint m2 = p
                       /\ getStartPoint m2 = p)).
Proof.
  intros m p. apply (setters_write_through_to_mission m p).
  split; [intros H; discriminate H | simpl; discriminate].
Defined.

Lemma planningStateTransition_local_witness :
  let m := m_plain GOBACK (mkPoint3d 5 0 1) (mkPoint3d 0 0 1) (mkPoint3d 5 0 1) in
  exists m',
    planningStateTransition m = Some m'
    /\ param m' = param m /\ mission m' = mission m
    /\ planner_state m' = planner_state m
    /\ getCurrentStateMsg m' = getCurrentStateMsg m
    /\ current_goal_point (agent m') = current_goal_point (agent m)
    /\ getNextWaypoint m' = getNextWaypoint m
    /\ has_obstacles m' = has_obstacles m
    /\ has_current_state m' = has_current_state m
    /\ getTraj m' = getTraj m
    /\ traj_planner m' = traj_planner m
    /\ (planner_state m <> PATROL -> getStartPoint m' = getStartPoint m)
    /\ (planner_state m = WAIT \/ planner_state m = LAND -> m' = m)
    /\ (planner_state m = GOTO ->
        forall a, agents_at (mission m) (id (agent m)) = Some a ->
          getDesiredGoalPoint m' = desired_goal_point a)
    /\ (planner_state m = GOBACK ->
        forall a, agents_at (mission m) (id (agent m)) = Some a ->
          getDesiredGoalPoint m' = start_point a).
Proof.
  intros m. apply (planningStateTransition_local m).
  split; [intros H; discriminate H | simpl; discriminate].
Defined.

Lemma planar_world_height_witness :
  let m := m_coupled 2 GOTO true false in
  (forall msg_current_state,
     z (getCurrentPosition (setCurrentState m msg_current_state)) = world_z_2d (param m)
     /\ setCurrentState m (getCurrentStateMsg (setCurrentState m msg_current_state))
        = setCurrentState m msg_current_state)
  /\ (forall time_step m',
        doStep m time_step = Some m' ->
        z (getCurrentPosition m') = world_z_2d (param m))
  /\ (forall l m',
        z (getCurrentPosition m) = world_z_2d (param m) ->
        calls m l = Some m' ->
        z (getCurrentPosition m') = world_z_2d (param m)).
Proof.
  intros m. apply (planar_world_height m). reflexivity.
Defined.

Lemma doStep_follows_trajectory_witness :
  let m := m_coupled 2 GOTO false false in
  let ideal := getFutureStateMsg m (1 / 2) in
  let p := if (world_dimension (param m) =? 2)%Z
           then mkPoint3d (x (position ideal)) (y (position ideal)) (world_z_2d (param m))
           else position ideal in
  exists m',
    doStep m (1 / 2) = Some m'
    /\ getCurrentStateMsg m' = mkState p (velocity ideal) (acceleration ideal)
    /\ map_manager m'
       = (if world_use_global_map (param m) then map_manager m
          else updateVirtualLocalMap (map_manager m) p)
    /\ has_current_state m' = true
    /\ is_disturbed m'
       = (if multisim_experiment (param m) then false else is_disturbed m)
    /\ getTraj m' = getTraj m
    /\ planner_state m' = planner_state m
    /\ has_obstacles m' = has_obstacles m
    /\ mission m' = mission m.
Proof.
  intros m. apply (doStep_follows_trajectory m (1 / 2)).
  - split; [intros _; simpl; discriminate | simpl; discriminate].
  - intros cp _ H. injection H as <-. reflexivity.
Defined.

Lemma plan_landing_or_planning_witness :
  let m := m_coupled 3 GOBACK false false in
  exists m',
    plan m tt = Some (SUCCESS, m')
    /\ has_obstacles m' = false /\ has_current_state m' = false
    /\ planner_state m' = planner_state m
    /\ getCurrentStateMsg m' = getCurrentStateMsg m
    /\ (multisim_experiment (param m) = true -> planner_state m = LAND ->
        agent m' = agent m
        /\ getTraj m' = getTraj m
        /\ traj_planner m' = traj_planner m
        /\ collision_alert m' = collision_alert m
        /\ exists cp, cmd_publisher m = Some cp
                      /\ cmd_publisher m' = Some (landingCallback cp))
    /\ (multisim_experiment (param m) = false \/ planner_state m <> LAND ->
        exists m1,
          planningStateTransition m = Some m1
          /\ let r := TrajPlanner_plan (traj_planner m) (agent m1) (map_manager m)
                                       tt (is_disturbed m) in
             getTraj m' = fst r
             /\ traj_planner m' = snd r
             /\ current_goal_point (agent m') = getCurrentGoalPoint m'
             /\ collision_alert m' = getCollisionAlert (snd r)
             /\ getDesiredGoalPoint m' = getDesiredGoalPoint m1
             /\ getStartPoint m' = getStartPoint m1
             /\ (multisim_experiment (param m) = true ->
                 exists cp, cmd_publisher m = Some cp
                            /\ cmd_publisher m' = Some (updateTraj cp (fst r) tt))
             /\ (multisim_experiment (param m) = false ->
                 cmd_publisher m' = cmd_publisher m)).
Proof.
  intros m. apply (plan_landing_or_planning m tt).
  - split; [intros _; simpl; discriminate | simpl; discriminate].
  - reflexivity.
  - reflexivity.
Defined.

Lemma obstacleCallback_observed_obstacles_witness :
  let m := m_coupled 3 GOTO false false in
  exists m' msg_obstacles,
    obstacleCallback m obstacles_received = Some m'
    /\ traj_planner m' = setObstacles (traj_planner m) msg_obstacles
    /\ has_obstacles m' = true
    /\ has_current_state m' = has_current_state m
    /\ agent m' = agent m
    /\ map obs_id msg_obstacles = map obs_id obstacles_received
    /\ map obs_type msg_obstacles = map obs_type obstacles_received
    /\ (multisim_experiment (param m) = false -> msg_obstacles = obstacles_received)
    /\ (forall cp i obstacle,
          multisim_experiment (param m) = true -> cmd_publisher m = Some cp ->
          nth_error obstacles_received i = Some obstacle ->
          nth_error msg_obstacles i
          = Some (if ObstacleType_eqb (obs_type obstacle) DYNAMICOBSTACLE
                     && isObsPoseUpdated cp (obs_id obstacle)
                  then mkObstacle (obs_id obstacle) (obs_type obstacle)
                                  (fst (getObsOdometry cp (obs_id obstacle)))
                                  (snd (getObsOdometry cp (obs_id obstacle)))
                  else obstacle)).
Proof.
  intros m. apply (obstacleCallback_observed_obstacles m obstacles_received).
  split; [intros _; simpl; discriminate | simpl; discriminate].
Defined.

Lemma isInitialStateValid_after_override_witness :
  let m := m_coupled 3 GOTO true false in
  exists m',
    doStep m (1 / 2) = Some m'
    /\ getCurrentPosition m' = mkPoint3d 0 0 5
    /\ isInitialStateValid m' = Some true.
Proof.
  intros m.
  apply (@isInitialStateValid_after_override mock_collaborators m (1 / 2)
           (mkMockCmdPublisher true (mkPoint3d 0 0 5) false)
           eq_refl eq_refl eq_refl).
  - simpl. discriminate.
  - simpl. lra.
Defined.

End ManagerCoverageRuns.
